(** * jki_to_jik: layout conversion of an on-disk three-dimensional array

    A shallow embedding of [jki_to_jik.c].  The program reads a file of
    8-byte floating-point elements stored in JKI order and writes them in
    JIK order, through one of two i/o drivers ([fd], [stream]) and with one
    of six traversal/buffering algorithms.

    Layout of the development:
    - [Mach]        the C integer types the program computes with;
    - offsets       [offset_ijk], [offset_jki], [offset_jik];
    - [outcome]     the state-and-exit monad [main] runs in;
    - callbacks     the [file_handle_callbacks] table and the engine
                    ([init_input], [convert], [main]) written against it;
    - options       the two name tables and the option loop of [main];
    - [Posix]       a model of regular files and the two drivers;
    - [Logging]     a driver wrapper that records every call;
    - theorems. *)

From Stdlib Require Import ZArith Lia Strings.Byte Strings.Ascii.
From stdpp Require Import gmap strings list fin_maps.

Local Open Scope Z_scope.

(** ** C integer types (LP64) *)

Module Mach.

(** [unsigned long] and [size_t] are 64 bits wide; arithmetic wraps. *)
Definition ULONG_MOD : Z := 2 ^ 64.

Definition ulong (z : Z) : Z := z mod ULONG_MOD.

Definition umul (a b : Z) : Z := ulong (a * b).
Definition uadd (a b : Z) : Z := ulong (a + b).

(** [off_t] and [ssize_t] are signed 64-bit. *)
Definition OFF_MAX : Z := 2 ^ 63 - 1.

(** Conversion of an unsigned 64-bit value to [off_t] (two's complement). *)
Definition to_off_t (z : Z) : Z :=
  if ulong z <? 2 ^ 63 then ulong z else ulong z - ULONG_MOD.

(** [sizeof(double)] *)
Abbreviation SIZEOF_DOUBLE := 8 (only parsing).

(** errno values used by the program and by the file model. *)
Definition ENOENT : Z := 2.
Definition EBADF : Z := 9.
Definition ENOMEM : Z := 12.
Definition EEXIST : Z := 17.
Definition EINVAL : Z := 22.
Definition EFBIG : Z := 27.

End Mach.

Import Mach.

(** ** Dimensions and the three offset functions *)

(** [unsigned long n[3]] *)
Record dims : Type := Dims { n0 : Z; n1 : Z; n2 : Z }.

(** [return i * n[2] * n[1] + n[2] * j + k;] *)
Definition offset_ijk (n : dims) (i j k : Z) : Z :=
  uadd (uadd (umul (umul i (n2 n)) (n1 n)) (umul (n2 n) j)) k.

(** [return j * n[0] * n[2] + n[0] * k + i;] *)
Definition offset_jki (n : dims) (i j k : Z) : Z :=
  uadd (uadd (umul (umul j (n0 n)) (n2 n)) (umul (n0 n) k)) i.

(** [return j * n[0] * n[2] + n[2] * i + k;] *)
Definition offset_jik (n : dims) (i j k : Z) : Z :=
  uadd (uadd (umul (umul j (n0 n)) (n2 n)) (umul (n2 n) i)) k.

(** The values [strtoul] can deliver and [main] accepts: non-zero
    [unsigned long]s. *)
Definition dims_positive (n : dims) : Prop :=
  0 < n0 n < ULONG_MOD ∧ 0 < n1 n < ULONG_MOD ∧ 0 < n2 n < ULONG_MOD.

(** Number of elements of the cube, as a mathematical integer. *)
Definition volume (n : dims) : Z := n0 n * n1 n * n2 n.

Definition in_cube (n : dims) (i j k : Z) : Prop :=
  0 ≤ i < n0 n ∧ 0 ≤ j < n1 n ∧ 0 ≤ k < n2 n.

(** [f] enumerates [[0, volume n)] exactly once over the index cube. *)
Definition enumerates_once (n : dims) (f : Z → Z → Z → Z) : Prop :=
  (∀ i j k, in_cube n i j k → 0 ≤ f i j k < volume n) ∧
  (∀ o, 0 ≤ o < volume n →
     ∃ i j k, in_cube n i j k ∧ f i j k = o ∧
       ∀ i' j' k', in_cube n i' j' k' → f i' j' k' = o →
                   i' = i ∧ j' = j ∧ k' = k).

(** ** Bytes and doubles *)

(** The object representation of a [double]: [sizeof(double)] bytes.  The
    program never inspects them; it only moves them around. *)
Record double : Type :=
  Double { d0 : byte; d1 : byte; d2 : byte; d3 : byte;
           d4 : byte; d5 : byte; d6 : byte; d7 : byte }.

Definition double_bytes (d : double) : list byte :=
  [d0 d; d1 d; d2 d; d3 d; d4 d; d5 d; d6 d; d7 d].

(** Pointer arithmetic on a [double*]: the memory from element [i] onward. *)
Definition ptr_add (v : list byte) (i : Z) : list byte :=
  drop (Z.to_nat (SIZEOF_DOUBLE * i)) v.

(** [v[i]] as an rvalue. *)
Definition load_double (v : list byte) (i : Z) : list byte :=
  take (Z.to_nat SIZEOF_DOUBLE) (ptr_add v i).

(** [v[i] = d], for an element [i] of the block [v].  (A store past the
    end of the block has no meaning in C; the statements below that
    depend on a buffer are made for sizes that do not wrap around, for
    which every store is inside the block.) *)
Definition store_double (v : list byte) (i : Z) (d : list byte) : list byte :=
  take (Z.to_nat (SIZEOF_DOUBLE * i)) v ++ d ++ ptr_add v (i + 1).

(** The memory [v] after a callee has updated the part that starts at
    element [i] (it was handed [ptr_add v i]) into [m]. *)
Definition update_from (v : list byte) (i : Z) (m : list byte) : list byte :=
  take (Z.to_nat (SIZEOF_DOUBLE * i)) v ++ m.

(** ** Diagnostics and outcomes *)

(** One constructor per [fprintf(stderr, "ERROR: ...")] family of [main]. *)
Inductive diag : Type :=
| err_dimension            (* invalid dimension n%lu: 0 *)
| err_no_input_name        (* no input file name provided *)
| err_no_output_name       (* no output file name provided *)
| err_create_input         (* unable to create input file *)
| err_truncate_input       (* unable to truncate input file *)
| err_init_write           (* unable to write (i,j,k) to input file *)
| err_alloc                (* unable to allocate ... *)
| err_open_input           (* unable to open input file for reading *)
| err_stat_input           (* unable to get metadata for input file *)
| err_input_too_small      (* input file is too small for dimensions *)
| err_input_too_large      (* input file is too large for dimensions *)
| err_create_output        (* unable to create output file *)
| err_open_output          (* unable to open output file *)
| err_stat_output          (* unable to get metadata for output file *)
| err_output_too_small     (* output file is too small for dimensions *)
| err_output_too_large     (* output file is too large for dimensions *)
| err_seek_input           (* unable to seek to ... in input file *)
| err_unexpected_eof       (* unexpected end-of-file on input file *)
| err_read_input           (* unable to read ... from input file *)
| err_seek_output          (* unable to seek to ... in output file *)
| err_write_output         (* unable to write ... to output file *)
| init_only.               (* [if ( ! output_file ) exit(0);] *)

(** A computation either continues with a value, or the process has
    called [exit(status)]; both carry the state of the world. *)
Inductive outcome (W A : Type) : Type :=
| Ret (a : A) (w : W)
| Exit (d : diag) (status : Z) (w : W).
Arguments Ret {W A} a w.
Arguments Exit {W A} d status w.

Definition M (W A : Type) : Type := W → outcome W A.

Definition ret {W A} (a : A) : M W A := λ w, Ret a w.

Definition bind {W A B} (m : M W A) (k : A → M W B) : M W B :=
  λ w, match m w with
       | Ret a w' => k a w'
       | Exit d s w' => Exit d s w'
       end.

(** [exit(status)] *)
Definition exit {W A} (d : diag) (status : Z) : M W A := λ w, Exit d status w.

Declare Scope prog_scope.
Delimit Scope prog_scope with prog.
Notation "'let*' x ':=' c1 'in' c2" := (bind c1 (λ x, c2))
  (at level 10, x pattern, c1 at level 100, c2 at level 200) : prog_scope.
Local Open Scope prog_scope.

(** [for ( i=0; i<bound; i++ ) body], threading the locals [a] that the
    body updates.  [i] never wraps: it stays below [bound]. *)
Fixpoint for_from {W A} (fuel : nat) (i : Z) (body : Z → A → M W A) (a : A)
  : M W A :=
  match fuel with
  | O => ret a
  | S fuel' => let* a' := body i a in for_from fuel' (i + 1) body a'
  end.

Definition for_ulong {W A} (bound : Z) (body : Z → A → M W A) (a : A) : M W A :=
  for_from (Z.to_nat bound) 0 body a.

(** ** The i/o driver table *)

(** The two [file_handle_t] locals of [main]; a callback receives the
    address of one of them. *)
Inductive fh_ptr : Type := in_fh | out_fh.

(** [file_handle_callbacks].  A buffer argument is the memory its pointer
    designates; [io_read] returns that memory as the callee left it. *)
Record file_handle_callbacks (W : Type) : Type := Callbacks {
  io_open  : fh_ptr → string → bool → bool → bool → W → bool * W;
  io_stat  : fh_ptr → W → option Z * W;   (* [st_size], when it succeeds *)
  io_seek  : fh_ptr → Z → W → Z * W;
  io_read  : fh_ptr → list byte → Z → W → (Z * list byte) * W;
  io_write : fh_ptr → list byte → Z → W → Z * W;
  io_close : fh_ptr → W → W }.
Arguments io_open {W}. Arguments io_stat {W}. Arguments io_seek {W}.
Arguments io_read {W}. Arguments io_write {W}. Arguments io_close {W}.

(** What else [main] takes from its environment. *)
Record libc (W : Type) : Type := Libc {
  errno : W → Z;
  malloc : Z → W → bool;             (* does [malloc(size)] succeed? *)
  double_of_ulong : Z → double;      (* the conversion [(double)offset] *)
  stale : byte }.                    (* content of uninitialised storage *)
Arguments errno {W}. Arguments malloc {W}.
Arguments double_of_ulong {W}. Arguments stale {W}.

Inductive algorithm_t : Type :=
| algorithm_ijk_map | algorithm_jki_map | algorithm_jik_map
| algorithm_vector_input | algorithm_vector_output | algorithm_matrix.

Inductive io_driver_t : Type := io_driver_fd | io_driver_stream.

(** The locals of [main] that the option loop sets. *)
Record options : Type := Options {
  input_file : option string;
  output_file : option string;
  use_io_driver : io_driver_t;
  should_use_exact_dims : bool;
  use_algorithm : algorithm_t;
  should_init_input : bool;
  opt_n : dims }.

(** ** The engine, written against the callback table *)

Section Engine.

Context {W : Type}.
Variable io_driver : file_handle_callbacks W.
Variable rt : libc W.

(** Calls through the table, as computations. *)
Definition open (fh : fh_ptr) (path : string)
    (read_only should_create should_trunc : bool) : M W bool :=
  λ w, let (r, w') := io_open io_driver fh path read_only should_create should_trunc w
       in Ret r w'.
Definition stat (fh : fh_ptr) : M W (option Z) :=
  λ w, let (r, w') := io_stat io_driver fh w in Ret r w'.
Definition seek (fh : fh_ptr) (offset : Z) : M W Z :=
  λ w, let (r, w') := io_seek io_driver fh offset w in Ret r w'.
Definition read (fh : fh_ptr) (buffer : list byte) (buffer_len : Z)
    : M W (Z * list byte) :=
  λ w, let (r, w') := io_read io_driver fh buffer buffer_len w in Ret r w'.
Definition write (fh : fh_ptr) (buffer : list byte) (buffer_len : Z) : M W Z :=
  λ w, let (r, w') := io_write io_driver fh buffer buffer_len w in Ret r w'.
Definition close (fh : fh_ptr) : M W unit :=
  λ w, Ret tt (io_close io_driver fh w).

(** [exit(errno)] *)
Definition exit_errno {A} (d : diag) : M W A := λ w, Exit d (errno rt w) w.

(** [malloc(size)]: the fresh block of [size] bytes, if there is one. *)
Definition alloc (size : Z) : M W (option (list byte)) :=
  λ w, if malloc rt size w
       then Ret (Some (replicate (Z.to_nat size) (stale rt))) w
       else Ret None w.

(** *** Initialisation of the input file *)

(** [double v = offset(n, i, j, k); n_bytes = write(&in_fh, &v, sizeof(v));
    if ( n_bytes <= 0 ) exit(errno);] *)
Definition init_element (offset : dims → Z → Z → Z → Z) (n : dims) (i j k : Z)
    : M W unit :=
  let v := double_of_ulong rt (offset n i j k) in
  let* n_bytes := write in_fh (double_bytes v) SIZEOF_DOUBLE in
  if n_bytes <=? 0 then exit_errno err_init_write else ret tt.

Definition init_ijk_map (n : dims) : M W unit :=
  for_ulong (n0 n) (λ i _,
    for_ulong (n1 n) (λ j _,
      for_ulong (n2 n) (λ k _, init_element offset_ijk n i j k) tt) tt) tt.

Definition init_jki_map (n : dims) : M W unit :=
  for_ulong (n1 n) (λ j _,
    for_ulong (n2 n) (λ k _,
      for_ulong (n0 n) (λ i _, init_element offset_jki n i j k) tt) tt) tt.

Definition init_jik_map (n : dims) : M W unit :=
  for_ulong (n0 n) (λ i _,
    for_ulong (n1 n) (λ j _,
      for_ulong (n2 n) (λ k _, init_element offset_jik n i j k) tt) tt) tt.

(** In the three buffered variants the result of [write] is assigned to
    [n_bytes] and not looked at. *)
Definition init_vector_input (n : dims) : M W unit :=
  let v_len := umul SIZEOF_DOUBLE (n0 n) in
  let* v := alloc v_len in
  match v with
  | None => exit err_alloc ENOMEM
  | Some v =>
    let* _ :=
      for_ulong (n1 n) (λ j v,
        for_ulong (n2 n) (λ k v,
          let* v := for_ulong (n0 n) (λ i v,
                      ret (store_double v i
                             (double_bytes (double_of_ulong rt (offset_jki n i j k))))) v in
          let* n_bytes := write in_fh v v_len in
          ret v) v) v in
    ret tt
  end.

Definition init_vector_output (n : dims) : M W unit :=
  let v_len := umul SIZEOF_DOUBLE (n2 n) in
  let* v := alloc v_len in
  match v with
  | None => exit err_alloc ENOMEM
  | Some v =>
    let* _ :=
      for_ulong (n1 n) (λ j v,
        for_ulong (n0 n) (λ i v,
          let* v := for_ulong (n2 n) (λ k v,
                      ret (store_double v k
                             (double_bytes (double_of_ulong rt (offset_jki n i j k))))) v in
          let* n_bytes := write in_fh v v_len in
          ret v) v) v in
    ret tt
  end.

Definition init_matrix (n : dims) : M W unit :=
  let v_len := umul (umul SIZEOF_DOUBLE (n0 n)) (n2 n) in
  let* v := alloc v_len in
  match v with
  | None => exit err_alloc ENOMEM
  | Some v =>
    let* _ :=
      for_ulong (n1 n) (λ j v,
        let* v := for_ulong (n2 n) (λ k v,
                    for_ulong (n0 n) (λ i v,
                      ret (store_double v (uadd (umul (n0 n) k) i)
                             (double_bytes (double_of_ulong rt (offset_jki n i j k))))) v) v in
        let* n_bytes := write in_fh v v_len in
        ret v) v in
    ret tt
  end.

(** [switch ( use_algorithm )] of the initialisation. *)
Definition init_input (a : algorithm_t) (n : dims) : M W unit :=
  match a with
  | algorithm_ijk_map => init_ijk_map n
  | algorithm_jki_map => init_jki_map n
  | algorithm_jik_map => init_jik_map n
  | algorithm_vector_input => init_vector_input n
  | algorithm_vector_output => init_vector_output n
  | algorithm_matrix => init_matrix n
  end.

(** *** Conversion *)

(** [if ( io_driver->seek(fh, fp) < 0 ) exit(errno);] *)
Definition seek_or_exit (fh : fh_ptr) (fp : Z) (d : diag) : M W unit :=
  let* r := seek fh fp in
  if r <? 0 then exit_errno d else ret tt.

(** [n_bytes = io_driver->read(&in_fh, buffer, len);
    if ( n_bytes <= 0 ) { if ( n_bytes == 0 ) exit(EINVAL); exit(errno); }]
    The result is the buffer after the call. *)
Definition read_or_exit (buffer : list byte) (len : Z) : M W (list byte) :=
  let* r := read in_fh buffer len in
  let (n_bytes, buffer') := r : Z * list byte in
  if n_bytes <=? 0 then
    if n_bytes =? 0 then exit err_unexpected_eof EINVAL
    else exit_errno err_read_input
  else ret buffer'.

(** [n_bytes = io_driver->write(&out_fh, buffer, len);
    if ( n_bytes <= 0 ) exit(errno);] *)
Definition write_or_exit (buffer : list byte) (len : Z) : M W unit :=
  let* n_bytes := write out_fh buffer len in
  if n_bytes <=? 0 then exit_errno err_write_output else ret tt.

(** [off_t fp = sizeof(double) * offset;] *)
Definition byte_offset (offset : Z) : Z := to_off_t (umul SIZEOF_DOUBLE offset).

(** The loop body shared, word for word, by [ijk_map], [jki_map] and
    [jik_map]. *)
Definition copy_element (n : dims) (i j k : Z) : M W unit :=
  let fp := byte_offset (offset_jki n i j k) in
  let* _ := seek_or_exit in_fh fp err_seek_input in
  let* v := read_or_exit (replicate (Z.to_nat SIZEOF_DOUBLE) (stale rt)) SIZEOF_DOUBLE in
  let fp := byte_offset (offset_jik n i j k) in
  let* _ := seek_or_exit out_fh fp err_seek_output in
  write_or_exit v SIZEOF_DOUBLE.

Definition convert_ijk_map (n : dims) : M W unit :=
  for_ulong (n0 n) (λ i _,
    for_ulong (n1 n) (λ j _,
      for_ulong (n2 n) (λ k _, copy_element n i j k) tt) tt) tt.

Definition convert_jki_map (n : dims) : M W unit :=
  for_ulong (n1 n) (λ j _,
    for_ulong (n2 n) (λ k _,
      for_ulong (n0 n) (λ i _, copy_element n i j k) tt) tt) tt.

Definition convert_jik_map (n : dims) : M W unit :=
  for_ulong (n1 n) (λ j _,
    for_ulong (n0 n) (λ i _,
      for_ulong (n2 n) (λ k _, copy_element n i j k) tt) tt) tt.

Definition convert_vector_input (n : dims) : M W unit :=
  let v_len := umul SIZEOF_DOUBLE (n0 n) in
  let* v := alloc v_len in
  match v with
  | None => exit err_alloc ENOMEM
  | Some v =>
    let* _ :=
      for_ulong (n1 n) (λ j v,
        for_ulong (n2 n) (λ k v,
          let fp := byte_offset (offset_jki n 0 j k) in
          let* _ := seek_or_exit in_fh fp err_seek_input in
          let* v := read_or_exit v v_len in
          let* _ := for_ulong (n0 n) (λ i _,
                      let fp := byte_offset (offset_jik n i j k) in
                      let* _ := seek_or_exit out_fh fp err_seek_output in
                      write_or_exit (ptr_add v i) SIZEOF_DOUBLE) tt in
          ret v) v) v in
    ret tt
  end.

Definition convert_vector_output (n : dims) : M W unit :=
  let v_len := umul SIZEOF_DOUBLE (n2 n) in
  let* v := alloc v_len in
  match v with
  | None => exit err_alloc ENOMEM
  | Some v =>
    let* _ :=
      for_ulong (n1 n) (λ j v,
        for_ulong (n0 n) (λ i v,
          let* v := for_ulong (n2 n) (λ k v,
                      let fp := byte_offset (offset_jki n i j k) in
                      let* _ := seek_or_exit in_fh fp err_seek_input in
                      let* m := read_or_exit (ptr_add v k) SIZEOF_DOUBLE in
                      ret (update_from v k m)) v in
          let fp := byte_offset (offset_jik n i j 0) in
          let* _ := seek_or_exit out_fh fp err_seek_output in
          let* _ := write_or_exit v v_len in
          ret v) v) v in
    ret tt
  end.

(** The two indices of [v2[i * n[2] + k] = v1[k * n[0] + i];]. *)
Definition transpose_dst (n : dims) (i k : Z) : Z := uadd (umul i (n2 n)) k.
Definition transpose_src (n : dims) (i k : Z) : Z := uadd (umul k (n0 n)) i.

(** One block holds both matrices: [v1] at its start, [v2 = v1 + n[0] * n[2]]. *)
Definition convert_matrix (n : dims) : M W unit :=
  let v_len := umul (umul SIZEOF_DOUBLE (n0 n)) (n2 n) in
  let* v1 := alloc (umul 2 v_len) in
  match v1 with
  | None => exit err_alloc ENOMEM
  | Some v1 =>
    let v2 := umul (n0 n) (n2 n) in
    let* _ :=
      for_ulong (n1 n) (λ j v1,
        let fp := byte_offset (offset_jki n 0 j 0) in
        let* _ := seek_or_exit in_fh fp err_seek_input in
        let* v1 := read_or_exit v1 v_len in
        let* v1 := for_ulong (n0 n) (λ i v1,
                     for_ulong (n2 n) (λ k v1,
                       ret (store_double v1 (v2 + transpose_dst n i k)
                              (load_double v1 (transpose_src n i k)))) v1) v1 in
        let fp := byte_offset (offset_jik n 0 j 0) in
        let* _ := seek_or_exit out_fh fp err_seek_output in
        let* _ := write_or_exit (ptr_add v1 v2) v_len in
        ret v1) v1 in
    ret tt
  end.

(** [switch ( use_algorithm )] of the conversion. *)
Definition convert (a : algorithm_t) (n : dims) : M W unit :=
  match a with
  | algorithm_ijk_map => convert_ijk_map n
  | algorithm_jki_map => convert_jki_map n
  | algorithm_jik_map => convert_jik_map n
  | algorithm_vector_input => convert_vector_input n
  | algorithm_vector_output => convert_vector_output n
  | algorithm_matrix => convert_matrix n
  end.

End Engine.

(** ** The names of the algorithms and of the drivers *)

(** The code of a character. *)
Definition char_code (c : ascii) : Z := Z.of_N (N_of_ascii c).

(** [tolower] in the C locale. *)
Definition tolower (c : ascii) : ascii :=
  if (65 <=? char_code c) && (char_code c <=? 90)
  then ascii_of_N (Z.to_N (char_code c + 32)) else c.

(** [strcasecmp]: the difference of the first two characters that differ
    after [tolower]; a string ends at its first NUL, if it has one. *)
Fixpoint strcasecmp (s1 s2 : string) : Z :=
  match s1, s2 with
  | EmptyString, EmptyString => 0
  | EmptyString, String c2 _ => 0 - char_code (tolower c2)
  | String c1 _, EmptyString => char_code (tolower c1)
  | String c1 r1, String c2 r2 =>
      if char_code (tolower c1) =? char_code (tolower c2)
      then if char_code (tolower c1) =? 0 then 0 else strcasecmp r1 r2
      else char_code (tolower c1) - char_code (tolower c2)
  end.

Definition algorithm_names : list string :=
  ["ijk_map"; "jki_map"; "jik_map"; "vector_input"; "vector_output"; "matrix"]%string.

Definition io_driver_names : list string := ["fd"; "stream"]%string.

(** [while ( names[a] ) { if ( strcasecmp(names[a], s) == 0 ) return a; a++; }
    return -1;] with [names] the part of the table from index [a] on. *)
Fixpoint string_to_index (names : list string) (a : Z) (s : string) : Z :=
  match names with
  | [] => -1
  | name :: names' =>
      if strcasecmp name s =? 0 then a else string_to_index names' (a + 1) s
  end.

(** The values of the two enumerations; [None] is [algorithm_invalid],
    respectively [io_driver_invalid]. *)
Definition algorithm_of_int (a : Z) : option algorithm_t :=
  match a with
  | 0 => Some algorithm_ijk_map
  | 1 => Some algorithm_jki_map
  | 2 => Some algorithm_jik_map
  | 3 => Some algorithm_vector_input
  | 4 => Some algorithm_vector_output
  | 5 => Some algorithm_matrix
  | _ => None
  end.

Definition int_of_algorithm (a : algorithm_t) : Z :=
  match a with
  | algorithm_ijk_map => 0
  | algorithm_jki_map => 1
  | algorithm_jik_map => 2
  | algorithm_vector_input => 3
  | algorithm_vector_output => 4
  | algorithm_matrix => 5
  end.

Definition io_driver_of_int (d : Z) : option io_driver_t :=
  match d with
  | 0 => Some io_driver_fd
  | 1 => Some io_driver_stream
  | _ => None
  end.

Definition int_of_io_driver (d : io_driver_t) : Z :=
  match d with io_driver_fd => 0 | io_driver_stream => 1 end.

Definition string_to_algorithm (s : string) : option algorithm_t :=
  algorithm_of_int (string_to_index algorithm_names 0 s).

Definition string_to_io_driver (s : string) : option io_driver_t :=
  io_driver_of_int (string_to_index io_driver_names 0 s).

(** [algorithm_names[use_algorithm]], [io_driver_names[use_io_driver]] *)
Definition algorithm_name (a : algorithm_t) : string :=
  default EmptyString (algorithm_names !! Z.to_nat (int_of_algorithm a)).
Definition io_driver_name (d : io_driver_t) : string :=
  default EmptyString (io_driver_names !! Z.to_nat (int_of_io_driver d)).

(** ** The option loop of [main] *)

(** What one call of [getopt_long] delivered: the option character it
    returned, and [optarg]. *)
Record getopt_t : Type := Getopt { opt_char : ascii; optarg : option string }.

(** One constructor per way the option loop ends the process. *)
Inductive cli_diag : Type :=
| usage_shown              (* [usage(argv[0]); exit(0);] *)
| err_algorithm_name       (* invalid algorithm name *)
| err_io_driver_name       (* invalid i/o driver name *)
| err_input_file_name      (* invalid input file name *)
| err_output_file_name     (* invalid output file name *)
| err_dimension_arg.       (* invalid dimension n%c *)

(** The option loop either leaves the locals of [main] set, or has called
    [exit(status)]. *)
Inductive cli_outcome : Type :=
| Parsed (o : options)
| Stopped (d : cli_diag) (status : Z).

(** The locals of [main] as they are initialised. *)
Definition initial_options : options :=
  Options None None io_driver_fd false algorithm_jki_map false (Dims 0 0 0).

(** [optarg && *optarg] *)
Definition nonempty (optarg : option string) : option string :=
  match optarg with
  | Some (String c r) => if char_code c =? 0 then None else Some (String c r)
  | _ => None
  end.

(** [n[index] = v;] *)
Definition set_dimension (n : dims) (index : Z) (v : Z) : dims :=
  match index with
  | 0 => Dims v (n1 n) (n2 n)
  | 1 => Dims (n0 n) v (n2 n)
  | _ => Dims (n0 n) (n1 n) v
  end.

Section OptionLoop.

(** [strtoul(optarg, &eos, 0)]: the value, and [eos - optarg]. *)
Variable strtoul : string → Z * Z.

(** The [switch ( opt_char )]. *)
Definition process_option (g : getopt_t) (o : options) : cli_outcome :=
  match opt_char g with
  | "h"%char => Stopped usage_shown 0
  | "a"%char =>
      match nonempty (optarg g) with
      | Some s =>
          match string_to_algorithm s with
          | None => Stopped err_algorithm_name EINVAL
          | Some a =>
              Parsed (Options (input_file o) (output_file o) (use_io_driver o)
                        (should_use_exact_dims o) a (should_init_input o) (opt_n o))
          end
      | None => Stopped err_algorithm_name EINVAL
      end
  | "d"%char =>
      match nonempty (optarg g) with
      | Some s =>
          match string_to_io_driver s with
          | None => Stopped err_io_driver_name EINVAL
          | Some d =>
              Parsed (Options (input_file o) (output_file o) d
                        (should_use_exact_dims o) (use_algorithm o)
                        (should_init_input o) (opt_n o))
          end
      | None => Stopped err_io_driver_name EINVAL
      end
  | "I"%char =>
      Parsed (Options (input_file o) (output_file o) (use_io_driver o)
                (should_use_exact_dims o) (use_algorithm o) true (opt_n o))
  | "x"%char =>
      Parsed (Options (input_file o) (output_file o) (use_io_driver o)
                true (use_algorithm o) (should_init_input o) (opt_n o))
  | "i"%char =>
      match nonempty (optarg g) with
      | Some s =>
          Parsed (Options (Some s) (output_file o) (use_io_driver o)
                    (should_use_exact_dims o) (use_algorithm o)
                    (should_init_input o) (opt_n o))
      | None => Stopped err_input_file_name EINVAL
      end
  | "o"%char =>
      match nonempty (optarg g) with
      | Some s =>
          Parsed (Options (input_file o) (Some s) (use_io_driver o)
                    (should_use_exact_dims o) (use_algorithm o)
                    (should_init_input o) (opt_n o))
      | None => Stopped err_output_file_name EINVAL
      end
  | "1"%char | "2"%char | "3"%char =>
      match nonempty (optarg g) with
      | Some s =>
          let (v, consumed) := strtoul s in
          if negb (v =? 0) && (0 <? consumed) then
            Parsed (Options (input_file o) (output_file o) (use_io_driver o)
                      (should_use_exact_dims o) (use_algorithm o)
                      (should_init_input o)
                      (set_dimension (opt_n o)
                         (char_code (opt_char g) - char_code "1") v))
          else Stopped err_dimension_arg EINVAL
      | None => Stopped err_dimension_arg EINVAL
      end
  | _ => Parsed o
  end.

(** [while ( (opt_char = getopt_long(...)) != -1 ) switch ( opt_char ) ...],
    for the results [getopt_long] delivers before it returns [-1]. *)
Fixpoint option_loop (results : list getopt_t) (o : options) : cli_outcome :=
  match results with
  | [] => Parsed o
  | g :: rest =>
      match process_option g o with
      | Parsed o' => option_loop rest o'
      | Stopped d status => Stopped d status
      end
  end.

End OptionLoop.

(** ** [main], after the option loop *)

Section Main.

Context {W : Type}.
(** [io_driver_callbacks[]] *)
Variable io_driver_callbacks : io_driver_t → file_handle_callbacks W.
Variable rt : libc W.

(** [if ( st_size < l ) exit(EINVAL);
    if ( (st_size > l) && should_use_exact_dims ) exit(EINVAL);]
    [st_size] is an [off_t] and [l] a [size_t]: they are compared as
    unsigned values. *)
Definition check_size (st_size l : Z) (exact : bool) (small large : diag)
    : M W unit :=
  if ulong st_size <? l then exit small EINVAL
  else if (l <? ulong st_size) && exact then exit large EINVAL
  else ret tt.

(** [if ( should_init_input ) { ... }] up to and including the [close]. *)
Definition initialise (io_driver : file_handle_callbacks W)
    (a : algorithm_t) (n : dims) (input_file : string) : M W unit :=
  let* ok := open io_driver in_fh input_file false true true in
  let* _ :=
    if ok then ret tt
    else λ w,
      if errno rt w =? EEXIST then
        (let* ok := open io_driver in_fh input_file false false true in
         if ok then ret tt else exit_errno rt err_truncate_input) w
      else exit_errno rt err_create_input w in
  let* _ := init_input io_driver rt a n in
  close io_driver in_fh.

(** Opening and checking the input file. *)
Definition open_input (io_driver : file_handle_callbacks W)
    (n : dims) (exact : bool) (input_file : string) : M W Z :=
  let* ok := open io_driver in_fh input_file true false false in
  if negb ok then exit_errno rt err_open_input else
  let* finfo := stat io_driver in_fh in
  match finfo with
  | None => exit_errno rt err_stat_input
  | Some st_size =>
    let l := umul (umul (umul SIZEOF_DOUBLE (n0 n)) (n1 n)) (n2 n) in
    let* _ := check_size st_size l exact err_input_too_small err_input_too_large in
    ret l
  end.

(** "Try to create the output file"; when that fails with [EEXIST],
    open it without asking to create it and check its size. *)
Definition open_output (io_driver : file_handle_callbacks W)
    (n : dims) (exact : bool) (l : Z) (output_file : string) : M W unit :=
  let* ok := open io_driver out_fh output_file false true false in
  if ok then ret tt
  else λ w,
    if errno rt w =? EEXIST then
      (let* ok := open io_driver out_fh output_file false false false in
       if negb ok then exit_errno rt err_open_output else
       let* finfo := stat io_driver out_fh in
       match finfo with
       | None => exit_errno rt err_stat_output
       | Some st_size =>
         check_size st_size l exact err_output_too_small err_output_too_large
       end) w
    else exit_errno rt err_create_output w.

Definition main (o : options) : M W unit :=
  let n := opt_n o in
  let io_driver := io_driver_callbacks (use_io_driver o) in
  (* Validate all dimensions provided *)
  if (n0 n =? 0) || (n1 n =? 0) || (n2 n =? 0) then exit err_dimension EINVAL else
  (* Validate input file name provided *)
  match input_file o with
  | None => exit err_no_input_name EINVAL
  | Some input_file =>
    (* Initialize the input file? *)
    let* _ :=
      if should_init_input o then
        let* _ := initialise io_driver (use_algorithm o) n input_file in
        match output_file o with
        | None => exit init_only 0
        | Some _ => ret tt
        end
      else ret tt in
    (* Validate output file name provided *)
    match output_file o with
    | None => exit err_no_output_name EINVAL
    | Some output_file =>
      let* l := open_input io_driver n (should_use_exact_dims o) input_file in
      let* _ := open_output io_driver n (should_use_exact_dims o) l output_file in
      let* _ := convert io_driver rt (use_algorithm o) n in
      let* _ := close io_driver out_fh in
      close io_driver in_fh
    end
  end.

End Main.

(** ** Regular files and the two drivers *)

Module Posix.

(** What a descriptor or a [FILE] refers to. *)
Record open_file : Type := OpenFile {
  of_path : string;
  of_pos : Z;
  of_writable : bool }.

(** The files by path, [errno], and the two handles of [main]
    ([None]: not open).  A path is taken for the file: two paths are two
    files, so that links and the several spellings of one path are left
    out. *)
Record world : Type := World {
  fs : gmap string (list byte);
  last_errno : Z;
  in_handle : option open_file;
  out_handle : option open_file }.

Definition get_fh (fh : fh_ptr) (w : world) : option open_file :=
  match fh with in_fh => in_handle w | out_fh => out_handle w end.

Definition set_fh (fh : fh_ptr) (h : option open_file) (w : world) : world :=
  match fh with
  | in_fh => World (fs w) (last_errno w) h (out_handle w)
  | out_fh => World (fs w) (last_errno w) (in_handle w) h
  end.

Definition set_errno (e : Z) (w : world) : world :=
  World (fs w) e (in_handle w) (out_handle w).

Definition set_file (path : string) (content : list byte) (w : world) : world :=
  World (<[path := content]> (fs w)) (last_errno w) (in_handle w) (out_handle w).

Definition content_of (path : string) (w : world) : list byte :=
  default [] (fs w !! path).

(** The bytes a read of [len] at [pos] finds. *)
Definition file_read (content : list byte) (pos len : Z) : list byte :=
  take (Z.to_nat len) (drop (Z.to_nat pos) content).

(** The file after [data] was written at [pos]; a gap past the old end
    reads as zero bytes. *)
Definition file_write (content : list byte) (pos : Z) (data : list byte)
    : list byte :=
  take (Z.to_nat pos) content
    ++ replicate (Z.to_nat pos - length content)%nat x00
    ++ data
    ++ drop (Z.to_nat pos + length data)%nat content.

(** The caller's buffer after [data] was copied to its start. *)
Definition deliver (data buffer : list byte) : list byte :=
  data ++ drop (length data) buffer.

Definition advance (fh : fh_ptr) (f : open_file) (by_ : Z) (w : world) : world :=
  set_fh fh (Some (OpenFile (of_path f) (of_pos f + by_) (of_writable f))) w.

(** *** Descriptor driver *)

(** The most that one [read] or [write] moves, whatever the count it is
    given (Linux: [MAX_RW_COUNT], [0x7ffff000]). *)
Definition MAX_RW_COUNT : Z := 2147479552.
Arguments MAX_RW_COUNT : simpl never.

(** [open(path, oflag, 0666)] with [O_CREAT] and [O_TRUNC] as asked;
    [O_EXCL] is never set. *)
Definition file_handle_open_fd (fh : fh_ptr) (path : string)
    (read_only should_create should_trunc : bool) (w : world) : bool * world :=
  let h := Some (OpenFile path 0 (negb read_only)) in
  match fs w !! path with
  | Some content =>
      (true, set_fh fh h (if should_trunc then set_file path [] w else w))
  | None =>
      if should_create then (true, set_fh fh h (set_file path [] w))
      else (false, set_fh fh None (set_errno ENOENT w))
  end.

Definition file_handle_stat_fd (fh : fh_ptr) (w : world) : option Z * world :=
  match get_fh fh w with
  | Some f => (Some (Z.of_nat (length (content_of (of_path f) w))), w)
  | None => (None, set_errno EBADF w)
  end.

Definition file_handle_seek_fd (fh : fh_ptr) (offset : Z) (w : world) : Z * world :=
  match get_fh fh w with
  | Some f =>
      if offset <? 0 then (-1, set_errno EINVAL w)
      else (offset, set_fh fh (Some (OpenFile (of_path f) offset (of_writable f))) w)
  | None => (-1, set_errno EBADF w)
  end.

(** [read]: as many bytes as the file has from the position on, at
    most [buffer_len] and at most [MAX_RW_COUNT]; none at end of file. *)
Definition file_handle_read_fd (fh : fh_ptr) (buffer : list byte) (buffer_len : Z)
    (w : world) : (Z * list byte) * world :=
  match get_fh fh w with
  | Some f =>
      let count := Z.min buffer_len MAX_RW_COUNT in
      let data := file_read (content_of (of_path f) w) (of_pos f) count in
      let n_bytes := Z.of_nat (length data) in
      ((n_bytes, deliver data buffer), advance fh f n_bytes w)
  | None => ((-1, buffer), set_errno EBADF w)
  end.

(** Writing [data] at the position of [f]: what both drivers end in, once
    they have something to write. *)
Definition do_write (fh : fh_ptr) (f : open_file) (data : list byte) (w : world)
    : Z * world :=
  let n_bytes := Z.of_nat (length data) in
  if negb (of_writable f) then (-1, set_errno EBADF w)
  else if OFF_MAX <? of_pos f + n_bytes then (-1, set_errno EFBIG w)
  else (n_bytes,
        advance fh f n_bytes
          (set_file (of_path f)
             (file_write (content_of (of_path f) w) (of_pos f) data) w)).

(** [write]: the first [buffer_len] bytes of the buffer, at most
    [MAX_RW_COUNT] of them. *)
Definition file_handle_write_fd (fh : fh_ptr) (buffer : list byte) (buffer_len : Z)
    (w : world) : Z * world :=
  match get_fh fh w with
  | Some f =>
      let count := Z.min buffer_len MAX_RW_COUNT in
      let data := take (Z.to_nat count) buffer in
      if decide (data = []) then (0, w) else do_write fh f data w
  | None => (-1, set_errno EBADF w)
  end.

Definition file_handle_close_fd (fh : fh_ptr) (w : world) : world :=
  set_fh fh None w.

Definition file_handle_callbacks_fd : file_handle_callbacks world :=
  Callbacks world
    file_handle_open_fd file_handle_stat_fd file_handle_seek_fd
    file_handle_read_fd file_handle_write_fd file_handle_close_fd.

(** *** Stream driver *)

(** With [should_create], an existing path is refused with [EEXIST], and
    on a free path the failed [stat] leaves [ENOENT] in [errno]; the file
    is then opened ["rb"] when read-only and ["wb+"] when not, and ["wb+"]
    creates the file or empties it.  The buffer of a stream is left out:
    what is written is in the file at once. *)
Definition file_handle_open_stream (fh : fh_ptr) (path : string)
    (read_only should_create should_trunc : bool) (w : world) : bool * world :=
  if should_create && bool_decide (is_Some (fs w !! path))
  then (false, set_errno EEXIST w)
  else
    let w := if should_create then set_errno ENOENT w else w in
    let read_only := if should_create then false else read_only in
    if read_only then
      match fs w !! path with
      | Some _ => (true, set_fh fh (Some (OpenFile path 0 false)) w)
      | None => (false, set_fh fh None (set_errno ENOENT w))
      end
    else (true, set_fh fh (Some (OpenFile path 0 true)) (set_file path [] w)).

Definition file_handle_stat_stream (fh : fh_ptr) (w : world) : option Z * world :=
  file_handle_stat_fd fh w.

(** [fseeko] then [ftello]. *)
Definition file_handle_seek_stream (fh : fh_ptr) (offset : Z) (w : world)
    : Z * world :=
  file_handle_seek_fd fh offset w.

(** [fread(buffer, buffer_len, 1, stream)]: one item or none, [fread]
    reading on until it has the item or the file ends; a short item
    leaves the stream at end of file. *)
Definition file_handle_read_stream (fh : fh_ptr) (buffer : list byte)
    (buffer_len : Z) (w : world) : (Z * list byte) * world :=
  match get_fh fh w with
  | Some f =>
      let data := file_read (content_of (of_path f) w) (of_pos f) buffer_len in
      let n := Z.of_nat (length data) in
      if buffer_len <=? 0 then ((-1, buffer), w)
      else if n =? buffer_len then ((buffer_len, deliver data buffer), advance fh f n w)
      else ((0, deliver data buffer), advance fh f n w)
  | None => ((-1, buffer), set_errno EBADF w)
  end.

(** [fwrite(buffer, buffer_len, 1, stream)], [fwrite] writing on until
    the item is out; the end-of-file indicator is not set on a stream
    that is only written. *)
Definition file_handle_write_stream (fh : fh_ptr) (buffer : list byte)
    (buffer_len : Z) (w : world) : Z * world :=
  match get_fh fh w with
  | Some f =>
      let data := take (Z.to_nat buffer_len) buffer in
      if decide (data = []) then (-1, w)
      else let (r, w') := do_write fh f data w in
           if r =? buffer_len then (buffer_len, w') else (-1, w')
  | None => (-1, set_errno EBADF w)
  end.

Definition file_handle_close_stream (fh : fh_ptr) (w : world) : world :=
  set_fh fh None w.

Definition file_handle_callbacks_stream : file_handle_callbacks world :=
  Callbacks world
    file_handle_open_stream file_handle_stat_stream file_handle_seek_stream
    file_handle_read_stream file_handle_write_stream file_handle_close_stream.

Definition io_driver_callbacks (d : io_driver_t) : file_handle_callbacks world :=
  match d with
  | io_driver_fd => file_handle_callbacks_fd
  | io_driver_stream => file_handle_callbacks_stream
  end.

(** The same driver on a device without room left: every [write] fails
    with [ENOSPC]. *)
Definition ENOSPC : Z := 28.

Definition no_space_left (d : file_handle_callbacks world)
    : file_handle_callbacks world :=
  Callbacks world (io_open d) (io_stat d) (io_seek d) (io_read d)
    (λ _ _ _ w, (-1, set_errno ENOSPC w)) (io_close d).

(** [malloc] does not fail in this model. *)
Definition posix_libc (cast : Z → double) (junk : byte) : libc world :=
  Libc world last_errno (λ _ _, true) cast junk.

End Posix.

(** ** The conversion to [double] on an IEEE-754, little-endian machine *)

Module IEEE.

(** The binary64 pattern of the integer [z ≥ 0], rounded to nearest, ties
    to even. *)
Definition bits_of_ulong (z : Z) : Z :=
  if z <=? 0 then 0 else
  let e := Z.log2 z in
  if e <=? 52 then (e + 1023) * 2 ^ 52 + (z * 2 ^ (52 - e) - 2 ^ 52)
  else
    let sh := e - 52 in
    let q := z / 2 ^ sh in
    let r := z mod 2 ^ sh in
    let half := 2 ^ (sh - 1) in
    let m := if (half <? r) || ((r =? half) && Z.odd q) then q + 1 else q in
    (e + 1023) * 2 ^ 52 + (m - 2 ^ 52).

Definition byte_of_Z (z : Z) : byte :=
  default x00 (Byte.of_N (Z.to_N (z mod 256))).

Definition double_of_ulong (z : Z) : double :=
  let b := bits_of_ulong z in
  Double (byte_of_Z b) (byte_of_Z (b / 2 ^ 8)) (byte_of_Z (b / 2 ^ 16))
         (byte_of_Z (b / 2 ^ 24)) (byte_of_Z (b / 2 ^ 32)) (byte_of_Z (b / 2 ^ 40))
         (byte_of_Z (b / 2 ^ 48)) (byte_of_Z (b / 2 ^ 56)).

End IEEE.

(** ** Recording the calls made through a driver *)

Module Logging.

(** A call with its arguments and what it returned. *)
Inductive call : Type :=
| call_open (fh : fh_ptr) (path : string)
            (read_only should_create should_trunc : bool) (r : bool)
| call_stat (fh : fh_ptr) (r : option Z)
| call_seek (fh : fh_ptr) (offset : Z) (r : Z)
| call_read (fh : fh_ptr) (buffer_len : Z) (r : Z)
| call_write (fh : fh_ptr) (buffer_len : Z) (r : Z)
| call_close (fh : fh_ptr).

(** The world together with the calls made so far, latest first. *)
Definition logged (W : Type) : Type := W * list call.

Definition callbacks {W} (d : file_handle_callbacks W)
    : file_handle_callbacks (logged W) :=
  Callbacks (logged W)
    (λ fh path ro cr tr '(w, log),
       let (r, w') := io_open d fh path ro cr tr w in
       (r, (w', call_open fh path ro cr tr r :: log)))
    (λ fh '(w, log),
       let (r, w') := io_stat d fh w in (r, (w', call_stat fh r :: log)))
    (λ fh offset '(w, log),
       let (r, w') := io_seek d fh offset w in
       (r, (w', call_seek fh offset r :: log)))
    (λ fh buffer len '(w, log),
       let (r, w') := io_read d fh buffer len w in
       (r, (w', call_read fh len r.1 :: log)))
    (λ fh buffer len '(w, log),
       let (r, w') := io_write d fh buffer len w in
       (r, (w', call_write fh len r :: log)))
    (λ fh '(w, log), (io_close d fh w, call_close fh :: log)).

Definition runtime {W} (rt : libc W) : libc (logged W) :=
  Libc (logged W) (λ s, errno rt s.1) (λ size s, malloc rt size s.1)
       (double_of_ulong rt) (stale rt).

(** The final state of a run, however it ended. *)
Definition final {W A} (r : outcome W A) : W :=
  match r with Ret _ w => w | Exit _ _ w => w end.

End Logging.


(** * Notions used in the statements *)

(** ** Postconditions of computations *)

(** [post P Q r]: the run [r] either returned in a state satisfying [P]
    or exited in a way satisfying [Q]. *)
Definition post {W A} (P : A → W → Prop) (Q : diag → Z → W → Prop)
    (r : outcome W A) : Prop :=
  match r with
  | Ret a w => P a w
  | Exit d s w => Q d s w
  end.

(** No exit at all. *)
Definition never {W} : diag → Z → W → Prop := λ _ _ _, False.

(** ** Bytes at integer positions *)

Definition blen (l : list byte) : Z := Z.of_nat (length l).

Definition byte_at (l : list byte) (q : Z) : option byte :=
  if q <? 0 then None else l !! Z.to_nat q.

(** ** The state of a conversion on regular files *)

(** Both files are open: the input [ip] holds [inp] and is at [ipos], the
    output [op] holds [out] and is at [opos]. *)
Definition files_open (ip op : string) (inp : list byte) (ipos : Z)
    (out : list byte) (opos : Z) (w : Posix.world) : Prop :=
  Posix.fs w !! ip = Some inp ∧ Posix.fs w !! op = Some out ∧
  (∃ wr, Posix.in_handle w = Some (Posix.OpenFile ip ipos wr)) ∧
  Posix.out_handle w = Some (Posix.OpenFile op opos true).

(** [copied n inp out0 D out]: the output file [out] has kept what [out0]
    had past the data region, and holds the element of [inp] that belongs
    there for every coordinate in [D]. *)
Definition copied (n : dims) (inp out0 : list byte) (D : Z → Z → Z → Prop)
    (out : list byte) : Prop :=
  blen out0 ≤ blen out ≤ Z.max (blen out0) (8 * volume n) ∧
  (∀ q, 8 * volume n ≤ q → byte_at out q = byte_at out0 q) ∧
  (∀ i j k t, in_cube n i j k → D i j k → 0 ≤ t < 8 →
     byte_at out (8 * offset_jik n i j k + t) =
     byte_at inp (8 * offset_jki n i j k + t)).

(** The world while the cube is being converted. *)
Definition converting (ip op : string) (n : dims) (inp out0 : list byte)
    (D : Z → Z → Z → Prop) (w : Posix.world) : Prop :=
  ∃ ipos opos out, files_open ip op inp ipos out opos w ∧ copied n inp out0 D out.

(** ** The size of a transfer *)

(** The most bytes that algorithm [a] asks one [read] or [write] for: one
    element in the element-wise algorithms, and the whole buffer ([v_len]
    bytes, the products taken as integers) in the buffered ones. *)
Definition transfer_size (a : algorithm_t) (n : dims) : Z :=
  match a with
  | algorithm_vector_input => 8 * n0 n
  | algorithm_vector_output => 8 * n2 n
  | algorithm_matrix => 8 * (n0 n * n2 n)
  | _ => 8
  end.

(** One call of the driver moves any transfer of algorithm [a]: the
    stream driver moves what it is asked for, the descriptor driver up
    to [MAX_RW_COUNT] bytes. *)
Definition whole_transfers (drv : io_driver_t) (a : algorithm_t) (n : dims)
    : Prop :=
  drv = io_driver_fd → transfer_size a n ≤ Posix.MAX_RW_COUNT.

(** ** What the initialisation leaves in the input file *)

(** [0, 1, ..., n-1] *)
Definition range (n : Z) : list Z := map Z.of_nat (seq 0 (Z.to_nat n)).

(** The bytes [f a b c], one after the other, for [a], [b], [c] running
    as in three nested loops with bounds [A], [B], [C]. *)
Definition traversal (A B C : Z) (f : Z → Z → Z → list byte) : list byte :=
  flat_map (λ a, flat_map (λ b, flat_map (λ c, f a b c) (range C)) (range B))
           (range A).

(** The element that [double v = offset;] stores. *)
Definition element (cast : Z → double) (offset : Z) : list byte :=
  double_bytes (cast offset).

(** The input file after it was initialised with algorithm [a]: for each
    step of the traversal, the value stored at its coordinate. *)
Definition init_content (cast : Z → double) (a : algorithm_t) (n : dims)
    : list byte :=
  match a with
  | algorithm_ijk_map =>
      traversal (n0 n) (n1 n) (n2 n) (λ i j k, element cast (offset_ijk n i j k))
  | algorithm_jki_map =>
      traversal (n1 n) (n2 n) (n0 n) (λ j k i, element cast (offset_jki n i j k))
  | algorithm_jik_map =>
      traversal (n0 n) (n1 n) (n2 n) (λ i j k, element cast (offset_jik n i j k))
  | algorithm_vector_input =>
      traversal (n1 n) (n2 n) (n0 n) (λ j k i, element cast (offset_jki n i j k))
  | algorithm_vector_output =>
      traversal (n1 n) (n0 n) (n2 n) (λ j i k, element cast (offset_jki n i j k))
  | algorithm_matrix =>
      traversal (n1 n) (n2 n) (n0 n) (λ j k i, element cast (offset_jki n i j k))
  end.

(** The same traversals with the values the specification names:
    [offset_ijk] for [ijk_map], [offset_jki] for every other variant. *)
Definition init_content_spec (cast : Z → double) (a : algorithm_t) (n : dims)
    : list byte :=
  match a with
  | algorithm_ijk_map =>
      traversal (n0 n) (n1 n) (n2 n) (λ i j k, element cast (offset_ijk n i j k))
  | algorithm_jki_map =>
      traversal (n1 n) (n2 n) (n0 n) (λ j k i, element cast (offset_jki n i j k))
  | algorithm_jik_map =>
      traversal (n0 n) (n1 n) (n2 n) (λ i j k, element cast (offset_jki n i j k))
  | algorithm_vector_input =>
      traversal (n1 n) (n2 n) (n0 n) (λ j k i, element cast (offset_jki n i j k))
  | algorithm_vector_output =>
      traversal (n1 n) (n0 n) (n2 n) (λ j i k, element cast (offset_jki n i j k))
  | algorithm_matrix =>
      traversal (n1 n) (n2 n) (n0 n) (λ j k i, element cast (offset_jki n i j k))
  end.

(** The input file [ip] is open for writing, holds [c], and is at its
    end; the other files are those of [fs0]. *)
Definition appending (ip : string) (fs0 : gmap string (list byte))
    (c : list byte) (w : Posix.world) : Prop :=
  Posix.fs w = <[ip := c]> fs0 ∧
  Posix.in_handle w = Some (Posix.OpenFile ip (blen c) true).

(** ** What the conversion leaves in the output file *)

(** The elements of [inp] in JIK order, followed by what the output file
    [out0] had past the data region. *)
Definition converted (n : dims) (inp out0 : list byte) : list byte :=
  traversal (n1 n) (n0 n) (n2 n) (λ j i k, load_double inp (offset_jki n i j k))
    ++ drop (Z.to_nat (8 * volume n)) out0.

(** ** Properties of the calls a run makes *)

(** The data region can be addressed: no offset into it wraps around. *)
Definition addressable (n : dims) : Prop :=
  dims_positive n ∧ 8 * volume n ≤ OFF_MAX.

(** A call that [main] takes for a success. *)
Definition succeeded (c : Logging.call) : Prop :=
  match c with
  | Logging.call_seek _ _ r => 0 ≤ r
  | Logging.call_read _ _ r => 0 < r
  | Logging.call_write _ _ r => 0 < r
  | _ => True
  end.

(** The call [c], the last one made, is the reason why the process
    exited with diagnostic [d] and status [s]; [e] is [errno] at exit. *)
Definition fatal (e : Z) (c : Logging.call) (d : diag) (s : Z) : Prop :=
  match c with
  | Logging.call_seek in_fh _ r => r < 0 ∧ d = err_seek_input ∧ s = e
  | Logging.call_seek out_fh _ r => r < 0 ∧ d = err_seek_output ∧ s = e
  | Logging.call_read in_fh _ r =>
      (r = 0 ∧ d = err_unexpected_eof ∧ s = EINVAL) ∨
      (r < 0 ∧ d = err_read_input ∧ s = e)
  | Logging.call_write out_fh _ r => r ≤ 0 ∧ d = err_write_output ∧ s = e
  | Logging.call_write in_fh _ r => r ≤ 0 ∧ d = err_init_write ∧ s = e
  | _ => False
  end.

(** The offset of the latest seek on the output file, unless the file
    was written since. *)
Fixpoint pending_out_seek (log : list Logging.call) : option Z :=
  match log with
  | [] => None
  | Logging.call_seek out_fh fp _ :: _ => Some fp
  | Logging.call_write out_fh _ _ :: _ => None
  | _ :: rest => pending_out_seek rest
  end.

(** After the calls [earlier], the call [c] stays inside the data region
    of the output file: a seek goes to the start of one of its elements,
    a write follows a seek and ends inside the region. *)
Definition out_call_ok (n : dims) (c : Logging.call) (earlier : list Logging.call)
    : Prop :=
  match c with
  | Logging.call_seek out_fh fp _ => ∃ o, 0 ≤ o < volume n ∧ fp = 8 * o
  | Logging.call_write out_fh len _ =>
      ∃ fp, pending_out_seek earlier = Some fp ∧ fp + len ≤ 8 * volume n
  | _ => True
  end.

Fixpoint out_calls_ok (n : dims) (log : list Logging.call) : Prop :=
  match log with
  | [] => True
  | c :: earlier => out_call_ok n c earlier ∧ out_calls_ok n earlier
  end.

(** What holds of the calls made so far while a conversion runs. *)
Definition trace_inv (n : dims) (log : list Logging.call) : Prop :=
  Forall succeeded log ∧ (addressable n → out_calls_ok n log).

(** What holds when a conversion has exited: the calls were as they
    should, and either the allocation failed or the last call did. *)
Definition trace_exit {W} (rt : libc W) (n : dims)
    (d : diag) (s : Z) (st : Logging.logged W) : Prop :=
  (addressable n → out_calls_ok n st.2) ∧
  ((d = err_alloc ∧ s = ENOMEM ∧ Forall succeeded st.2) ∨
   ∃ c rest, st.2 = c :: rest ∧ Forall succeeded rest ∧
             fatal (errno rt st.1) c d s).

(** ** Strings, options, and more about files and calls *)

(** The C string held in [s]: the characters before the first NUL. *)
Fixpoint c_str (s : string) : string :=
  match s with
  | EmptyString => EmptyString
  | String c r => if char_code c =? 0 then EmptyString else String c (c_str r)
  end.

Fixpoint lower (s : string) : string :=
  match s with
  | EmptyString => EmptyString
  | String c r => String (tolower c) (lower r)
  end.

(** The option [c] is among the results. *)
Definition has_option (c : ascii) (results : list getopt_t) : Prop :=
  ∃ g, g ∈ results ∧ opt_char g = c.

(** An [unsigned long] each. *)
Definition dims_in_range (n : dims) : Prop :=
  0 ≤ n0 n < ULONG_MOD ∧ 0 ≤ n1 n < ULONG_MOD ∧ 0 ≤ n2 n < ULONG_MOD.

(** The cases of the [switch], by name. *)
Inductive option_kind : Type :=
| opt_help | opt_algorithm | opt_io_driver | opt_init_input | opt_exact_dims
| opt_input | opt_output | opt_dimension (index : Z) | opt_none.

Definition option_kind_of (c : ascii) : option_kind :=
  match c with
  | "h"%char => opt_help
  | "a"%char => opt_algorithm
  | "d"%char => opt_io_driver
  | "I"%char => opt_init_input
  | "x"%char => opt_exact_dims
  | "i"%char => opt_input
  | "o"%char => opt_output
  | "1"%char => opt_dimension 0
  | "2"%char => opt_dimension 1
  | "3"%char => opt_dimension 2
  | _ => opt_none
  end.

(** [process_option], case by case. *)
Definition process_kind (strtoul : string → Z * Z) (k : option_kind)
    (arg : option string) (o : options) : cli_outcome :=
  match k with
  | opt_help => Stopped usage_shown 0
  | opt_algorithm =>
      match nonempty arg with
      | Some s =>
          match string_to_algorithm s with
          | None => Stopped err_algorithm_name EINVAL
          | Some a =>
              Parsed (Options (input_file o) (output_file o) (use_io_driver o)
                        (should_use_exact_dims o) a (should_init_input o) (opt_n o))
          end
      | None => Stopped err_algorithm_name EINVAL
      end
  | opt_io_driver =>
      match nonempty arg with
      | Some s =>
          match string_to_io_driver s with
          | None => Stopped err_io_driver_name EINVAL
          | Some d =>
              Parsed (Options (input_file o) (output_file o) d
                        (should_use_exact_dims o) (use_algorithm o)
                        (should_init_input o) (opt_n o))
          end
      | None => Stopped err_io_driver_name EINVAL
      end
  | opt_init_input =>
      Parsed (Options (input_file o) (output_file o) (use_io_driver o)
                (should_use_exact_dims o) (use_algorithm o) true (opt_n o))
  | opt_exact_dims =>
      Parsed (Options (input_file o) (output_file o) (use_io_driver o)
                true (use_algorithm o) (should_init_input o) (opt_n o))
  | opt_input =>
      match nonempty arg with
      | Some s =>
          Parsed (Options (Some s) (output_file o) (use_io_driver o)
                    (should_use_exact_dims o) (use_algorithm o)
                    (should_init_input o) (opt_n o))
      | None => Stopped err_input_file_name EINVAL
      end
  | opt_output =>
      match nonempty arg with
      | Some s =>
          Parsed (Options (input_file o) (Some s) (use_io_driver o)
                    (should_use_exact_dims o) (use_algorithm o)
                    (should_init_input o) (opt_n o))
      | None => Stopped err_output_file_name EINVAL
      end
  | opt_dimension index =>
      match nonempty arg with
      | Some s =>
          let (v, consumed) := strtoul s in
          if negb (v =? 0) && (0 <? consumed) then
            Parsed (Options (input_file o) (output_file o) (use_io_driver o)
                      (should_use_exact_dims o) (use_algorithm o)
                      (should_init_input o) (set_dimension (opt_n o) index v))
          else Stopped err_dimension_arg EINVAL
      | None => Stopped err_dimension_arg EINVAL
      end
  | opt_none => Parsed o
  end.

(** An option character of the [switch]? *)
Definition recognised (g : getopt_t) : bool :=
  match option_kind_of (opt_char g) with opt_none => false | _ => true end.

(** The file that holds the value [p] at every element position [p]. *)
Definition counting (cast : Z → double) (count : Z) : list byte :=
  flat_map (element cast) (range count).

(** [n[2], n[1], n[0]] *)
Definition reversed (n : dims) : dims := Dims (n2 n) (n1 n) (n0 n).

(** The calls a conversion is made of. *)
Definition conversion_call (c : Logging.call) : Prop :=
  match c with
  | Logging.call_seek _ _ _ => True
  | Logging.call_read in_fh _ _ => True
  | Logging.call_write out_fh _ _ => True
  | _ => False
  end.

(** The calls an initialisation is made of. *)
Definition initialisation_call (c : Logging.call) : Prop :=
  match c with
  | Logging.call_write in_fh _ _ => True
  | _ => False
  end.

(** A call that [main] may make, given its options: it opens a handle
    under the name it was given for it, the input file for writing only
    when it is to initialise it, and the output file without asking to
    empty it; it writes to the input file only to initialise it, and does
    not read the output file. *)
Definition main_call (o : options) (c : Logging.call) : Prop :=
  match c with
  | Logging.call_open in_fh path read_only _ _ _ =>
      input_file o = Some path ∧
      (read_only = false → should_init_input o = true)
  | Logging.call_open out_fh path _ _ should_trunc _ =>
      output_file o = Some path ∧ should_trunc = false
  | Logging.call_write in_fh _ _ => should_init_input o = true
  | Logging.call_read out_fh _ _ => False
  | _ => True
  end.

(** A [write] to the input file that asks for [len] bytes. *)
Definition write_of (len : Z) (c : Logging.call) : Prop :=
  ∃ r, c = Logging.call_write in_fh len r.

(** However the process exits, [I] holds. *)
Definition at_exit {W} (I : W → Prop) : diag → Z → W → Prop := λ _ _ w, I w.

(** The file [p] holds [c] ([None]: there is no such file), and the handle
    [fh], if open, is on another file. *)
Definition untouched (p : string) (c : option (list byte)) (fh : fh_ptr)
    (w : Posix.world) : Prop :=
  Posix.fs w !! p = c ∧
  ∀ f, Posix.get_fh fh w = Some f → Posix.of_path f ≠ p.

(** ** Counting calls *)

Definition is_seek (c : Logging.call) : bool :=
  match c with Logging.call_seek _ _ _ => true | _ => false end.
Definition is_read (c : Logging.call) : bool :=
  match c with Logging.call_read _ _ _ => true | _ => false end.
Definition is_write (c : Logging.call) : bool :=
  match c with Logging.call_write _ _ _ => true | _ => false end.

Definition count_calls (P : Logging.call → bool) (log : list Logging.call) : Z :=
  Z.of_nat (length (filter P log)).

(** The calls of [read] and of [write] of a conversion that succeeds. *)
Definition conversion_reads (a : algorithm_t) (n : dims) : Z :=
  match a with
  | algorithm_vector_input => n1 n * n2 n
  | algorithm_matrix => n1 n
  | _ => volume n
  end.

Definition conversion_writes (a : algorithm_t) (n : dims) : Z :=
  match a with
  | algorithm_vector_output => n1 n * n0 n
  | algorithm_matrix => n1 n
  | _ => volume n
  end.

(** The calls of [write] of an initialisation. *)
Definition initialisation_writes (a : algorithm_t) (n : dims) : Z :=
  match a with
  | algorithm_vector_input => n1 n * n2 n
  | algorithm_vector_output => n1 n * n0 n
  | algorithm_matrix => n1 n
  | _ => volume n
  end.

(** The sum of the weights of the calls. *)
Definition total (wt : Logging.call → Z) (log : list Logging.call) : Z :=
  foldr (λ c t, wt c + t) 0 log.

Definition anyhow {W} : diag → Z → W → Prop := λ _ _ _, True.

(** A C library whose [malloc] fails. *)
Definition out_of_memory (cast : Z → double) (junk : byte) : libc Posix.world :=
  Libc Posix.world Posix.last_errno (λ _ _, false) cast junk.

(** * Proofs *)

(** ** Arithmetic of the offsets *)

Section OffsetArith.

(** Mixed-radix numbering [a*B*C + b*C + c] with digits [b < B], [c < C]. *)
Lemma radix_bound (A B C a b c : Z) :
  0 ≤ a < A → 0 ≤ b < B → 0 ≤ c < C →
  0 ≤ a * B * C + b * C + c < A * B * C.
Proof.
  intros Ha Hb Hc.
  assert (0 ≤ a * B) by nia.
  assert (a * B + b + 1 ≤ A * B) by nia.
  assert ((a * B + b + 1) * C ≤ A * B * C) by nia.
  nia.
Qed.

Lemma radix_parts (A B C a b c : Z) :
  0 ≤ a < A → 0 ≤ b < B → 0 ≤ c < C →
  0 ≤ a * B ≤ a * B * C ∧ 0 ≤ a * C ≤ a * B * C ∧ 0 ≤ b * C ∧
  a * B * C + b * C + c < A * B * C.
Proof.
  intros Ha Hb Hc.
  pose proof (radix_bound A B C a b c Ha Hb Hc).
  assert (0 ≤ a * B) by nia.
  assert (0 ≤ a * C) by nia.
  assert (a * B * 1 ≤ a * B * C) by (apply Z.mul_le_mono_nonneg_l; lia).
  assert (a * C * 1 ≤ a * C * B) by (apply Z.mul_le_mono_nonneg_l; lia).
  assert (0 ≤ b * C) by nia.
  repeat split; lia.
Qed.

Lemma radix_inj (B C a b c a' b' c' : Z) :
  0 ≤ b < B → 0 ≤ c < C → 0 ≤ b' < B → 0 ≤ c' < C →
  a * B * C + b * C + c = a' * B * C + b' * C + c' →
  a = a' ∧ b = b' ∧ c = c'.
Proof.
  intros Hb Hc Hb' Hc' He.
  assert (Hbc : a * B + b = a' * B + b' ∧ c = c').
  { assert (E : (a * B + b) * C + c = (a' * B + b') * C + c') by lia.
    assert (~ a * B + b < a' * B + b') by nia.
    assert (~ a' * B + b' < a * B + b) by nia.
    split; [lia | nia]. }
  destruct Hbc as [E ->].
  assert (~ a < a') by nia. assert (~ a' < a) by nia.
  split; [lia | split; [nia | reflexivity]].
Qed.

Lemma radix_surj (A B C o : Z) :
  0 < B → 0 < C → 0 ≤ o < A * B * C →
  ∃ a b c, 0 ≤ a < A ∧ 0 ≤ b < B ∧ 0 ≤ c < C ∧ a * B * C + b * C + c = o.
Proof.
  intros HB HC Ho.
  exists (o / (B * C)), (o mod (B * C) / C), (o mod C).
  pose proof (Z.div_mod o (B * C) ltac:(nia)) as E1.
  pose proof (Z.mod_pos_bound o (B * C) ltac:(nia)) as R1.
  pose proof (Z.div_mod (o mod (B * C)) C ltac:(lia)) as E2.
  pose proof (Z.mod_pos_bound (o mod (B * C)) C HC) as R2.
  assert (Hm : (o mod (B * C)) mod C = o mod C).
  { apply Z.mod_mod_divide. exists B. reflexivity. }
  rewrite Hm in *.
  assert (0 ≤ o / (B * C)) by (apply Z.div_pos; nia).
  assert (o / (B * C) < A).
  { apply Z.div_lt_upper_bound; nia. }
  assert (0 ≤ o mod (B * C) / C) by (apply Z.div_pos; lia).
  assert (o mod (B * C) / C < B).
  { apply Z.div_lt_upper_bound; nia. }
  repeat split; try lia; nia.
Qed.

Lemma ulong_small z : 0 ≤ z < ULONG_MOD → ulong z = z.
Proof. intros; unfold ulong; apply Z.mod_small; assumption. Qed.

Lemma ulong_range z : 0 ≤ ulong z < ULONG_MOD.
Proof. unfold ulong, ULONG_MOD; apply Z.mod_pos_bound; lia. Qed.

Variable n : dims.
Hypothesis Hpos : dims_positive n.
Hypothesis Hfit : volume n ≤ ULONG_MOD.

(** Without wrap-around the C expressions compute the mathematical
    formulas of the layout model. *)
Lemma offset_ijk_exact i j k :
  in_cube n i j k →
  offset_ijk n i j k = i * n1 n * n2 n + j * n2 n + k.
Proof.
  clear Hpos. unfold in_cube, volume in *.
  intros (Hi & Hj & Hk).
  pose proof (radix_parts (n0 n) (n1 n) (n2 n) i j k Hi Hj Hk) as (? & ? & ? & ?).
  unfold offset_ijk, uadd, umul.
  rewrite (ulong_small (i * n2 n)) by lia.
  rewrite (ulong_small (i * n2 n * n1 n)) by lia.
  rewrite (ulong_small (n2 n * j)) by lia.
  rewrite (ulong_small (i * n2 n * n1 n + n2 n * j)) by lia.
  rewrite ulong_small by lia. lia.
Qed.

Lemma offset_jki_exact i j k :
  in_cube n i j k →
  offset_jki n i j k = j * n2 n * n0 n + k * n0 n + i.
Proof.
  clear Hpos. unfold in_cube, volume in *.
  intros (Hi & Hj & Hk).
  pose proof (radix_parts (n1 n) (n2 n) (n0 n) j k i Hj Hk Hi) as (? & ? & ? & ?).
  unfold offset_jki, uadd, umul.
  rewrite (ulong_small (j * n0 n)) by lia.
  rewrite (ulong_small (j * n0 n * n2 n)) by lia.
  rewrite (ulong_small (n0 n * k)) by lia.
  rewrite (ulong_small (j * n0 n * n2 n + n0 n * k)) by lia.
  rewrite ulong_small by lia. lia.
Qed.

Lemma offset_jik_exact i j k :
  in_cube n i j k →
  offset_jik n i j k = j * n0 n * n2 n + i * n2 n + k.
Proof.
  clear Hpos. unfold in_cube, volume in *.
  intros (Hi & Hj & Hk).
  pose proof (radix_parts (n1 n) (n0 n) (n2 n) j i k Hj Hi Hk) as (? & ? & ? & ?).
  unfold offset_jik, uadd, umul.
  rewrite (ulong_small (j * n0 n)) by lia.
  rewrite (ulong_small (j * n0 n * n2 n)) by lia.
  rewrite (ulong_small (n2 n * i)) by lia.
  rewrite (ulong_small (j * n0 n * n2 n + n2 n * i)) by lia.
  rewrite ulong_small by lia. lia.
Qed.

Lemma offset_ijk_enumerates : enumerates_once n (offset_ijk n).
Proof.
  destruct Hpos as (H0 & H1 & H2). split.
  - intros i j k Hc. rewrite offset_ijk_exact by assumption.
    destruct Hc as (Hi & Hj & Hk). unfold volume.
    apply radix_bound; assumption.
  - intros o Ho. unfold volume in Ho.
    destruct (radix_surj (n0 n) (n1 n) (n2 n) o) as (a & b & c & Ha & Hb & Hc & E);
      [lia | lia | lia |].
    exists a, b, c. split; [repeat split; lia |]. split.
    + rewrite offset_ijk_exact by (repeat split; lia). exact E.
    + intros i' j' k' Hc' E'. rewrite offset_ijk_exact in E' by assumption.
      destruct Hc' as (Hi' & Hj' & Hk').
      apply (radix_inj (n1 n) (n2 n)); lia.
Qed.

Lemma offset_jki_enumerates : enumerates_once n (offset_jki n).
Proof.
  destruct Hpos as (H0 & H1 & H2). split.
  - intros i j k Hc. rewrite offset_jki_exact by assumption.
    destruct Hc as (Hi & Hj & Hk). unfold volume.
    pose proof (radix_bound (n1 n) (n2 n) (n0 n) j k i Hj Hk Hi). lia.
  - intros o Ho. unfold volume in Ho.
    destruct (radix_surj (n1 n) (n2 n) (n0 n) o) as (a & b & c & Ha & Hb & Hc & E);
      [lia | lia | lia |].
    exists c, a, b. split; [repeat split; lia |]. split.
    + rewrite offset_jki_exact by (repeat split; lia). exact E.
    + intros i' j' k' Hc' E'. rewrite offset_jki_exact in E' by assumption.
      destruct Hc' as (Hi' & Hj' & Hk').
      destruct (radix_inj (n2 n) (n0 n) j' k' i' a b c); lia.
Qed.

Lemma offset_jik_enumerates : enumerates_once n (offset_jik n).
Proof.
  destruct Hpos as (H0 & H1 & H2). split.
  - intros i j k Hc. rewrite offset_jik_exact by assumption.
    destruct Hc as (Hi & Hj & Hk). unfold volume.
    pose proof (radix_bound (n1 n) (n0 n) (n2 n) j i k Hj Hi Hk). lia.
  - intros o Ho. unfold volume in Ho.
    destruct (radix_surj (n1 n) (n0 n) (n2 n) o) as (a & b & c & Ha & Hb & Hc & E);
      [lia | lia | lia |].
    exists b, a, c. split; [repeat split; lia |]. split.
    + rewrite offset_jik_exact by (repeat split; lia). exact E.
    + intros i' j' k' Hc' E'. rewrite offset_jik_exact in E' by assumption.
      destruct Hc' as (Hi' & Hj' & Hk').
      destruct (radix_inj (n0 n) (n2 n) j' i' k' a b c); lia.
Qed.

End OffsetArith.

(** * Reasoning principles *)

Section PostRules.

Context {W : Type}.
Implicit Types Q : diag → Z → W → Prop.

Lemma post_ret {A} (P : A → W → Prop) Q a w : P a w → post P Q (ret a w).
Proof. exact id. Qed.

Lemma post_exit {A} (P : A → W → Prop) Q d s w :
  Q d s w → post P Q (exit d s w).
Proof. exact id. Qed.

Lemma post_bind {A B} (R : A → W → Prop) (P : B → W → Prop) Q
    (m : M W A) (k : A → M W B) w :
  post R Q (m w) →
  (∀ a w', R a w' → post P Q (k a w')) →
  post P Q (bind m k w).
Proof.
  unfold bind. destruct (m w) as [a w' | d s w']; simpl; auto.
Qed.

Lemma post_bind_assoc {A B C} (P : C → W → Prop) Q
    (m : M W A) (f : A → M W B) (g : B → M W C) w :
  post P Q (bind (bind m f) g w) →
  post P Q (bind m (λ x, bind (f x) g) w).
Proof. unfold bind. destruct (m w); [destruct (f a w0) |]; auto. Qed.

Lemma post_bind_assoc_eq {A B C} (P : outcome W C → Prop)
    (m : M W A) (f : A → M W B) (g : B → M W C) w :
  P (bind (bind m f) g w) →
  P (bind m (λ x, bind (f x) g) w).
Proof. unfold bind. destruct (m w); [destruct (f a w0) |]; auto. Qed.

Lemma post_weaken {A} (P P' : A → W → Prop) Q Q' r :
  post P Q r →
  (∀ a w, P a w → P' a w) →
  (∀ d s w, Q d s w → Q' d s w) →
  post P' Q' r.
Proof. destruct r; simpl; auto. Qed.

Lemma post_never {A} (P : A → W → Prop) r :
  post P never r → ∃ a w, r = Ret a w ∧ P a w.
Proof. destruct r; simpl; [eauto | intros []]. Qed.

Lemma post_for_from {A} (I : Z → A → W → Prop) Q body fuel :
  ∀ i a w,
    I i a w →
    (∀ t a w, i ≤ t < i + Z.of_nat fuel → I t a w →
              post (I (t + 1)) Q (body t a w)) →
    post (I (i + Z.of_nat fuel)) Q (for_from fuel i body a w).
Proof.
  induction fuel as [| fuel IH]; intros i a w HI Hbody; simpl.
  - rewrite Z.add_0_r. exact HI.
  - eapply post_bind.
    + apply Hbody; [lia | exact HI].
    + intros a' w' HI'.
      replace (i + Z.of_nat (S fuel)) with (i + 1 + Z.of_nat fuel) by lia.
      apply IH; [exact HI' |].
      intros t a'' w'' Ht. apply Hbody. lia.
Qed.

(** The rule for [for ( i=0; i<bound; i++ )]. *)
Lemma post_for_ulong {A} (I : Z → A → W → Prop) Q bound body a w :
  0 ≤ bound →
  I 0 a w →
  (∀ t a w, 0 ≤ t < bound → I t a w → post (I (t + 1)) Q (body t a w)) →
  post (I bound) Q (for_ulong bound body a w).
Proof.
  intros Hb HI Hbody. unfold for_ulong.
  replace bound with (0 + Z.of_nat (Z.to_nat bound)) at 1 by lia.
  apply post_for_from; [exact HI |].
  intros t a' w' Ht. apply Hbody. lia.
Qed.

(** The same for an invariant that does not mention the counter; the
    bound may be anything. *)
Lemma post_for_ulong_const {A} (I : A → W → Prop) Q bound body a w :
  I a w →
  (∀ t a w, 0 ≤ t < bound → I a w → post I Q (body t a w)) →
  post I Q (for_ulong bound body a w).
Proof.
  intros HI Hbody. unfold for_ulong.
  apply (post_for_from (λ _, I) Q body (Z.to_nat bound) 0 a w HI).
  intros t a' w' Ht. apply Hbody. lia.
Qed.

(** The first iteration of a loop that has one. *)
Lemma for_ulong_first {A} bound (body : Z → A → M W A) a w :
  0 < bound →
  for_ulong bound body a w =
  match body 0 a w with
  | Ret a' w' => for_from (Z.to_nat (bound - 1)) 1 body a' w'
  | Exit d s w' => Exit d s w'
  end.
Proof.
  intros Hb. unfold for_ulong.
  replace (Z.to_nat bound) with (S (Z.to_nat (bound - 1))) by lia.
  reflexivity.
Qed.

End PostRules.

Section Bytes.

Implicit Types l v c data : list byte.

Lemma blen_nonneg l : 0 ≤ blen l.
Proof. unfold blen; lia. Qed.

Lemma byte_at_None l q : q < 0 ∨ blen l ≤ q → byte_at l q = None.
Proof.
  unfold byte_at, blen. intros H. destruct (Z.ltb_spec q 0); [done |].
  apply lookup_ge_None_2. lia.
Qed.

Lemma byte_at_is_Some l q : 0 ≤ q < blen l → is_Some (byte_at l q).
Proof.
  unfold byte_at, blen. intros H. destruct (Z.ltb_spec q 0); [lia |].
  apply lookup_lt_is_Some_2. lia.
Qed.

Lemma byte_at_Some_range l q b : byte_at l q = Some b → 0 ≤ q < blen l.
Proof.
  unfold byte_at, blen. destruct (Z.ltb_spec q 0) as [Hq | Hq]; [done |].
  intros Hl%lookup_lt_Some. lia.
Qed.

Lemma byte_at_ext l l' :
  (∀ q, 0 ≤ q → byte_at l q = byte_at l' q) → l = l'.
Proof.
  intros H. apply list_eq. intros i.
  specialize (H (Z.of_nat i) ltac:(lia)). unfold byte_at in H.
  destruct (Z.ltb_spec (Z.of_nat i) 0); [lia |].
  by rewrite Nat2Z.id in H.
Qed.

Lemma blen_app l l' : blen (l ++ l') = blen l + blen l'.
Proof. unfold blen. rewrite length_app. lia. Qed.

Lemma blen_replicate n (x : byte) : blen (replicate n x) = Z.of_nat n.
Proof. unfold blen. by rewrite length_replicate. Qed.

Lemma blen_take n l : 0 ≤ n → blen (take (Z.to_nat n) l) = Z.min n (blen l).
Proof. unfold blen. rewrite length_take. lia. Qed.

Lemma blen_drop n l : 0 ≤ n → blen (drop (Z.to_nat n) l) = Z.max 0 (blen l - n).
Proof. unfold blen. rewrite length_drop. lia. Qed.

Lemma byte_at_app l l' q :
  byte_at (l ++ l') q =
  if q <? blen l then byte_at l q else byte_at l' (q - blen l).
Proof.
  unfold byte_at, blen.
  destruct (Z.ltb_spec q 0).
  - destruct (Z.ltb_spec q (Z.of_nat (length l))); [done | lia].
  - destruct (Z.ltb_spec q (Z.of_nat (length l))).
    + apply lookup_app_l. lia.
    + destruct (Z.ltb_spec (q - Z.of_nat (length l)) 0); [lia |].
      rewrite lookup_app_r by lia. f_equal. lia.
Qed.

Lemma byte_at_replicate n (x : byte) q :
  byte_at (replicate n x) q =
  if (0 <=? q) && (q <? Z.of_nat n) then Some x else None.
Proof.
  unfold byte_at.
  destruct (Z.ltb_spec q 0), (Z.leb_spec 0 q); try lia; simpl; [done |].
  destruct (Z.ltb_spec q (Z.of_nat n)).
  - apply lookup_replicate_2. lia.
  - apply lookup_ge_None_2. rewrite length_replicate. lia.
Qed.

Lemma byte_at_take n l q :
  byte_at (take (Z.to_nat n) l) q = if q <? n then byte_at l q else None.
Proof.
  unfold byte_at.
  destruct (Z.ltb_spec q 0), (Z.ltb_spec q n); try done.
  - apply lookup_take_lt. lia.
  - apply lookup_take_ge. lia.
Qed.

Lemma byte_at_drop n l q :
  0 ≤ n → 0 ≤ q → byte_at (drop (Z.to_nat n) l) q = byte_at l (n + q).
Proof.
  intros Hn Hq. unfold byte_at.
  destruct (Z.ltb_spec q 0), (Z.ltb_spec (n + q) 0); try lia.
  rewrite lookup_drop. f_equal. lia.
Qed.

End Bytes.

(** Case analysis on every integer comparison in sight. *)
Ltac cmp :=
  repeat match goal with
    | |- context [?a <? ?b] => destruct (Z.ltb_spec a b)
    | |- context [?a <=? ?b] => destruct (Z.leb_spec a b)
    | |- context [?a =? ?b] => destruct (Z.eqb_spec a b)
    end; simpl.

Section Buffers.

Import Posix.
Implicit Types l v c data d m : list byte.

Lemma blen_file_read c pos len :
  0 ≤ pos → 0 ≤ len →
  blen (file_read c pos len) = Z.min len (Z.max 0 (blen c - pos)).
Proof.
  intros. unfold file_read. rewrite blen_take, blen_drop by lia. reflexivity.
Qed.

Lemma byte_at_file_read c pos len q :
  0 ≤ pos →
  byte_at (file_read c pos len) q =
  if (0 <=? q) && (q <? len) then byte_at c (pos + q) else None.
Proof.
  intros. unfold file_read. rewrite byte_at_take.
  cmp; try done; try lia.
  - by apply byte_at_drop.
  - apply byte_at_None. lia.
Qed.

Lemma blen_file_write c pos data :
  0 ≤ pos → blen (file_write c pos data) = Z.max (blen c) (pos + blen data).
Proof.
  intros. unfold file_write, blen.
  rewrite !length_app, length_take, length_replicate, length_drop. lia.
Qed.

Lemma byte_at_file_write c pos data q :
  0 ≤ pos →
  byte_at (file_write c pos data) q =
  if q <? pos then
    if q <? blen c then byte_at c q
    else if 0 <=? q then Some x00 else None
  else if q <? pos + blen data then byte_at data (q - pos)
  else byte_at c q.
Proof.
  intros Hp. unfold file_write.
  rewrite !byte_at_app, blen_take, blen_replicate by lia.
  rewrite byte_at_take, byte_at_replicate.
  pose proof (blen_nonneg c). pose proof (blen_nonneg data).
  assert (Hd : ∀ x, 0 ≤ x →
    byte_at (drop (Z.to_nat pos + length data) c) x = byte_at c (pos + blen data + x)).
  { intros x Hx.
    replace (Z.to_nat pos + length data)%nat with (Z.to_nat (pos + blen data))
      by (unfold blen; lia).
    apply byte_at_drop; lia. }
  unfold blen in *.
  cmp; try done; try lia;
    try (symmetry; apply byte_at_None; unfold blen; lia);
    try (apply byte_at_None; unfold blen; lia);
    try (f_equal; lia).
  all: rewrite Hd by lia; f_equal; unfold blen; lia.
Qed.

Lemma blen_deliver data l :
  blen (deliver data l) = Z.max (blen data) (blen l).
Proof.
  unfold deliver, blen. rewrite length_app, length_drop. lia.
Qed.

Lemma byte_at_deliver data l q :
  byte_at (deliver data l) q =
  if q <? blen data then byte_at data q else byte_at l q.
Proof.
  unfold deliver. rewrite byte_at_app.
  cmp; [done |].
  replace (length data) with (Z.to_nat (blen data)) by (unfold blen; lia).
  rewrite byte_at_drop by (pose proof (blen_nonneg data); lia).
  f_equal. lia.
Qed.

Lemma blen_ptr_add v i :
  0 ≤ i → blen (ptr_add v i) = Z.max 0 (blen v - 8 * i).
Proof.
  intros. unfold ptr_add. by rewrite blen_drop by lia.
Qed.

Lemma byte_at_ptr_add v i q :
  0 ≤ i →
  byte_at (ptr_add v i) q = if 0 <=? q then byte_at v (8 * i + q) else None.
Proof.
  intros. unfold ptr_add. cmp.
  - apply byte_at_drop; lia.
  - apply byte_at_None. lia.
Qed.

Lemma blen_load_double v i :
  0 ≤ i → 8 * i + 8 ≤ blen v → blen (load_double v i) = 8.
Proof.
  intros. unfold load_double.
  rewrite blen_take, blen_ptr_add by lia.
  lia.
Qed.

Lemma byte_at_load_double v i q :
  0 ≤ i →
  byte_at (load_double v i) q =
  if (0 <=? q) && (q <? 8) then byte_at v (8 * i + q) else None.
Proof.
  intros. unfold load_double. rewrite byte_at_take, byte_at_ptr_add by lia.
  cmp; done.
Qed.

Lemma blen_store_double v i d :
  0 ≤ i → 8 * i + 8 ≤ blen v → blen d = 8 →
  blen (store_double v i d) = blen v.
Proof.
  intros. unfold store_double.
  rewrite !blen_app, blen_take, blen_ptr_add by lia.
  lia.
Qed.

Lemma byte_at_store_double v i d q :
  0 ≤ i → 8 * i ≤ blen v → blen d = 8 →
  byte_at (store_double v i d) q =
  if q <? 8 * i then byte_at v q
  else if q <? 8 * i + 8 then byte_at d (q - 8 * i)
  else byte_at v q.
Proof.
  intros. unfold store_double.
  rewrite !byte_at_app, blen_take, byte_at_take, byte_at_ptr_add
    by lia.
  cmp; try done; try lia; try (f_equal; lia).
Qed.

Lemma blen_update_from v i m :
  0 ≤ i → 8 * i ≤ blen v → blen (update_from v i m) = 8 * i + blen m.
Proof.
  intros. unfold update_from.
  rewrite blen_app, blen_take by lia.
  lia.
Qed.

Lemma byte_at_update_from v i m q :
  0 ≤ i → 8 * i ≤ blen v →
  byte_at (update_from v i m) q =
  if q <? 8 * i then byte_at v q else byte_at m (q - 8 * i).
Proof.
  intros. unfold update_from.
  rewrite byte_at_app, blen_take, byte_at_take by lia.
  cmp; try done; try lia; try (f_equal; lia).
Qed.

Lemma blen_double_bytes (x : double) : blen (double_bytes x) = 8.
Proof. reflexivity. Qed.


End Buffers.

(** * The conversion on regular files *)

Section ConversionOnFiles.

Import Posix.

Variable drv : io_driver_t.
Variable cast : Z → double.
Variable junk : byte.
Variables ip op : string.
Hypothesis Hpaths : ip ≠ op.

Local Abbreviation cb := (io_driver_callbacks drv).
Local Abbreviation rt := (posix_libc cast junk).

Local Abbreviation conv_state := (files_open ip op).

Lemma seek_in_ok inp ipos out opos fp dg w :
  conv_state inp ipos out opos w → 0 ≤ fp →
  post (λ _ w', conv_state inp fp out opos w') never
       (seek_or_exit cb rt in_fh fp dg w).
Proof.
  intros (Hi & Ho & (wr & Hih) & Hoh) Hfp.
  unfold seek_or_exit, bind, seek.
  assert (E : io_seek cb in_fh fp w =
              (fp, set_fh in_fh (Some (OpenFile ip fp wr)) w)).
  { destruct drv; simpl; unfold file_handle_seek_stream, file_handle_seek_fd;
      simpl; rewrite Hih; destruct (Z.ltb_spec fp 0); try lia; reflexivity. }
  rewrite E. destruct (Z.ltb_spec fp 0); [lia |]. simpl.
  repeat split; simpl; eauto.
Qed.

Lemma seek_out_ok inp ipos out opos fp dg w :
  conv_state inp ipos out opos w → 0 ≤ fp →
  post (λ _ w', conv_state inp ipos out fp w') never
       (seek_or_exit cb rt out_fh fp dg w).
Proof.
  intros (Hi & Ho & (wr & Hih) & Hoh) Hfp.
  unfold seek_or_exit, bind, seek.
  assert (E : io_seek cb out_fh fp w =
              (fp, set_fh out_fh (Some (OpenFile op fp true)) w)).
  { destruct drv; simpl; unfold file_handle_seek_stream, file_handle_seek_fd;
      simpl; rewrite Hoh; destruct (Z.ltb_spec fp 0); try lia; reflexivity. }
  rewrite E. destruct (Z.ltb_spec fp 0); [lia |]. simpl.
  repeat split; simpl; eauto.
Qed.

Lemma read_in_ok inp ipos out opos buf len w :
  conv_state inp ipos out opos w →
  0 ≤ ipos → 0 < len → ipos + len ≤ blen inp →
  (drv = io_driver_fd → len ≤ MAX_RW_COUNT) →
  post (λ buf' w', buf' = deliver (file_read inp ipos len) buf ∧
                   conv_state inp (ipos + len) out opos w') never
       (read_or_exit cb rt buf len w).
Proof.
  intros (Hi & Ho & (wr & Hih) & Hoh) Hpos Hlen Hfit Hlim.
  assert (Hl : Z.of_nat (length (file_read inp ipos len)) = len).
  { pose proof (blen_file_read inp ipos len) as B. unfold blen in *. lia. }
  unfold read_or_exit, bind, read.
  assert (E : io_read cb in_fh buf len w =
              ((len, deliver (file_read inp ipos len) buf),
               advance in_fh (OpenFile ip ipos wr) len w)).
  { destruct drv; simpl; unfold file_handle_read_stream, file_handle_read_fd;
      simpl; rewrite Hih; unfold content_of; simpl; rewrite Hi; simpl;
      rewrite ?Z.min_l by auto; rewrite Hl.
    - reflexivity.
    - destruct (Z.leb_spec len 0); [lia |]. by rewrite Z.eqb_refl. }
  rewrite E. destruct (Z.leb_spec len 0); [lia |]. simpl.
  repeat split; simpl; eauto.
Qed.

Lemma write_out_ok inp ipos out opos buf len w :
  conv_state inp ipos out opos w →
  0 ≤ opos → 0 < len → len ≤ blen buf → opos + len ≤ OFF_MAX →
  (drv = io_driver_fd → len ≤ MAX_RW_COUNT) →
  post (λ _ w', conv_state inp ipos
                  (file_write out opos (take (Z.to_nat len) buf)) (opos + len) w')
       never (write_or_exit cb rt buf len w).
Proof.
  intros (Hi & Ho & (wr & Hih) & Hoh) Hpos Hlen Hbuf Hfit Hlim.
  set (data := take (Z.to_nat len) buf).
  assert (Hl : Z.of_nat (length data) = len).
  { pose proof (blen_take len buf). unfold blen, data in *. lia. }
  assert (Hne : data ≠ []).
  { intros E. rewrite E in Hl. simpl in Hl. lia. }
  unfold write_or_exit, bind, write.
  assert (E : io_write cb out_fh buf len w =
              (len, advance out_fh (OpenFile op opos true) len
                      (set_file op (file_write out opos data) w))).
  { destruct drv; simpl; unfold file_handle_write_stream, file_handle_write_fd;
      simpl; rewrite Hoh; rewrite ?Z.min_l by auto; fold data;
      destruct (decide (data = [])); try done;
      unfold do_write; simpl; rewrite Hl; unfold content_of; rewrite Ho; simpl;
      destruct (Z.ltb_spec OFF_MAX (opos + len)); try lia.
    - reflexivity.
    - by rewrite Z.eqb_refl. }
  rewrite E. destruct (Z.leb_spec len 0); [lia |]. simpl.
  repeat split; simpl; eauto.
  - by rewrite lookup_insert_ne.
  - by rewrite lookup_insert_eq.
Qed.

(** ** The output file while the cube is being copied *)

Variable n : dims.
Variables inp out0 : list byte.
Hypothesis Hpos : dims_positive n.
Hypothesis Hinp : 8 * volume n ≤ blen inp.
Hypothesis Hmax : blen inp ≤ OFF_MAX.

Lemma volume_fits : volume n ≤ ULONG_MOD.
Proof. unfold OFF_MAX, ULONG_MOD in *. lia. Qed.

Lemma volume_small : volume n < 2 ^ 60.
Proof. unfold OFF_MAX in *. lia. Qed.

Lemma dims_le_volume :
  n0 n ≤ volume n ∧ n2 n ≤ volume n ∧ 0 < n0 n * n2 n ≤ volume n.
Proof.
  destruct Hpos as (P0 & P1 & P2). unfold volume.
  assert (n0 n * 1 ≤ n0 n * n1 n) by (apply Z.mul_le_mono_nonneg_l; lia).
  assert (n0 n * n1 n * 1 ≤ n0 n * n1 n * n2 n)
    by (apply Z.mul_le_mono_nonneg_l; lia).
  assert (n2 n * 1 ≤ n2 n * (n0 n * n1 n))
    by (apply Z.mul_le_mono_nonneg_l; lia).
  assert (n0 n * n2 n * 1 ≤ n0 n * n2 n * n1 n)
    by (apply Z.mul_le_mono_nonneg_l; lia).
  lia.
Qed.

Lemma offset_jik_range i j k :
  in_cube n i j k → 0 ≤ offset_jik n i j k < volume n.
Proof. apply (offset_jik_enumerates n Hpos volume_fits). Qed.

Lemma offset_jki_range i j k :
  in_cube n i j k → 0 ≤ offset_jki n i j k < volume n.
Proof. apply (offset_jki_enumerates n Hpos volume_fits). Qed.

Lemma offset_jik_inj i j k i' j' k' :
  in_cube n i j k → in_cube n i' j' k' →
  offset_jik n i j k = offset_jik n i' j' k' →
  i = i' ∧ j = j' ∧ k = k'.
Proof.
  intros Hc Hc' E.
  rewrite !(offset_jik_exact n volume_fits) in E by assumption.
  destruct Hc as (? & ? & ?), Hc' as (? & ? & ?).
  destruct (radix_inj (n0 n) (n2 n) j i k j' i' k'); lia.
Qed.

Lemma byte_offset_exact o :
  0 ≤ o < volume n → byte_offset o = 8 * o.
Proof.
  intros Ho. unfold byte_offset, to_off_t, umul.
  unfold OFF_MAX, ULONG_MOD in *.
  rewrite ulong_small by (rewrite ulong_small; unfold ULONG_MOD; lia).
  rewrite ulong_small by (unfold ULONG_MOD; lia).
  destruct (Z.ltb_spec (8 * o) (2 ^ 63)); lia.
Qed.

Local Abbreviation out_inv := (copied n inp out0).

Lemma out_inv_start : out_inv (λ _ _ _, False) out0.
Proof.
  pose proof (blen_nonneg out0).
  split; [lia |]. split; [done |]. intros i j k t _ [].
Qed.

Lemma out_inv_weaken D D' out :
  (∀ i j k, in_cube n i j k → D' i j k → D i j k) →
  out_inv D out → out_inv D' out.
Proof.
  intros Hsub (H1 & H2 & H3). split; [done |]. split; [done |].
  intros i j k t Hc HD Ht. apply H3; auto.
Qed.

(** A write inside the data region whose every byte is the byte that
    belongs there. *)
Lemma out_inv_write D D' out pos data :
  out_inv D out →
  0 ≤ pos → pos + blen data ≤ 8 * volume n →
  (∀ q, 0 ≤ q < blen data →
     ∃ i j k t, in_cube n i j k ∧ 0 ≤ t < 8 ∧
       pos + q = 8 * offset_jik n i j k + t ∧
       byte_at data q = byte_at inp (8 * offset_jki n i j k + t)) →
  (∀ i j k, in_cube n i j k → D' i j k →
     D i j k ∨ (pos ≤ 8 * offset_jik n i j k ∧
                8 * offset_jik n i j k + 8 ≤ pos + blen data)) →
  out_inv D' (Posix.file_write out pos data).
Proof.
  intros (H1 & H2 & H3) Hp Hfit Hdata Hcover.
  pose proof (blen_nonneg data) as Hdn.
  split; [rewrite blen_file_write by done; lia |]. split.
  - intros q Hq. rewrite byte_at_file_write by done.
    cmp; try lia. by apply H2.
  - intros i j k t Hc HD Ht.
    pose proof (offset_jki_range i j k Hc) as Rki.
    assert (Hsome : is_Some (byte_at inp (8 * offset_jki n i j k + t))).
    { apply byte_at_is_Some. lia. }
    rewrite byte_at_file_write by done.
    destruct (Z.ltb_spec (8 * offset_jik n i j k + t) pos) as [Hlt | Hge].
    + destruct (Hcover i j k Hc HD) as [HDold | [Hc1 Hc2]]; [| lia].
      pose proof (H3 i j k t Hc HDold Ht) as E.
      destruct Hsome as [b Hb]. rewrite Hb in E.
      apply byte_at_Some_range in E as Hr.
      destruct (Z.ltb_spec (8 * offset_jik n i j k + t) (blen out)); [| lia].
      by rewrite E, Hb.
    + destruct (Z.ltb_spec (8 * offset_jik n i j k + t) (pos + blen data))
        as [Hin | Hout].
      * destruct (Hdata (8 * offset_jik n i j k + t - pos) ltac:(lia))
          as (i' & j' & k' & t' & Hc' & Ht' & Epos & Ebyte).
        assert (offset_jik n i j k = offset_jik n i' j' k' ∧ t = t') as [Eo ->]
          by lia.
        destruct (offset_jik_inj i j k i' j' k' Hc Hc' Eo) as (-> & -> & ->).
        exact Ebyte.
      * destruct (Hcover i j k Hc HD) as [HDold | [Hc1 Hc2]]; [| lia].
        by apply H3.
Qed.

(** When every coordinate is done the output file is determined. *)
Lemma out_inv_unique out out' :
  out_inv (λ _ _ _, True) out → out_inv (λ _ _ _, True) out' → out = out'.
Proof.
  intros (H1 & H2 & H3) (H1' & H2' & H3').
  apply byte_at_ext. intros q Hq.
  destruct (Z.lt_ge_cases q (8 * volume n)) as [Hin | Hout].
  - destruct (offset_jik_enumerates n Hpos volume_fits) as [_ Hsurj].
    destruct (Hsurj (q / 8)) as (i & j & k & Hc & E & _).
    { split; [apply Z.div_pos; lia | apply Z.div_lt_upper_bound; lia]. }
    pose proof (Z.div_mod q 8 ltac:(lia)) as Eq.
    pose proof (Z.mod_pos_bound q 8 ltac:(lia)) as Rq.
    rewrite Eq, <- E.
    rewrite H3, H3' by (auto; lia). reflexivity.
  - rewrite H2, H2' by lia. reflexivity.
Qed.


Local Abbreviation conv_inv := (converting ip op n inp out0).

Lemma conv_inv_weaken D D' w :
  (∀ i j k, in_cube n i j k → D' i j k → D i j k) →
  conv_inv D w → conv_inv D' w.
Proof.
  intros Hsub (ipos & opos & out & Hs & Hi).
  exists ipos, opos, out. eauto using out_inv_weaken.
Qed.

Lemma deliver_full data buf :
  blen buf ≤ blen data → Posix.deliver data buf = data.
Proof.
  intros H. unfold Posix.deliver.
  rewrite drop_ge by (unfold blen in H; lia). apply app_nil_r.
Qed.

Lemma take_full len buf :
  blen buf ≤ len → take (Z.to_nat len) buf = buf.
Proof. intros H. apply take_ge. unfold blen in H. lia. Qed.

(** ** The element-wise algorithms *)

Lemma copy_element_ok (D D' : Z → Z → Z → Prop) i j k w :
  in_cube n i j k →
  (∀ i' j' k', in_cube n i' j' k' → D' i' j' k' →
     D i' j' k' ∨ (i' = i ∧ j' = j ∧ k' = k)) →
  conv_inv D w →
  post (λ _ w', conv_inv D' w') never (copy_element cb rt n i j k w).
Proof.
  intros Hc Hsub (ipos & opos & out & Hs & Hi).
  pose proof (offset_jki_range i j k Hc) as Rki.
  pose proof (offset_jik_range i j k Hc) as Rik.
  unfold copy_element.
  rewrite !byte_offset_exact by done.
  eapply post_bind; [eapply seek_in_ok; [eassumption | lia] |].
  intros ? w1 Hs1. simpl in Hs1.
  eapply post_bind.
  { eapply read_in_ok; [eassumption | lia | lia | lia |].
    unfold MAX_RW_COUNT. lia. }
  intros v w2 [-> Hs2]. simpl in Hs2.
  eapply post_bind; [eapply seek_out_ok; [eassumption | lia] |].
  intros ? w3 Hs3. simpl in Hs3.
  assert (Hrl : blen (Posix.file_read inp (8 * offset_jki n i j k) SIZEOF_DOUBLE) = 8).
  { rewrite blen_file_read by lia.
    lia. }
  rewrite deliver_full in *
    by (rewrite Hrl, blen_replicate; lia).
  eapply post_weaken;
    [eapply write_out_ok;
       [eassumption | lia | lia | lia | lia | unfold MAX_RW_COUNT; lia]
    | | done].
  intros ? w4 Hs4. simpl in Hs4.
  rewrite take_full in Hs4 by lia.
  eexists _, _, _. split; [exact Hs4 |].
  eapply out_inv_write; [exact Hi | lia | lia | |].
  - intros q Hq. exists i, j, k, q.
    split; [done |]. split; [lia |]. split; [done |].
    rewrite byte_at_file_read by lia. cmp; try lia. done.
  - intros i' j' k' Hc' HD'.
    destruct (Hsub i' j' k' Hc' HD') as [? | (-> & -> & ->)]; [by left | right].
    lia.
Qed.

(** Entering a loop with invariant [I], and leaving it. *)
Ltac enter_loop I :=
  eapply post_weaken; [apply (post_for_ulong I); [lia | |] | | done].
Ltac by_weakening H :=
  eapply conv_inv_weaken; [| exact H]; unfold in_cube; simpl; intros; lia.

Lemma convert_ijk_map_ok w :
  conv_inv (λ _ _ _, False) w →
  post (λ _ w', conv_inv (λ _ _ _, True) w') never (convert_ijk_map cb rt n w).
Proof.
  intros H0. destruct Hpos as (P0 & P1 & P2). unfold convert_ijk_map.
  enter_loop (λ i (_ : unit) w, conv_inv (λ i' j' k', i' < i) w).
  - by_weakening H0.
  - intros i [] w1 Hi H1.
    enter_loop (λ j (_ : unit) w,
                  conv_inv (λ i' j' k', i' < i ∨ (i' = i ∧ j' < j)) w).
    + by_weakening H1.
    + intros j [] w2 Hj H2.
      enter_loop (λ k (_ : unit) w,
                    conv_inv (λ i' j' k', i' < i ∨ (i' = i ∧ j' < j) ∨
                                          (i' = i ∧ j' = j ∧ k' < k)) w).
      * by_weakening H2.
      * intros k [] w3 Hk H3.
        eapply copy_element_ok; [unfold in_cube; lia | | exact H3].
        simpl. intros. lia.
      * intros [] w' H. by_weakening H.
    + intros [] w' H. by_weakening H.
  - intros [] w' H. by_weakening H.
Qed.

Lemma convert_jki_map_ok w :
  conv_inv (λ _ _ _, False) w →
  post (λ _ w', conv_inv (λ _ _ _, True) w') never (convert_jki_map cb rt n w).
Proof.
  intros H0. destruct Hpos as (P0 & P1 & P2). unfold convert_jki_map.
  enter_loop (λ j (_ : unit) w, conv_inv (λ i' j' k', j' < j) w).
  - by_weakening H0.
  - intros j [] w1 Hj H1.
    enter_loop (λ k (_ : unit) w,
                  conv_inv (λ i' j' k', j' < j ∨ (j' = j ∧ k' < k)) w).
    + by_weakening H1.
    + intros k [] w2 Hk H2.
      enter_loop (λ i (_ : unit) w,
                    conv_inv (λ i' j' k', j' < j ∨ (j' = j ∧ k' < k) ∨
                                          (j' = j ∧ k' = k ∧ i' < i)) w).
      * by_weakening H2.
      * intros i [] w3 Hi H3.
        eapply copy_element_ok; [unfold in_cube; lia | | exact H3].
        simpl. intros. lia.
      * intros [] w' H. by_weakening H.
    + intros [] w' H. by_weakening H.
  - intros [] w' H. by_weakening H.
Qed.

Lemma convert_jik_map_ok w :
  conv_inv (λ _ _ _, False) w →
  post (λ _ w', conv_inv (λ _ _ _, True) w') never (convert_jik_map cb rt n w).
Proof.
  intros H0. destruct Hpos as (P0 & P1 & P2). unfold convert_jik_map.
  enter_loop (λ j (_ : unit) w, conv_inv (λ i' j' k', j' < j) w).
  - by_weakening H0.
  - intros j [] w1 Hj H1.
    enter_loop (λ i (_ : unit) w,
                  conv_inv (λ i' j' k', j' < j ∨ (j' = j ∧ i' < i)) w).
    + by_weakening H1.
    + intros i [] w2 Hi H2.
      enter_loop (λ k (_ : unit) w,
                    conv_inv (λ i' j' k', j' < j ∨ (j' = j ∧ i' < i) ∨
                                          (j' = j ∧ i' = i ∧ k' < k)) w).
      * by_weakening H2.
      * intros k [] w3 Hk H3.
        eapply copy_element_ok; [unfold in_cube; lia | | exact H3].
        simpl. intros. lia.
      * intros [] w' H. by_weakening H.
    + intros [] w' H. by_weakening H.
  - intros [] w' H. by_weakening H.
Qed.

(** ** The buffered algorithms *)

(** How the offsets run along a row and along a block. *)
Lemma offset_jki_row i j k :
  in_cube n i j k → offset_jki n i j k = offset_jki n 0 j k + i.
Proof.
  intros Hc. rewrite !(offset_jki_exact n volume_fits); [lia | | done].
  unfold in_cube in *. lia.
Qed.

Lemma offset_jik_row i j k :
  in_cube n i j k → offset_jik n i j k = offset_jik n i j 0 + k.
Proof.
  intros Hc. rewrite !(offset_jik_exact n volume_fits); [lia | | done].
  unfold in_cube in *. lia.
Qed.

Lemma offset_jki_block i j k :
  in_cube n i j k → offset_jki n i j k = offset_jki n 0 j 0 + (k * n0 n + i).
Proof.
  intros Hc. rewrite !(offset_jki_exact n volume_fits); [lia | | done].
  unfold in_cube in *. lia.
Qed.

Lemma offset_jik_block i j k :
  in_cube n i j k → offset_jik n i j k = offset_jik n 0 j 0 + (i * n2 n + k).
Proof.
  intros Hc. rewrite !(offset_jik_exact n volume_fits); [lia | | done].
  unfold in_cube in *. lia.
Qed.

(** Seek, then read [len] bytes that the input file has. *)
Lemma get_block_ok D pos buf len dg w :
  conv_inv D w →
  0 ≤ pos → 0 < len → pos + len ≤ blen inp →
  (drv = io_driver_fd → len ≤ Posix.MAX_RW_COUNT) →
  post (λ buf' w', buf' = Posix.deliver (Posix.file_read inp pos len) buf ∧
                   conv_inv D w') never
       ((let* _ := seek_or_exit cb rt in_fh pos dg in
         read_or_exit cb rt buf len) w).
Proof.
  intros (ipos & opos & out & Hs & Hi) Hp Hl Hfit Hlim.
  eapply post_bind; [eapply seek_in_ok; [eassumption | lia] |].
  intros ? w1 Hs1. simpl in Hs1.
  eapply post_weaken;
    [eapply read_in_ok; [eassumption | lia | lia | lia | done] | | done].
  intros buf' w2 [-> Hs2]. split; [done |]. by eexists _, _, _.
Qed.

(** Seek, then write [len] bytes each of which is the byte that belongs
    at its place. *)
Lemma put_block_ok D D' pos buf len dg w :
  conv_inv D w →
  0 ≤ pos → 0 < len → len ≤ blen buf → pos + len ≤ 8 * volume n →
  (drv = io_driver_fd → len ≤ Posix.MAX_RW_COUNT) →
  (∀ q, 0 ≤ q < len →
     ∃ i j k t, in_cube n i j k ∧ 0 ≤ t < 8 ∧
       pos + q = 8 * offset_jik n i j k + t ∧
       byte_at buf q = byte_at inp (8 * offset_jki n i j k + t)) →
  (∀ i j k, in_cube n i j k → D' i j k →
     D i j k ∨ (pos ≤ 8 * offset_jik n i j k ∧
                8 * offset_jik n i j k + 8 ≤ pos + len)) →
  post (λ _ w', conv_inv D' w') never
       ((let* _ := seek_or_exit cb rt out_fh pos dg in
         write_or_exit cb rt buf len) w).
Proof.
  intros (ipos & opos & out & Hs & Hi) Hp Hl Hbuf Hfit Hlim Hdata Hcover.
  eapply post_bind; [eapply seek_out_ok; [eassumption | lia] |].
  intros ? w1 Hs1. simpl in Hs1.
  eapply post_weaken;
    [eapply write_out_ok; [eassumption | lia | lia | lia | lia | done] | | done].
  intros ? w2 Hs2. simpl in Hs2.
  assert (Hlen : blen (take (Z.to_nat len) buf) = len)
    by (rewrite blen_take; lia).
  eexists _, _, _. split; [exact Hs2 |].
  eapply out_inv_write; [exact Hi | lia | lia | |].
  - rewrite Hlen. intros q Hq.
    destruct (Hdata q Hq) as (i & j & k & t & ? & ? & ? & E).
    exists i, j, k, t. split; [done |]. split; [done |]. split; [done |].
    rewrite byte_at_take. cmp; [done | lia].
  - rewrite Hlen. done.
Qed.

Lemma alloc_ok size w :
  alloc rt size w = Ret (Some (replicate (Z.to_nat size) junk)) w.
Proof. reflexivity. Qed.

Lemma convert_vector_input_ok w :
  whole_transfers drv algorithm_vector_input n →
  conv_inv (λ _ _ _, False) w →
  post (λ _ w', conv_inv (λ _ _ _, True) w') never
       (convert_vector_input cb rt n w).
Proof.
  intros Hlim H0. destruct Hpos as (P0 & P1 & P2).
  unfold whole_transfers in Hlim. simpl in Hlim.
  pose proof volume_small as Hv. pose proof dims_le_volume as (V0 & V2 & V02).
  unfold convert_vector_input, bind at 1. rewrite alloc_ok.
  unfold umul. rewrite ulong_small by (unfold ULONG_MOD; lia).
  apply (post_bind (λ _ w', conv_inv (λ _ _ _, True) w')); [| by intros].
  enter_loop (λ j v w, blen v = 8 * n0 n ∧ conv_inv (λ i' j' k', j' < j) w).
  - split; [rewrite blen_replicate; lia | by_weakening H0].
  - intros j v w1 Hj [Hv1 H1].
    enter_loop (λ k v w, blen v = 8 * n0 n ∧
                         conv_inv (λ i' j' k', j' < j ∨ (j' = j ∧ k' < k)) w).
    + split; [done | by_weakening H1].
    + intros k v2 w2 Hk [Hv2 H2].
      assert (Hc0 : in_cube n 0 j k) by (unfold in_cube; lia).
      pose proof (offset_jki_range 0 j k Hc0) as R0.
      assert (Hrow : 8 * offset_jki n 0 j k + 8 * n0 n ≤ 8 * volume n).
      { pose proof (offset_jki_range (n0 n - 1) j k ltac:(unfold in_cube; lia)) as R.
        rewrite offset_jki_row in R by (unfold in_cube; lia). lia. }
      rewrite byte_offset_exact by done.
      apply post_bind_assoc.
      eapply post_bind;
        [eapply get_block_ok; [exact H2 | lia | lia | lia | done] |].
      intros v3 w3 [-> H3].
      rewrite deliver_full
        by (rewrite blen_file_read by lia; lia).
      apply (post_bind (λ _ w',
               conv_inv (λ i' j' k', j' < j ∨ (j' = j ∧ k' < k + 1)) w')).
      * enter_loop (λ i (_ : unit) w,
                      conv_inv (λ i' j' k', j' < j ∨ (j' = j ∧ k' < k) ∨
                                            (j' = j ∧ k' = k ∧ i' < i)) w).
        -- by_weakening H3.
        -- intros i [] w4 Hi H4.
           assert (Hc : in_cube n i j k) by (unfold in_cube; lia).
           pose proof (offset_jik_range i j k Hc) as Rik.
           rewrite byte_offset_exact by done.
           eapply put_block_ok; [exact H4 | lia | lia | | lia | | |].
           ++ rewrite blen_ptr_add, blen_file_read by lia. lia.
           ++ unfold Posix.MAX_RW_COUNT. lia.
           ++ intros q Hq. exists i, j, k, q.
              split; [done |]. split; [done |]. split; [done |].
              rewrite byte_at_ptr_add, byte_at_file_read by lia.
              rewrite (offset_jki_row i j k Hc).
              cmp; try lia. f_equal. lia.
           ++ simpl. intros i' j' k' Hc' HD'.
              destruct (decide (i' = i ∧ j' = j ∧ k' = k)) as [(-> & -> & ->) |];
                [right | left]; lia.
        -- intros [] w' H. by_weakening H.
      * intros ? w' H. apply post_ret. split; [| done].
        rewrite blen_file_read by lia. lia.
    + intros v' w' [? H]. split; [done | by_weakening H].
  - intros v' w' [? H]. by_weakening H.
Qed.

Lemma convert_vector_output_ok w :
  whole_transfers drv algorithm_vector_output n →
  conv_inv (λ _ _ _, False) w →
  post (λ _ w', conv_inv (λ _ _ _, True) w') never
       (convert_vector_output cb rt n w).
Proof.
  intros Hlim H0. destruct Hpos as (P0 & P1 & P2).
  unfold whole_transfers in Hlim. simpl in Hlim.
  pose proof volume_small as Hv. pose proof dims_le_volume as (V0 & V2 & V02).
  unfold convert_vector_output, bind at 1. rewrite alloc_ok.
  unfold umul. rewrite ulong_small by (unfold ULONG_MOD; lia).
  apply (post_bind (λ _ w', conv_inv (λ _ _ _, True) w')); [| by intros].
  enter_loop (λ j v w, blen v = 8 * n2 n ∧ conv_inv (λ i' j' k', j' < j) w).
  - split; [rewrite blen_replicate; lia | by_weakening H0].
  - intros j v1 w1 Hj [Hv1 H1].
    enter_loop (λ i v w, blen v = 8 * n2 n ∧
                         conv_inv (λ i' j' k', j' < j ∨ (j' = j ∧ i' < i)) w).
    + split; [done | by_weakening H1].
    + intros i v2 w2 Hi [Hv2 H2].
      apply (post_bind (λ v w',
               blen v = 8 * n2 n ∧
               (∀ k t, 0 ≤ k < n2 n → 0 ≤ t < 8 →
                  byte_at v (8 * k + t) = byte_at inp (8 * offset_jki n i j k + t)) ∧
               conv_inv (λ i' j' k', j' < j ∨ (j' = j ∧ i' < i)) w')).
      * enter_loop (λ k v w,
               blen v = 8 * n2 n ∧
               (∀ k' t, 0 ≤ k' < k → 0 ≤ t < 8 →
                  byte_at v (8 * k' + t) = byte_at inp (8 * offset_jki n i j k' + t)) ∧
               conv_inv (λ i' j' k', j' < j ∨ (j' = j ∧ i' < i)) w).
        -- split; [done |]. split; [intros; lia | done].
        -- intros k v3 w3 Hk (Hv3 & Hb3 & H3).
           assert (Hc : in_cube n i j k) by (unfold in_cube; lia).
           pose proof (offset_jki_range i j k Hc) as Rki.
           rewrite byte_offset_exact by done.
           apply post_bind_assoc.
           eapply post_bind;
             [eapply get_block_ok;
                [exact H3 | lia | lia | lia | unfold Posix.MAX_RW_COUNT; lia] |].
           intros m w4 [-> H4]. apply post_ret.
           split; [| split; [| done]].
           ++ rewrite blen_update_from, blen_deliver, blen_file_read,
                blen_ptr_add by lia. lia.
           ++ intros k' t Hk' Ht.
              rewrite byte_at_update_from, byte_at_deliver, blen_file_read,
                byte_at_file_read, byte_at_ptr_add by lia.
              destruct (decide (k' = k)) as [-> | Hne].
              ** cmp; try lia. f_equal. lia.
              ** cmp; try lia. apply Hb3; lia.
        -- intros v' w' H. exact H.
      * intros v3 w3 (Hv3 & Hb3 & H3).
        assert (Hc0 : in_cube n i j 0) by (unfold in_cube; lia).
        pose proof (offset_jik_range i j 0 Hc0) as R0.
        assert (Hrow : 8 * offset_jik n i j 0 + 8 * n2 n ≤ 8 * volume n).
        { pose proof (offset_jik_range i j (n2 n - 1) ltac:(unfold in_cube; lia)) as R.
          rewrite offset_jik_row in R by (unfold in_cube; lia). lia. }
        rewrite byte_offset_exact by done.
        apply post_bind_assoc.
        eapply post_bind.
        { eapply (put_block_ok _ (λ i' j' k', j' < j ∨ (j' = j ∧ i' < i + 1)));
            [exact H3 | lia | lia | lia | lia | done | |].
          - intros q Hq.
            pose proof (Z.div_mod q 8 ltac:(lia)) as Eq.
            pose proof (Z.mod_pos_bound q 8 ltac:(lia)) as Rq.
            assert (Hk : 0 ≤ q / 8 < n2 n).
            { split; [apply Z.div_pos; lia | apply Z.div_lt_upper_bound; lia]. }
            exists i, j, (q / 8), (q mod 8).
            assert (Hc : in_cube n i j (q / 8)) by (unfold in_cube; lia).
            split; [done |]. split; [done |].
            rewrite (offset_jik_row i j (q / 8) Hc). split; [lia |].
            rewrite <- Hb3 by lia. f_equal. lia.
          - simpl. intros i' j' k' Hc' HD'.
            destruct (decide (i' = i ∧ j' = j)) as [(-> & ->) |];
              [right | left; lia].
            rewrite (offset_jik_row i j k' Hc'). unfold in_cube in Hc'. lia. }
        intros ? w4 H4. apply post_ret. done.
    + intros v' w' [? H]. split; [done | by_weakening H].
  - intros v' w' [? H]. by_weakening H.
Qed.

(** Numbering the pairs [(a, b)], [b < B], by [a * B + b]. *)
Lemma pair_index_bound (A B a b : Z) :
  0 ≤ a < A → 0 ≤ b < B → 0 ≤ a * B + b < A * B.
Proof. intros. pose proof (radix_bound 1 A B 0 a b). lia. Qed.

Lemma pair_index_lt (B a b a' b' : Z) :
  0 ≤ b < B → 0 ≤ b' < B →
  a < a' ∨ (a = a' ∧ b < b') → a * B + b < a' * B + b'.
Proof. intros Hb Hb' [H | [-> H]]; [nia | lia]. Qed.

Lemma pair_index_split (A B e : Z) :
  0 < B → 0 ≤ e < A * B →
  0 ≤ e / B < A ∧ 0 ≤ e mod B < B ∧ e = e / B * B + e mod B.
Proof.
  intros HB He.
  pose proof (Z.div_mod e B ltac:(lia)). pose proof (Z.mod_pos_bound e B HB).
  split; [| lia].
  split; [apply Z.div_pos; lia | apply Z.div_lt_upper_bound; nia].
Qed.

Lemma convert_matrix_ok w :
  whole_transfers drv algorithm_matrix n →
  conv_inv (λ _ _ _, False) w →
  post (λ _ w', conv_inv (λ _ _ _, True) w') never (convert_matrix cb rt n w).
Proof.
  intros Hlim H0. destruct Hpos as (P0 & P1 & P2).
  unfold whole_transfers in Hlim. simpl in Hlim.
  pose proof volume_small as Hv. pose proof dims_le_volume as (V0 & V2 & V02).
  set (N2 := n0 n * n2 n) in *.
  unfold convert_matrix, bind at 1. rewrite alloc_ok.
  assert (E1 : umul (umul 8 (n0 n)) (n2 n) = 8 * N2).
  { unfold umul. rewrite (ulong_small (8 * n0 n)) by (unfold ULONG_MOD; lia).
    rewrite ulong_small by (unfold ULONG_MOD, N2 in *; lia). unfold N2. lia. }
  rewrite E1.
  assert (E2 : umul 2 (8 * N2) = 16 * N2).
  { unfold umul. rewrite ulong_small by (unfold ULONG_MOD; lia). lia. }
  rewrite E2.
  assert (E3 : umul (n0 n) (n2 n) = N2).
  { unfold umul. rewrite ulong_small by (unfold ULONG_MOD, N2 in *; lia).
    reflexivity. }
  rewrite E3.
  apply (post_bind (λ _ w', conv_inv (λ _ _ _, True) w')); [| by intros].
  enter_loop (λ j v w, blen v = 16 * N2 ∧ conv_inv (λ i' j' k', j' < j) w).
  - split; [rewrite blen_replicate; lia | by_weakening H0].
  - intros j v1 w1 Hj [Hv1 H1].
    assert (Hc0 : in_cube n 0 j 0) by (unfold in_cube; lia).
    pose proof (offset_jki_range 0 j 0 Hc0) as Rki0.
    pose proof (offset_jik_range 0 j 0 Hc0) as Rik0.
    assert (Hcl : in_cube n (n0 n - 1) j (n2 n - 1)) by (unfold in_cube; lia).
    assert (Hblk : 8 * offset_jki n 0 j 0 + 8 * N2 ≤ 8 * volume n).
    { pose proof (offset_jki_range _ _ _ Hcl) as R.
      rewrite offset_jki_block in R by done. unfold N2. lia. }
    assert (Hblk' : 8 * offset_jik n 0 j 0 + 8 * N2 ≤ 8 * volume n).
    { pose proof (offset_jik_range _ _ _ Hcl) as R.
      rewrite offset_jik_block in R by done. unfold N2. lia. }
    rewrite !byte_offset_exact by done.
    apply post_bind_assoc.
    eapply post_bind;
      [eapply get_block_ok; [exact H1 | lia | lia | lia | done] |].
    intros v2 w2 [-> H2].
    set (v2 := Posix.deliver _ v1).
    assert (Hv2 : blen v2 = 16 * N2).
    { unfold v2. rewrite blen_deliver, blen_file_read by lia. lia. }
    assert (Hf2 : ∀ q, 0 ≤ q < 8 * N2 →
              byte_at v2 q = byte_at inp (8 * offset_jki n 0 j 0 + q)).
    { intros q Hq. unfold v2.
      rewrite byte_at_deliver, blen_file_read, byte_at_file_read by lia.
      cmp; try lia. done. }
    clearbody v2.
    (* the transposition *)
    apply (post_bind (λ v w',
             blen v = 16 * N2 ∧
             (∀ i k t, 0 ≤ i < n0 n → 0 ≤ k < n2 n → 0 ≤ t < 8 →
                byte_at v (8 * (N2 + (i * n2 n + k)) + t) =
                byte_at inp (8 * offset_jki n i j k + t)) ∧
             conv_inv (λ i' j' k', j' < j) w')).
    + enter_loop (λ i v w,
             blen v = 16 * N2 ∧
             (∀ q, 0 ≤ q < 8 * N2 →
                byte_at v q = byte_at inp (8 * offset_jki n 0 j 0 + q)) ∧
             (∀ i' k' t, 0 ≤ i' < i → 0 ≤ k' < n2 n → 0 ≤ t < 8 →
                byte_at v (8 * (N2 + (i' * n2 n + k')) + t) =
                byte_at inp (8 * offset_jki n i' j k' + t)) ∧
             conv_inv (λ i' j' k', j' < j) w).
      * split; [done |]. split; [done |]. split; [intros; lia | done].
      * intros i v3 w3 Hi (Hv3 & Hf3 & Hb3 & H3).
        enter_loop (λ k v w,
             blen v = 16 * N2 ∧
             (∀ q, 0 ≤ q < 8 * N2 →
                byte_at v q = byte_at inp (8 * offset_jki n 0 j 0 + q)) ∧
             (∀ i' k' t, 0 ≤ i' < i ∨ (i' = i ∧ k' < k) → 0 ≤ k' < n2 n →
                0 ≤ t < 8 →
                byte_at v (8 * (N2 + (i' * n2 n + k')) + t) =
                byte_at inp (8 * offset_jki n i' j k' + t)) ∧
             conv_inv (λ i' j' k', j' < j) w).
        -- split; [done |]. split; [done |]. split; [| done].
           intros i' k' t Hd Hk' Ht. apply Hb3; lia.
        -- intros k v4 w4 Hk (Hv4 & Hf4 & Hb4 & H4). apply post_ret.
           pose proof (pair_index_bound (n0 n) (n2 n) i k Hi Hk) as Rd.
           pose proof (pair_index_bound (n2 n) (n0 n) k i Hk Hi) as Rs.
           assert (Ed : transpose_dst n i k = i * n2 n + k).
           { unfold transpose_dst, uadd, umul. fold N2 in Rd.
             assert (0 ≤ i * n2 n) by nia.
             rewrite (ulong_small (i * n2 n)) by (unfold ULONG_MOD; lia).
             rewrite ulong_small by (unfold ULONG_MOD; lia). done. }
           assert (Es : transpose_src n i k = k * n0 n + i).
           { unfold transpose_src, uadd, umul.
             replace (n2 n * n0 n) with N2 in Rs by (unfold N2; lia).
             assert (0 ≤ k * n0 n) by nia.
             rewrite (ulong_small (k * n0 n)) by (unfold ULONG_MOD; lia).
             rewrite ulong_small by (unfold ULONG_MOD; lia). done. }
           rewrite Ed, Es. fold N2 in Rd.
           replace (n2 n * n0 n) with N2 in Rs by (unfold N2; lia).
           assert (Hld : blen (load_double v4 (k * n0 n + i)) = 8)
             by (apply blen_load_double; lia).
           split; [rewrite blen_store_double; lia |].
           split; [| split; [| done]].
           ++ intros q Hq. rewrite byte_at_store_double by lia.
              cmp; try lia. by apply Hf4.
           ++ intros i' k' t Hd Hk' Ht.
              rewrite byte_at_store_double by lia.
              destruct (decide (i' = i ∧ k' = k)) as [[-> ->] | Hne].
              ** cmp; try lia.
                 rewrite byte_at_load_double by lia.
                 cmp; try lia.
                 rewrite Hf4 by lia.
                 rewrite (offset_jki_block i j k) by (unfold in_cube; lia).
                 f_equal. lia.
              ** assert (i' * n2 n + k' < i * n2 n + k)
                   by (apply pair_index_lt; lia).
                 cmp; try lia. apply Hb4; lia.
        -- intros v' w' (? & ? & Hb & ?).
           split; [done |]. split; [done |]. split; [| done].
           intros i' k' t Hd Hk' Ht. apply Hb; lia.
      * intros v' w' (? & ? & Hb & ?). split; [done |]. split; [| done].
        intros. apply Hb; lia.
    + intros v3 w3 (Hv3 & Hb3 & H3).
      apply post_bind_assoc.
      eapply post_bind.
      { eapply (put_block_ok _ (λ i' j' k', j' < j + 1));
          [exact H3 | lia | lia | | lia | done | |].
        - rewrite blen_ptr_add by lia. lia.
        - intros q Hq.
          pose proof (Z.div_mod q 8 ltac:(lia)) as Eq.
          pose proof (Z.mod_pos_bound q 8 ltac:(lia)) as Rq.
          assert (He : 0 ≤ q / 8 < n0 n * n2 n).
          { fold N2. split; [apply Z.div_pos; lia |
                             apply Z.div_lt_upper_bound; lia]. }
          destruct (pair_index_split (n0 n) (n2 n) (q / 8) ltac:(lia) He)
            as (Ri & Rk & Ee).
          exists (q / 8 / n2 n), j, (q / 8 mod n2 n), (q mod 8).
          assert (Hc : in_cube n (q / 8 / n2 n) j (q / 8 mod n2 n))
            by (unfold in_cube; lia).
          split; [done |]. split; [done |].
          rewrite (offset_jik_block _ _ _ Hc). split; [lia |].
          rewrite byte_at_ptr_add by lia. cmp; try lia.
          rewrite <- Hb3 by lia. f_equal. lia.
        - simpl. intros i' j' k' Hc' HD'.
          destruct (decide (j' = j)) as [-> |]; [right | left; lia].
          rewrite (offset_jik_block i' j k' Hc'). unfold in_cube in Hc'.
          pose proof (pair_index_bound (n0 n) (n2 n) i' k' ltac:(lia) ltac:(lia)).
          fold N2 in H. lia. }
      intros ? w4 H4. apply post_ret. done.
  - intros v' w' [? H]. by_weakening H.
Qed.

(** All six algorithms take the state in which nothing is done to a
    state in which everything is. *)
Lemma convert_ok a w :
  whole_transfers drv a n →
  conv_inv (λ _ _ _, False) w →
  post (λ _ w', conv_inv (λ _ _ _, True) w') never (convert cb rt a n w).
Proof.
  destruct a; simpl;
    auto using convert_ijk_map_ok, convert_jki_map_ok, convert_jik_map_ok,
      convert_vector_input_ok, convert_vector_output_ok, convert_matrix_ok.
Qed.

(** *** Opening the two files *)

Lemma data_size_exact :
  umul (umul (umul 8 (n0 n)) (n1 n)) (n2 n) = 8 * volume n.
Proof.
  destruct Hpos as (P0 & P1 & P2).
  pose proof volume_small as Hv. pose proof dims_le_volume as (V0 & V2 & V02).
  assert (0 < n0 n * n1 n ≤ volume n).
  { unfold volume.
    assert (n0 n * n1 n * 1 ≤ n0 n * n1 n * n2 n)
      by (apply Z.mul_le_mono_nonneg_l; lia). lia. }
  unfold umul.
  rewrite (ulong_small (8 * n0 n)) by (unfold ULONG_MOD; lia).
  rewrite (ulong_small (8 * n0 n * n1 n)) by (unfold ULONG_MOD; lia).
  rewrite ulong_small by (unfold ULONG_MOD, volume in *; lia).
  unfold volume. lia.
Qed.

Lemma open_input_ok exact w :
  Posix.fs w !! ip = Some inp →
  (exact = true → blen inp = 8 * volume n) →
  open_input rt cb n exact ip w =
  Ret (8 * volume n) (Posix.set_fh in_fh (Some (Posix.OpenFile ip 0 false)) w).
Proof.
  intros Hin Hex. pose proof (blen_nonneg inp) as Hn.
  unfold open_input, bind, open, stat.
  assert (E : io_open cb in_fh ip true false false w =
              (true, Posix.set_fh in_fh (Some (Posix.OpenFile ip 0 false)) w)).
  { destruct drv; simpl;
      unfold Posix.file_handle_open_fd, Posix.file_handle_open_stream;
      simpl; rewrite Hin; reflexivity. }
  rewrite E. simpl.
  assert (E' : ∀ w', Posix.fs w' = Posix.fs w →
                Posix.in_handle w' = Some (Posix.OpenFile ip 0 false) →
                io_stat cb in_fh w' = (Some (blen inp), w')).
  { intros w' Hfs Hh.
    destruct drv; simpl;
      unfold Posix.file_handle_stat_stream, Posix.file_handle_stat_fd;
      simpl; rewrite Hh; unfold Posix.content_of; simpl; rewrite Hfs, Hin;
      reflexivity. }
  rewrite E' by reflexivity.
  rewrite data_size_exact. unfold check_size.
  rewrite ulong_small by (unfold ULONG_MOD, OFF_MAX in *; lia).
  destruct (Z.ltb_spec (blen inp) (8 * volume n)); [lia |].
  destruct (Z.ltb_spec (8 * volume n) (blen inp)); [| reflexivity].
  destruct exact; [specialize (Hex eq_refl); lia | reflexivity].
Qed.

(** The output file is either absent, or present and opened through the
    descriptor driver. *)
Lemma open_output_ok exact l w :
  (drv = io_driver_stream → Posix.fs w !! op = None) →
  ∃ w', open_output rt cb n exact l op w = Ret tt w' ∧
        Posix.fs w' = <[op := default [] (Posix.fs w !! op)]> (Posix.fs w) ∧
        Posix.in_handle w' = Posix.in_handle w ∧
        Posix.out_handle w' = Some (Posix.OpenFile op 0 true).
Proof.
  intros Hfresh. unfold open_output, bind, open.
  destruct drv; simpl.
  - unfold Posix.file_handle_open_fd.
    destruct (Posix.fs w !! op) as [c |] eqn:E; simpl.
    + eexists. split; [reflexivity |]. simpl.
      split; [by rewrite insert_id | done].
    + eexists. split; [reflexivity |]. simpl. done.
  - unfold Posix.file_handle_open_stream. rewrite (Hfresh eq_refl). simpl.
    eexists. split; [reflexivity |]. simpl. done.
Qed.

(** *** A whole run that converts *)

Lemma main_convert_ok a exact w :
  whole_transfers drv a n →
  Posix.fs w !! ip = Some inp →
  (exact = true → blen inp = 8 * volume n) →
  (drv = io_driver_stream → Posix.fs w !! op = None) →
  out0 = default [] (Posix.fs w !! op) →
  ∃ w' out,
    main Posix.io_driver_callbacks rt
         (Options (Some ip) (Some op) drv exact a false n) w = Ret tt w' ∧
    Posix.fs w' !! op = Some out ∧
    Posix.fs w' !! ip = Some inp ∧
    out_inv (λ _ _ _, True) out.
Proof.
  intros Hlim Hin Hex Hfresh Hout0. destruct Hpos as (P0 & P1 & P2).
  unfold main. simpl.
  destruct (Z.eqb_spec (n0 n) 0); [lia |].
  destruct (Z.eqb_spec (n1 n) 0); [lia |].
  destruct (Z.eqb_spec (n2 n) 0); [lia |]. simpl.
  unfold bind at 1. unfold ret at 1.
  unfold bind at 1. rewrite (open_input_ok exact w Hin Hex).
  set (w1 := Posix.set_fh in_fh _ w).
  destruct (open_output_ok exact (8 * volume n) w1) as (w2 & E2 & Hfs2 & Hih2 & Hoh2).
  { exact Hfresh. }
  unfold bind at 1. rewrite E2.
  assert (Hc : conv_inv (λ _ _ _, False) w2).
  { exists 0, 0, out0. split; [| apply out_inv_start].
    split; [by rewrite Hfs2, lookup_insert_ne |].
    split; [rewrite Hfs2, lookup_insert_eq; simpl; by rewrite Hout0 |].
    split; [rewrite Hih2; simpl; eauto | exact Hoh2]. }
  destruct (post_never _ _ (convert_ok a w2 Hlim Hc))
    as ([] & w3 & E3 & (ipos & opos & out & Hs3 & Hi3)).
  unfold bind at 1. rewrite E3.
  unfold bind, close. simpl.
  eexists _, out. split; [reflexivity |].
  destruct Hs3 as (Hi' & Ho' & _).
  destruct drv; simpl; done.
Qed.

End ConversionOnFiles.

(** * The initialisation on regular files *)

Section Ranges.

Lemma range_0 : range 0 = [].
Proof. reflexivity. Qed.

Lemma range_succ t : 0 ≤ t → range (t + 1) = range t ++ [t].
Proof.
  intros Ht. unfold range.
  replace (Z.to_nat (t + 1)) with (S (Z.to_nat t)) by lia.
  rewrite seq_S, map_app. simpl. by rewrite Z2Nat.id.
Qed.

Lemma flat_map_range_succ {A} (g : Z → list A) t :
  0 ≤ t → flat_map g (range (t + 1)) = flat_map g (range t) ++ g t.
Proof.
  intros Ht. rewrite range_succ, flat_map_app by done. simpl.
  by rewrite app_nil_r.
Qed.

Lemma elem_of_range t n : t ∈ range n → 0 ≤ t < n.
Proof.
  unfold range. intros (x & -> & Hx%elem_of_seq)%list_elem_of_fmap. lia.
Qed.

(** Chunks of one size. *)
Lemma blen_flat_map_range (g : Z → list byte) L n :
  0 ≤ n → (∀ t, 0 ≤ t < n → blen (g t) = L) →
  blen (flat_map g (range n)) = n * L.
Proof.
  intros Hn. pattern n. apply natlike_ind; [| | exact Hn].
  - intros _. reflexivity.
  - intros t Ht IH Hg. unfold Z.succ.
    rewrite flat_map_range_succ, blen_app by done.
    rewrite IH by (intros; apply Hg; lia). rewrite Hg by lia. lia.
Qed.

(** The bytes of chunk [t]. *)
Lemma byte_at_flat_map_range (g : Z → list byte) L n t r :
  0 ≤ t < n → 0 ≤ r < L → (∀ t, 0 ≤ t < n → blen (g t) = L) →
  byte_at (flat_map g (range n)) (t * L + r) = byte_at (g t) r.
Proof.
  intros Ht Hr. assert (Hn : 0 ≤ n) by lia.
  revert Ht. pattern n. apply natlike_ind; [| | exact Hn].
  - lia.
  - intros m Hm IH Ht Hg. unfold Z.succ in *.
    rewrite flat_map_range_succ, byte_at_app by done.
    rewrite (blen_flat_map_range g L m) by (try done; intros; apply Hg; lia).
    destruct (decide (t = m)) as [-> | Hne].
    + cmp; [lia |]. f_equal. lia.
    + assert (t * L + L ≤ m * L) by nia.
      cmp; [| lia]. apply IH; [lia |]. intros; apply Hg; lia.
Qed.

End Ranges.

Section InitOnFiles.

Import Posix.

Variable drv : io_driver_t.
Variable cast : Z → double.
Variable junk : byte.
Variable ip : string.
Variable fs0 : gmap string (list byte).

Local Abbreviation cb := (io_driver_callbacks drv).
Local Abbreviation rt := (posix_libc cast junk).
Local Abbreviation appending := (appending ip fs0).

Lemma file_write_at_end c data :
  file_write c (blen c) data = c ++ data.
Proof.
  unfold file_write, blen. rewrite Nat2Z.id.
  rewrite take_ge, drop_ge by lia.
  replace (length c - length c)%nat with 0%nat by lia. simpl.
  by rewrite app_nil_r.
Qed.

Lemma write_in_ok c buf len w :
  appending c w → 0 < len → len ≤ blen buf → blen c + len ≤ OFF_MAX →
  (drv = io_driver_fd → len ≤ MAX_RW_COUNT) →
  ∃ w', write cb in_fh buf len w = Ret len w' ∧
        appending (c ++ take (Z.to_nat len) buf) w'.
Proof.
  intros (Hc & Hh) Hlen Hbuf Hfit Hlim.
  set (data := take (Z.to_nat len) buf).
  assert (Hl : Z.of_nat (length data) = len).
  { pose proof (blen_take len buf). unfold blen, data in *. lia. }
  assert (Hne : data ≠ []).
  { intros E. rewrite E in Hl. simpl in Hl. lia. }
  unfold write.
  assert (E : io_write cb in_fh buf len w =
              (len, advance in_fh (OpenFile ip (blen c) true) len
                      (set_file ip (c ++ data) w))).
  { rewrite <- file_write_at_end.
    destruct drv; simpl; unfold file_handle_write_stream, file_handle_write_fd;
      simpl; rewrite Hh; rewrite ?Z.min_l by auto; fold data;
      destruct (decide (data = [])); try done;
      unfold do_write; simpl; rewrite Hl; unfold content_of;
      rewrite Hc, lookup_insert_eq; simpl;
      destruct (Z.ltb_spec OFF_MAX (blen c + len)); try lia.
    - reflexivity.
    - by rewrite Z.eqb_refl. }
  rewrite E. eexists. split; [reflexivity |].
  split; simpl.
  - by rewrite Hc, insert_insert_eq.
  - rewrite blen_app. unfold blen at 3. by rewrite Hl.
Qed.

Lemma init_element_ok offset n i j k c w :
  appending c w → blen c + 8 ≤ OFF_MAX →
  post (λ _ w', appending (c ++ element cast (offset n i j k)) w') never
       (init_element cb rt offset n i j k w).
Proof.
  intros Ha Hfit. unfold init_element, bind.
  destruct (write_in_ok c (double_bytes (cast (offset n i j k))) 8 w Ha)
    as (w' & E & Ha');
    [lia | by rewrite blen_double_bytes | lia | unfold MAX_RW_COUNT; lia |].
  simpl. rewrite E. simpl. exact Ha'.
Qed.

(** A loop whose every round appends a chunk of [L] bytes, while its
    locals keep satisfying [J]. *)
Lemma for_ulong_appends {A} (J : A → Prop) (g : Z → list byte) (L : Z)
    (body : Z → A → M world A) bound a c w :
  0 ≤ bound → 0 ≤ L →
  (∀ t, 0 ≤ t < bound → blen (g t) = L) →
  (∀ t a' c' w', 0 ≤ t < bound → J a' → appending c' w' →
                 blen c' + L ≤ OFF_MAX →
                 post (λ a'' w'', J a'' ∧ appending (c' ++ g t) w'') never
                      (body t a' w')) →
  J a → appending c w → blen c + bound * L ≤ OFF_MAX →
  post (λ a' w', J a' ∧ appending (c ++ flat_map g (range bound)) w') never
       (for_ulong bound body a w).
Proof.
  intros Hb HL Hg Hbody HJ Ha Hfit.
  apply (post_for_ulong
           (λ t a' w', J a' ∧ appending (c ++ flat_map g (range t)) w'));
    [done | |].
  - rewrite range_0. simpl. by rewrite app_nil_r.
  - intros t a' w' Ht [HJ' Ha'].
    rewrite flat_map_range_succ, app_assoc by lia.
    apply Hbody; try done.
    rewrite blen_app, (blen_flat_map_range g L t)
      by (try lia; intros; apply Hg; lia).
    nia.
Qed.

(** [for ( t=0; t<bound; t++ ) v[idx t] = g t;] on a buffer whose first
    [base] elements are [pre]. *)
Lemma fill_ok (g : Z → list byte) (idx : Z → Z) pre base bound v0 (w : world) :
  0 ≤ base → 0 ≤ bound →
  blen pre = 8 * base →
  (∀ t, 0 ≤ t < bound → blen (g t) = 8) →
  (∀ t, 0 ≤ t < bound → idx t = base + t) →
  post (λ v w', w' = w ∧
          v = (pre ++ flat_map g (range bound))
                ++ drop (Z.to_nat (8 * (base + bound))) v0) never
       (for_ulong bound (λ t v, ret (store_double v (idx t) (g t)))
                  (pre ++ drop (Z.to_nat (8 * base)) v0) w).
Proof.
  intros Hbase Hbound Hpre Hg Hidx.
  apply (post_for_ulong
           (λ t v w', w' = w ∧
              v = (pre ++ flat_map g (range t))
                    ++ drop (Z.to_nat (8 * (base + t))) v0)); [done | |].
  - split; [done |]. rewrite range_0. simpl.
    by rewrite app_nil_r, Z.add_0_r.
  - intros t v w' Ht [-> ->]. apply post_ret. split; [done |].
    rewrite Hidx by done.
    assert (Hp : blen (pre ++ flat_map g (range t)) = 8 * (base + t)).
    { rewrite blen_app, (blen_flat_map_range g 8 t)
        by (try lia; intros; apply Hg; lia). lia. }
    rewrite flat_map_range_succ by lia.
    apply byte_at_ext. intros q Hq.
    rewrite byte_at_store_double; [| lia | rewrite blen_app; pose proof (blen_nonneg (drop (Z.to_nat (8 * (base + t))) v0)); lia | by apply Hg].
    rewrite !byte_at_app, !blen_app, Hg, (blen_flat_map_range g 8 t)
      by (try lia; intros; apply Hg; lia).
    rewrite Hpre.
    cmp; try lia; try done; try (f_equal; lia).
    rewrite !byte_at_drop by lia. f_equal. lia.
Qed.

(** Three nested loops whose innermost body appends one element. *)
Lemma nest_appends (A B C : Z) (body : Z → Z → Z → M world unit)
    (g : Z → Z → Z → list byte) c w :
  0 ≤ A → 0 ≤ B → 0 ≤ C →
  (∀ x y z, blen (g x y z) = 8) →
  (∀ x y z c' w', appending c' w' → blen c' + 8 ≤ OFF_MAX →
     post (λ _ w'', appending (c' ++ g x y z) w'') never (body x y z w')) →
  appending c w → blen c + A * (B * (C * 8)) ≤ OFF_MAX →
  post (λ _ w', appending (c ++ traversal A B C g) w') never
       (for_ulong A (λ x _,
          for_ulong B (λ y _,
            for_ulong C (λ z _, body x y z) tt) tt) tt w).
Proof.
  intros HA HB HC Hg Hbody Ha Hfit.
  assert (H3 : ∀ x y, blen (flat_map (λ z, g x y z) (range C)) = C * 8).
  { intros. apply blen_flat_map_range; [done | intros; apply Hg]. }
  assert (H2 : ∀ x, blen (flat_map (λ y, flat_map (λ z, g x y z) (range C))
                            (range B)) = B * (C * 8)).
  { intros. apply blen_flat_map_range; [done | intros; apply H3]. }
  eapply post_weaken;
    [apply (for_ulong_appends (λ _, True)
              (λ x, flat_map (λ y, flat_map (λ z, g x y z) (range C)) (range B))
              (B * (C * 8))); try done; try nia | by intros ? ? [_ ?] | done].
  intros x [] c1 w1 Hx _ Ha1 Hf1.
  eapply post_weaken;
    [apply (for_ulong_appends (λ _, True)
              (λ y, flat_map (λ z, g x y z) (range C)) (C * 8));
       try done; try nia | done | done].
  intros y [] c2 w2 Hy _ Ha2 Hf2.
  eapply post_weaken;
    [apply (for_ulong_appends (λ _, True) (λ z, g x y z) 8);
       try done; try lia | done | done].
  intros z [] c3 w3 Hz _ Ha3 Hf3.
  eapply post_weaken; [by apply Hbody | done | done].
Qed.

Variable n : dims.
Hypothesis Hpos : dims_positive n.
Hypothesis Hfit : 8 * volume n ≤ OFF_MAX.

Lemma init_ijk_map_ok c w :
  appending c w → blen c + 8 * volume n ≤ OFF_MAX →
  post (λ _ w', appending (c ++ init_content cast algorithm_ijk_map n) w') never
       (init_ijk_map cb rt n w).
Proof.
  intros Ha Hf. destruct Hpos as (P0 & P1 & P2).
  apply (nest_appends (n0 n) (n1 n) (n2 n)
           (λ i j k, init_element cb rt offset_ijk n i j k)
           (λ i j k, element cast (offset_ijk n i j k))); try done; try lia.
  - intros. by apply init_element_ok.
  - unfold volume in Hf. lia.
Qed.

Lemma init_jki_map_ok c w :
  appending c w → blen c + 8 * volume n ≤ OFF_MAX →
  post (λ _ w', appending (c ++ init_content cast algorithm_jki_map n) w') never
       (init_jki_map cb rt n w).
Proof.
  intros Ha Hf. destruct Hpos as (P0 & P1 & P2).
  apply (nest_appends (n1 n) (n2 n) (n0 n)
           (λ j k i, init_element cb rt offset_jki n i j k)
           (λ j k i, element cast (offset_jki n i j k))); try done; try lia.
  - intros. by apply init_element_ok.
  - unfold volume in Hf. lia.
Qed.

Lemma init_jik_map_ok c w :
  appending c w → blen c + 8 * volume n ≤ OFF_MAX →
  post (λ _ w', appending (c ++ init_content cast algorithm_jik_map n) w') never
       (init_jik_map cb rt n w).
Proof.
  intros Ha Hf. destruct Hpos as (P0 & P1 & P2).
  apply (nest_appends (n0 n) (n1 n) (n2 n)
           (λ i j k, init_element cb rt offset_jik n i j k)
           (λ i j k, element cast (offset_jik n i j k))); try done; try lia.
  - intros. by apply init_element_ok.
  - unfold volume in Hf. lia.
Qed.

(** A buffer of [len] bytes is filled, element by element, and written;
    what [write] returns is not looked at. *)
Lemma fill_and_write_ok (g : Z → list byte) bound c v w :
  0 < bound →
  (∀ t, 0 ≤ t < bound → blen (g t) = 8) →
  blen v = 8 * bound →
  appending c w → blen c + bound * 8 ≤ OFF_MAX →
  (drv = io_driver_fd → 8 * bound ≤ MAX_RW_COUNT) →
  post (λ v' w', blen v' = 8 * bound ∧
                 appending (c ++ flat_map g (range bound)) w') never
       ((let* v := for_ulong bound (λ t v, ret (store_double v t (g t))) v in
         let* n_bytes := write cb in_fh v (8 * bound) in
         ret v) w).
Proof.
  intros Hb Hg Hv Ha Hf Hlim.
  assert (Hl : blen (flat_map g (range bound)) = 8 * bound).
  { rewrite (blen_flat_map_range g 8 bound) by (done || lia). lia. }
  apply (post_bind (λ v' w', w' = w ∧ v' = flat_map g (range bound))).
  { pose proof (fill_ok g (λ t, t) [] 0 bound v w) as H. simpl in H.
    eapply post_weaken; [apply H; try done; lia | | done].
    intros v' w' [-> ->]. split; [done |].
    rewrite drop_ge, app_nil_r by (unfold blen in Hv; lia). done. }
  intros v' w' [-> ->].
  destruct (write_in_ok c (flat_map g (range bound)) (8 * bound) w Ha)
    as (w' & E & Ha'); [lia | lia | lia | done |].
  unfold bind. rewrite E. simpl.
  rewrite take_ge in Ha' by (unfold blen in Hl; lia). done.
Qed.

Lemma init_vector_input_ok c w :
  whole_transfers drv algorithm_vector_input n →
  appending c w → blen c + 8 * volume n ≤ OFF_MAX →
  post (λ _ w', appending (c ++ init_content cast algorithm_vector_input n) w')
       never (init_vector_input cb rt n w).
Proof.
  intros Hlim Ha Hf. destruct Hpos as (P0 & P1 & P2).
  unfold whole_transfers in Hlim. simpl in Hlim.
  pose proof (dims_le_volume n Hpos) as (V0 & V2 & V02).
  unfold init_vector_input, bind at 1. rewrite alloc_ok.
  unfold umul. rewrite ulong_small by (unfold ULONG_MOD, OFF_MAX in *; lia).
  apply (post_bind (λ _ w',
           appending (c ++ init_content cast algorithm_vector_input n) w'));
    [| by intros].
  assert (H3 : ∀ j k, blen (flat_map (λ i, element cast (offset_jki n i j k))
                              (range (n0 n))) = n0 n * 8).
  { intros. apply blen_flat_map_range; [lia | done]. }
  eapply post_weaken;
    [apply (for_ulong_appends (λ v, blen v = 8 * n0 n)
              (λ j, flat_map (λ k, flat_map (λ i, element cast (offset_jki n i j k))
                                     (range (n0 n))) (range (n2 n)))
              (n2 n * (n0 n * 8)));
       try done; try lia | by intros ? ? [_ ?] | done].
  - intros. apply blen_flat_map_range; [lia | intros; apply H3].
  - intros j v1 c1 w1 Hj Hv1 Ha1 Hf1.
    apply (for_ulong_appends (λ v, blen v = 8 * n0 n)
             (λ k, flat_map (λ i, element cast (offset_jki n i j k)) (range (n0 n)))
             (n0 n * 8)); try done; try lia.
    intros k v2 c2 w2 Hk Hv2 Ha2 Hf2.
    apply (fill_and_write_ok (λ i, element cast (offset_jki n i j k)));
      try done; lia.
  - rewrite blen_replicate. lia.
  - unfold volume in Hf. lia.
Qed.

Lemma init_vector_output_ok c w :
  whole_transfers drv algorithm_vector_output n →
  appending c w → blen c + 8 * volume n ≤ OFF_MAX →
  post (λ _ w', appending (c ++ init_content cast algorithm_vector_output n) w')
       never (init_vector_output cb rt n w).
Proof.
  intros Hlim Ha Hf. destruct Hpos as (P0 & P1 & P2).
  unfold whole_transfers in Hlim. simpl in Hlim.
  pose proof (dims_le_volume n Hpos) as (V0 & V2 & V02).
  unfold init_vector_output, bind at 1. rewrite alloc_ok.
  unfold umul. rewrite ulong_small by (unfold ULONG_MOD, OFF_MAX in *; lia).
  apply (post_bind (λ _ w',
           appending (c ++ init_content cast algorithm_vector_output n) w'));
    [| by intros].
  assert (H3 : ∀ j i, blen (flat_map (λ k, element cast (offset_jki n i j k))
                              (range (n2 n))) = n2 n * 8).
  { intros. apply blen_flat_map_range; [lia | done]. }
  eapply post_weaken;
    [apply (for_ulong_appends (λ v, blen v = 8 * n2 n)
              (λ j, flat_map (λ i, flat_map (λ k, element cast (offset_jki n i j k))
                                     (range (n2 n))) (range (n0 n)))
              (n0 n * (n2 n * 8)));
       try done; try lia | by intros ? ? [_ ?] | done].
  - intros. apply blen_flat_map_range; [lia | intros; apply H3].
  - intros j v1 c1 w1 Hj Hv1 Ha1 Hf1.
    apply (for_ulong_appends (λ v, blen v = 8 * n2 n)
             (λ i, flat_map (λ k, element cast (offset_jki n i j k)) (range (n2 n)))
             (n2 n * 8)); try done; try lia.
    intros i v2 c2 w2 Hi Hv2 Ha2 Hf2.
    apply (fill_and_write_ok (λ k, element cast (offset_jki n i j k)));
      try done; lia.
  - rewrite blen_replicate. lia.
  - unfold volume in Hf. lia.
Qed.

Lemma init_matrix_ok c w :
  whole_transfers drv algorithm_matrix n →
  appending c w → blen c + 8 * volume n ≤ OFF_MAX →
  post (λ _ w', appending (c ++ init_content cast algorithm_matrix n) w')
       never (init_matrix cb rt n w).
Proof.
  intros Hlim Ha Hf. destruct Hpos as (P0 & P1 & P2).
  unfold whole_transfers in Hlim. simpl in Hlim.
  pose proof (dims_le_volume n Hpos) as (V0 & V2 & V02).
  set (N2 := n0 n * n2 n) in *.
  unfold init_matrix, bind at 1. rewrite alloc_ok.
  assert (E1 : umul (umul 8 (n0 n)) (n2 n) = 8 * N2).
  { unfold umul.
    rewrite (ulong_small (8 * n0 n)) by (unfold ULONG_MOD, OFF_MAX in *; lia).
    rewrite ulong_small by (unfold ULONG_MOD, OFF_MAX, N2 in *; lia).
    unfold N2. lia. }
  rewrite E1.
  apply (post_bind (λ _ w',
           appending (c ++ init_content cast algorithm_matrix n) w'));
    [| by intros].
  set (g := λ j k i, element cast (offset_jki n i j k)).
  assert (H3 : ∀ j k, blen (flat_map (g j k) (range (n0 n))) = n0 n * 8).
  { intros. apply blen_flat_map_range; [lia | done]. }
  assert (H2 : ∀ j m, 0 ≤ m →
            blen (flat_map (λ k, flat_map (g j k) (range (n0 n))) (range m))
            = m * (n0 n * 8)).
  { intros. apply blen_flat_map_range; [lia | intros; apply H3]. }
  eapply post_weaken;
    [apply (for_ulong_appends (λ v, blen v = 8 * N2)
              (λ j, flat_map (λ k, flat_map (g j k) (range (n0 n))) (range (n2 n)))
              (n2 n * (n0 n * 8)));
       try done; try lia | by intros ? ? [_ ?] | done].
  - intros. apply H2. lia.
  - intros j v1 c1 w1 Hj Hv1 Ha1 Hf1.
    apply (post_bind (λ v' w',
             w' = w1 ∧
             v' = flat_map (λ k, flat_map (g j k) (range (n0 n))) (range (n2 n)))).
    + eapply post_weaken;
        [apply (post_for_ulong
                  (λ k v' w',
                     w' = w1 ∧
                     v' = flat_map (λ k, flat_map (g j k) (range (n0 n))) (range k)
                            ++ drop (Z.to_nat (8 * (k * n0 n))) v1));
           [lia | |] | | done].
      * split; [done |]. by rewrite range_0.
      * intros k v2 w2 Hk [-> ->].
        eapply post_weaken;
          [apply (fill_ok (g j k) (λ i, uadd (umul (n0 n) k) i) _ (k * n0 n));
             try done; try lia | | done].
        -- rewrite H2 by lia. lia.
        -- intros t Ht.
           pose proof (pair_index_bound (n2 n) (n0 n) k t ltac:(lia) ltac:(lia)) as R.
           replace (n2 n * n0 n) with N2 in R by (unfold N2; lia).
           assert (0 ≤ k * n0 n) by nia.
           unfold uadd, umul.
           rewrite (ulong_small (n0 n * k)) by (unfold ULONG_MOD, OFF_MAX in *; lia).
           rewrite ulong_small by (unfold ULONG_MOD, OFF_MAX in *; lia). lia.
        -- intros v' w' [-> ->]. split; [done |].
           rewrite flat_map_range_succ by lia.
           f_equal. f_equal. lia.
      * intros v' w' [-> ->]. split; [done |].
        rewrite drop_ge, app_nil_r; [done |].
        unfold blen, N2 in Hv1. lia.
    + intros v' w' [-> ->].
      assert (Hl : blen (flat_map (λ k, flat_map (g j k) (range (n0 n)))
                           (range (n2 n))) = 8 * N2).
      { rewrite H2 by lia. unfold N2. lia. }
      destruct (write_in_ok c1 _ (8 * N2) w1 Ha1 ltac:(lia) ltac:(rewrite Hl; lia)
                  ltac:(unfold N2; lia) Hlim) as (w' & E & Ha').
      unfold bind. rewrite E. simpl.
      rewrite take_ge in Ha' by (unfold blen in Hl; lia). done.
  - rewrite blen_replicate. lia.
  - unfold volume in Hf. unfold N2. lia.
Qed.

Lemma init_input_ok a c w :
  whole_transfers drv a n →
  appending c w → blen c + 8 * volume n ≤ OFF_MAX →
  post (λ _ w', appending (c ++ init_content cast a n) w') never
       (init_input cb rt a n w).
Proof.
  destruct a; simpl;
    auto using init_ijk_map_ok, init_jki_map_ok, init_jik_map_ok,
      init_vector_input_ok, init_vector_output_ok, init_matrix_ok.
Qed.

(** The whole [if ( should_init_input )] block, up to the [close]. *)
Lemma initialise_ok a w :
  whole_transfers drv a n →
  Posix.fs w = fs0 →
  ∃ w', initialise rt cb a n ip w = Ret tt w' ∧
        Posix.fs w' = <[ip := init_content cast a n]> fs0.
Proof.
  intros Hlim Hfs. unfold initialise.
  assert (Hopen : ∃ w1,
    (let* ok := open cb in_fh ip false true true in
     if ok then ret tt
     else λ w,
       if errno rt w =? EEXIST then
         (let* ok := open cb in_fh ip false false true in
          if ok then ret tt else exit_errno rt err_truncate_input) w
       else exit_errno rt err_create_input w) w = Ret tt w1 ∧
    appending [] w1).
  { unfold bind, open. destruct drv; simpl.
    - unfold file_handle_open_fd.
      destruct (fs w !! ip); simpl; eexists; (split; [reflexivity |]);
        split; simpl; by rewrite ?Hfs.
    - unfold file_handle_open_stream. simpl.
      destruct (fs w !! ip) eqn:E; simpl.
      + eexists; (split; [reflexivity |]); split; simpl; by rewrite ?Hfs.
      + eexists; (split; [reflexivity |]); split; simpl; by rewrite ?Hfs. }
  destruct Hopen as (w1 & E1 & Ha1).
  apply post_bind_assoc_eq. unfold bind at 1. rewrite E1.
  destruct (post_never _ _ (init_input_ok a [] w1 Hlim Ha1
                              ltac:(unfold blen; simpl; lia)))
    as ([] & w2 & E2 & Ha2).
  unfold bind. rewrite E2. unfold close. eexists. split; [reflexivity |].
  destruct Ha2 as [Hf2 _]. destruct drv; simpl; exact Hf2.
Qed.

End InitOnFiles.

(** * Elements of a traversal *)

Section Traversals.

Lemma byte_at_traversal (A B C : Z) (g : Z → Z → Z → list byte) a b c r :
  0 ≤ a < A → 0 ≤ b < B → 0 ≤ c < C → 0 ≤ r < 8 →
  (∀ x y z, 0 ≤ x < A → 0 ≤ y < B → 0 ≤ z < C → blen (g x y z) = 8) →
  byte_at (traversal A B C g) (8 * (a * B * C + b * C + c) + r) = byte_at (g a b c) r.
Proof.
  intros Ha Hb Hc Hr Hg. unfold traversal.
  assert (H3 : ∀ x y, 0 ≤ x < A → 0 ≤ y < B →
            blen (flat_map (λ z, g x y z) (range C)) = C * 8).
  { intros. apply blen_flat_map_range; [lia | intros; by apply Hg]. }
  assert (H2 : ∀ x, 0 ≤ x < A →
            blen (flat_map (λ y, flat_map (λ z, g x y z) (range C)) (range B))
            = B * (C * 8)).
  { intros. apply blen_flat_map_range; [lia | intros; by apply H3]. }
  pose proof (pair_index_bound B C b c Hb Hc) as Rbc.
  replace (8 * (a * B * C + b * C + c) + r)
    with (a * (B * (C * 8)) + (b * (C * 8) + (c * 8 + r))) by lia.
  rewrite (byte_at_flat_map_range _ (B * (C * 8)) A a) by (done || lia).
  rewrite (byte_at_flat_map_range _ (C * 8) B b) by (try done; try lia; intros; by apply H3).
  rewrite (byte_at_flat_map_range _ 8 C c) by (try done; try lia; intros; by apply Hg).
  done.
Qed.

Lemma blen_traversal (A B C : Z) (g : Z → Z → Z → list byte) :
  0 ≤ A → 0 ≤ B → 0 ≤ C →
  (∀ x y z, 0 ≤ x < A → 0 ≤ y < B → 0 ≤ z < C → blen (g x y z) = 8) →
  blen (traversal A B C g) = 8 * (A * B * C).
Proof.
  intros HA HB HC Hg. unfold traversal.
  assert (H3 : ∀ x y, 0 ≤ x < A → 0 ≤ y < B →
            blen (flat_map (λ z, g x y z) (range C)) = C * 8).
  { intros. apply blen_flat_map_range; [lia | intros; by apply Hg]. }
  assert (H2 : ∀ x, 0 ≤ x < A →
            blen (flat_map (λ y, flat_map (λ z, g x y z) (range C)) (range B))
            = B * (C * 8)).
  { intros. apply blen_flat_map_range; [lia | intros; by apply H3]. }
  rewrite (blen_flat_map_range _ (B * (C * 8)) A) by done. lia.
Qed.

End Traversals.

Lemma blen_init_content_jki cast n :
  dims_positive n →
  blen (init_content cast algorithm_jki_map n) = 8 * volume n.
Proof.
  intros (P0 & P1 & P2). unfold volume. simpl.
  rewrite blen_traversal by (done || lia). lia.
Qed.

(** * An initialisation that returns has fitted the file *)

Section InitFits.

Import Posix.

Variable drv : io_driver_t.
Variable cast : Z → double.
Variable junk : byte.
Variable ip : string.
Variable fs0 : gmap string (list byte).

Local Abbreviation cb := (io_driver_callbacks drv).
Local Abbreviation rt := (posix_libc cast junk).

(** [appending], with the file no longer than a file can be. *)
Local Abbreviation within c w := (appending ip fs0 c w ∧ blen c ≤ OFF_MAX).

(** However the process exits. *)
Local Abbreviation any_exit := (λ (_ : diag) (_ : Z) (_ : world), True).

Lemma init_element_fits offset n i j k c w :
  within c w →
  post (λ _ w', within (c ++ element cast (offset n i j k)) w') any_exit
       (init_element cb rt offset n i j k w).
Proof.
  intros [Ha Hc]. unfold init_element, bind.
  destruct (Z.le_gt_cases (blen c + 8) OFF_MAX) as [Hfit | Hbig].
  - destruct (write_in_ok drv ip fs0 c (double_bytes (cast (offset n i j k))) 8 w Ha)
      as (w' & E & Ha');
      [lia | by rewrite blen_double_bytes | lia | unfold MAX_RW_COUNT; lia |].
    simpl. rewrite E. simpl. split; [exact Ha' |].
    rewrite blen_app. unfold element. rewrite blen_double_bytes. lia.
  - destruct Ha as [Hfs Hh].
    assert (E : write cb in_fh (double_bytes (cast (offset n i j k))) 8 w =
                Ret (-1) (set_errno EFBIG w)).
    { unfold write.
      destruct drv; simpl; unfold file_handle_write_stream, file_handle_write_fd;
        simpl; rewrite Hh; unfold do_write; simpl;
        change (Z.of_nat 8) with 8;
        destruct (Z.ltb_spec OFF_MAX (blen c + 8)); try lia; reflexivity. }
    simpl. rewrite E. simpl. done.
Qed.

Lemma for_ulong_fits (g : Z → list byte) (body : Z → unit → M world unit)
    bound c w :
  0 ≤ bound →
  (∀ t c' w', 0 ≤ t < bound → within c' w' →
              post (λ _ w'', within (c' ++ g t) w'') any_exit (body t tt w')) →
  within c w →
  post (λ _ w', within (c ++ flat_map g (range bound)) w') any_exit
       (for_ulong bound body tt w).
Proof.
  intros Hb Hbody Hw.
  apply (post_for_ulong (λ t _ w', within (c ++ flat_map g (range t)) w'));
    [done | |].
  - rewrite range_0. simpl. by rewrite app_nil_r.
  - intros t [] w' Ht Hw'.
    rewrite flat_map_range_succ, app_assoc by lia.
    by apply Hbody.
Qed.

Lemma init_jki_map_fits n c w :
  dims_positive n →
  within c w →
  post (λ _ w', within (c ++ init_content cast algorithm_jki_map n) w') any_exit
       (init_jki_map cb rt n w).
Proof.
  intros (P0 & P1 & P2) Hw. unfold init_jki_map. simpl. unfold traversal.
  apply (for_ulong_fits
           (λ j, flat_map (λ k, flat_map (λ i, element cast (offset_jki n i j k))
                                  (range (n0 n))) (range (n2 n)))); [lia | | done].
  intros j c1 w1 Hj Hw1.
  apply (for_ulong_fits
           (λ k, flat_map (λ i, element cast (offset_jki n i j k)) (range (n0 n))));
    [lia | | done].
  intros k c2 w2 Hk Hw2.
  apply (for_ulong_fits (λ i, element cast (offset_jki n i j k)));
    [lia | | done].
  intros i c3 w3 Hi Hw3. by apply init_element_fits.
Qed.

(** If the [jki_map] initialisation returns, the data fits a file. *)
Lemma initialise_jki_map_fits n w w' :
  dims_positive n →
  fs w = fs0 →
  initialise rt cb algorithm_jki_map n ip w = Ret tt w' →
  8 * volume n ≤ OFF_MAX.
Proof.
  intros Hpos Hfs. unfold initialise.
  assert (Hopen : ∃ w1,
    (let* ok := open cb in_fh ip false true true in
     if ok then ret tt
     else λ w,
       if errno rt w =? EEXIST then
         (let* ok := open cb in_fh ip false false true in
          if ok then ret tt else exit_errno rt err_truncate_input) w
       else exit_errno rt err_create_input w) w = Ret tt w1 ∧
    appending ip fs0 [] w1).
  { unfold bind, open. destruct drv; simpl.
    - unfold file_handle_open_fd.
      destruct (fs w !! ip); simpl; eexists; (split; [reflexivity |]);
        split; simpl; by rewrite ?Hfs.
    - unfold file_handle_open_stream. simpl.
      destruct (fs w !! ip) eqn:E; simpl;
        eexists; (split; [reflexivity |]); split; simpl; by rewrite ?Hfs. }
  destruct Hopen as (w1 & E1 & Ha1).
  apply post_bind_assoc_eq. unfold bind at 1. rewrite E1.
  pose proof (init_jki_map_fits n [] w1 Hpos
                ltac:(split; [done | unfold blen, OFF_MAX; simpl; lia])) as H.
  unfold bind. simpl.
  destruct (init_jki_map cb rt n w1) as [[] w2 | dg st w2]; [| done].
  destruct H as [_ Hl]. intros _.
  change ([] ++ ?x) with x in Hl.
  rewrite (blen_init_content_jki cast n Hpos) in Hl. exact Hl.
Qed.

End InitFits.


(** * Whole runs *)

Section WholeRuns.

Import Posix.

Variable n : dims.
Variables inp out0 : list byte.
Hypothesis Hpos : dims_positive n.
Hypothesis Hinp : 8 * volume n ≤ blen inp.
Hypothesis Hmax : blen inp ≤ OFF_MAX.

(** The output described by [converted] is the one every algorithm
    arrives at. *)
Lemma converted_copied : copied n inp out0 (λ _ _ _, True) (converted n inp out0).
Proof.
  destruct Hpos as (P0 & P1 & P2).
  pose proof (volume_fits n inp Hinp Hmax) as Hv.
  pose proof (blen_nonneg out0) as Hn0.
  assert (Hg : ∀ x y z, 0 ≤ x < n1 n → 0 ≤ y < n0 n → 0 ≤ z < n2 n →
            blen (load_double inp (offset_jki n y x z)) = 8).
  { intros j i k Hj Hi Hk.
    assert (Hc : in_cube n i j k) by (unfold in_cube; lia).
    pose proof (offset_jki_range n inp Hpos Hinp Hmax i j k Hc).
    apply blen_load_double; lia. }
  assert (Ht : blen (traversal (n1 n) (n0 n) (n2 n)
                       (λ j i k, load_double inp (offset_jki n i j k)))
               = 8 * volume n).
  { rewrite blen_traversal by (done || lia). unfold volume. lia. }
  unfold converted. split; [| split].
  - rewrite blen_app, Ht, blen_drop by (unfold volume; nia). lia.
  - intros q Hq. rewrite byte_at_app, Ht.
    destruct (Z.ltb_spec q (8 * volume n)); [lia |].
    rewrite byte_at_drop by (unfold volume in *; nia). f_equal. lia.
  - intros i j k t Hc _ Ht8.
    pose proof (offset_jik_range n inp Hpos Hinp Hmax i j k Hc) as Rik.
    pose proof (offset_jki_range n inp Hpos Hinp Hmax i j k Hc) as Rki.
    rewrite byte_at_app, Ht.
    destruct (Z.ltb_spec (8 * offset_jik n i j k + t) (8 * volume n)); [| lia].
    rewrite (offset_jik_exact n Hv i j k Hc).
    destruct Hc as (Hi & Hj & Hk).
    rewrite (byte_at_traversal (n1 n) (n0 n) (n2 n)) by done.
    rewrite byte_at_load_double by lia.
    cmp; try lia. done.
Qed.

End WholeRuns.

Section MainShapes.

Context {W : Type}.
Variable cbs : io_driver_t → file_handle_callbacks W.
Variable rt : libc W.

(** A run that initialises is the initialisation followed by a run that
    does not. *)
Lemma main_after_init input output drv exact a n w :
  n0 n ≠ 0 → n1 n ≠ 0 → n2 n ≠ 0 →
  main cbs rt (Options (Some input) (Some output) drv exact a true n) w =
  match initialise rt (cbs drv) a n input w with
  | Ret _ w1 =>
      main cbs rt (Options (Some input) (Some output) drv exact a false n) w1
  | Exit d s w1 => Exit d s w1
  end.
Proof.
  intros H0 H1 H2. unfold main. simpl.
  destruct (Z.eqb_spec (n0 n) 0); [done |].
  destruct (Z.eqb_spec (n1 n) 0); [done |].
  destruct (Z.eqb_spec (n2 n) 0); [done |]. simpl.
  unfold bind at 1. unfold bind at 1.
  destruct (initialise rt (cbs drv) a n input w); reflexivity.
Qed.

(** A run that only initialises. *)
Lemma main_init_only input drv exact a n w :
  n0 n ≠ 0 → n1 n ≠ 0 → n2 n ≠ 0 →
  main cbs rt (Options (Some input) None drv exact a true n) w =
  match initialise rt (cbs drv) a n input w with
  | Ret _ w1 => Exit init_only 0 w1
  | Exit d s w1 => Exit d s w1
  end.
Proof.
  intros H0 H1 H2. unfold main. simpl.
  destruct (Z.eqb_spec (n0 n) 0); [done |].
  destruct (Z.eqb_spec (n1 n) 0); [done |].
  destruct (Z.eqb_spec (n2 n) 0); [done |]. simpl.
  unfold bind at 1. unfold bind at 1.
  destruct (initialise rt (cbs drv) a n input w); reflexivity.
Qed.

End MainShapes.

Section Results.

Import Posix.

Variable drv : io_driver_t.
Variable cast : Z → double.
Variable junk : byte.

Local Abbreviation rt := (posix_libc cast junk).

(** A converting run ends with [converted] in the output file. *)
Lemma main_convert_result n exact input output inp a w :
  dims_positive n →
  fs w !! input = Some inp →
  8 * volume n ≤ blen inp → blen inp ≤ OFF_MAX →
  (exact = true → blen inp = 8 * volume n) →
  input ≠ output →
  (drv = io_driver_stream → fs w !! output = None) →
  whole_transfers drv a n →
  ∃ w', main io_driver_callbacks rt
             (Options (Some input) (Some output) drv exact a false n) w = Ret tt w' ∧
        fs w' !! output = Some (converted n inp (default [] (fs w !! output))) ∧
        fs w' !! input = Some inp.
Proof.
  intros Hpos Hin Hsz Hmax Hex Hne Hfresh Hlim.
  destruct (main_convert_ok drv cast junk input output Hne n inp _
              Hpos Hsz Hmax a exact w Hlim Hin Hex Hfresh eq_refl)
    as (w' & out & E & Ho & Hi & Hc).
  exists w'. split; [exact E |]. split; [| exact Hi].
  rewrite Ho. f_equal.
  eapply out_inv_unique; eauto using converted_copied.
Qed.

(** An element of a buffer, given by its bytes. *)
Lemma load_double_is v o d :
  0 ≤ o → blen d = 8 →
  (∀ t, 0 ≤ t < 8 → byte_at v (8 * o + t) = byte_at d t) →
  load_double v o = d.
Proof.
  intros Ho Hd H. apply byte_at_ext. intros q Hq.
  rewrite byte_at_load_double by done.
  cmp; try lia; [by apply H |].
  symmetry. apply byte_at_None. lia.
Qed.

(** After the [jki_map] initialisation, position [p] holds the value [p]. *)
Lemma init_content_jki_at n i j k :
  dims_positive n → volume n ≤ ULONG_MOD → in_cube n i j k →
  load_double (init_content cast algorithm_jki_map n) (offset_jki n i j k)
  = element cast (offset_jki n i j k).
Proof.
  intros Hpos Hv Hc. pose proof Hc as (Hi & Hj & Hk).
  pose proof (offset_jki_enumerates n Hpos Hv) as [Hr _].
  specialize (Hr i j k Hc).
  apply load_double_is; [lia | done |].
  intros t Ht. simpl.
  rewrite (offset_jki_exact n Hv i j k Hc) at 1.
  by rewrite (byte_at_traversal (n1 n) (n2 n) (n0 n)
                (λ j k i, element cast (offset_jki n i j k))).
Qed.

Lemma blen_init_content a n :
  dims_positive n → blen (init_content cast a n) = 8 * volume n.
Proof.
  intros (P0 & P1 & P2). unfold volume.
  destruct a; simpl; rewrite blen_traversal by (done || lia); lia.
Qed.

(** Initialising and converting with [jki_map], when the data fits. *)
Lemma round_trip_when_fits n exact input output w :
  dims_positive n →
  8 * volume n ≤ OFF_MAX →
  input ≠ output →
  (drv = io_driver_stream → fs w !! output = None) →
  ∃ w' inp out,
    main io_driver_callbacks rt
         (Options (Some input) (Some output) drv exact algorithm_jki_map true n) w
    = Ret tt w' ∧
    fs w' !! input = Some inp ∧
    fs w' !! output = Some out ∧
    (∀ p, 0 ≤ p < volume n → load_double inp p = element cast p) ∧
    (∀ i j k, in_cube n i j k →
       load_double out (offset_jik n i j k) = element cast (offset_jki n i j k)).
Proof.
  intros Hpos Hfit Hne Hfresh. pose proof Hpos as (P0 & P1 & P2).
  assert (Hv : volume n ≤ ULONG_MOD) by (unfold OFF_MAX, ULONG_MOD in *; lia).
  rewrite main_after_init by lia.
  assert (Hlim : whole_transfers drv algorithm_jki_map n)
    by (intros _; unfold MAX_RW_COUNT; simpl; lia).
  destruct (initialise_ok drv cast junk input (fs w) n Hpos Hfit
              algorithm_jki_map w Hlim eq_refl) as (w1 & E1 & Hfs1).
  rewrite E1.
  set (inp := init_content cast algorithm_jki_map n) in *.
  assert (Hl : blen inp = 8 * volume n) by by apply blen_init_content.
  assert (Hin1 : fs w1 !! input = Some inp)
    by by rewrite Hfs1, lookup_insert_eq.
  assert (Hout1 : fs w1 !! output = fs w !! output)
    by by rewrite Hfs1, lookup_insert_ne.
  destruct (main_convert_ok drv cast junk input output Hne n inp
              (default [] (fs w1 !! output)) Hpos ltac:(lia) ltac:(lia)
              algorithm_jki_map exact w1 Hlim Hin1 ltac:(done)
              ltac:(rewrite Hout1; exact Hfresh) eq_refl)
    as (w2 & out & E2 & Ho2 & Hi2 & (_ & _ & H3)).
  exists w2, inp, out.
  split; [exact E2 |]. split; [exact Hi2 |]. split; [exact Ho2 |]. split.
  - intros p Hp.
    destruct (offset_jki_enumerates n Hpos Hv) as [_ Hs].
    destruct (Hs p Hp) as (i & j & k & Hc & <- & _).
    by apply init_content_jki_at.
  - intros i j k Hc.
    destruct (offset_jik_enumerates n Hpos Hv) as [Hr _].
    specialize (Hr i j k Hc).
    destruct (offset_jki_enumerates n Hpos Hv) as [Hr' _].
    specialize (Hr' i j k Hc).
    apply load_double_is; [lia | done |].
    intros t Ht. rewrite H3 by done.
    rewrite <- (init_content_jki_at n i j k Hpos Hv Hc).
    rewrite byte_at_load_double by lia.
    cmp; try lia. done.
Qed.

End Results.

(** * Transfers that the descriptor driver cuts short *)

Section ShortTransfers.

Import Posix.

Variable cast : Z → double.
Variable junk : byte.
Variables ip op : string.
Hypothesis Hpaths : ip ≠ op.

Local Abbreviation cb := (io_driver_callbacks io_driver_fd).
Local Abbreviation rt := (posix_libc cast junk).
Local Abbreviation conv_state := (files_open ip op).

(** The limit is used as a number [M] of which the proofs know the sign
    only. *)
Variable M : Z.
Hypothesis HM : MAX_RW_COUNT = M.




Variable n : dims.
Variable inp : list byte.
Hypothesis Hpos : dims_positive n.
Hypothesis Hone : n1 n = 1.
Hypothesis Hinp : 8 * volume n ≤ blen inp.
Hypothesis Hmax : blen inp ≤ OFF_MAX.
Hypothesis Hbig : M < transfer_size algorithm_matrix n.



End ShortTransfers.

(** * The calls a conversion makes, whatever the driver does *)

Section Traces.

Context {W : Type}.
Variable d : file_handle_callbacks W.
Variable rt : libc W.
Variable n : dims.

Local Abbreviation cbl := (Logging.callbacks d).
Local Abbreviation rtl := (Logging.runtime rt).

Lemma addressable_fits : addressable n → volume n ≤ ULONG_MOD.
Proof. intros [_ H]. unfold OFF_MAX, ULONG_MOD in *. lia. Qed.

Lemma byte_offset_addressable o :
  addressable n → 0 ≤ o < volume n → byte_offset o = 8 * o.
Proof.
  intros [_ H] Ho.
  apply (byte_offset_exact n (replicate (Z.to_nat (8 * volume n)) x00));
    rewrite ?blen_replicate; lia.
Qed.

Lemma traced_seek fh fp dg (s : Logging.logged W) :
  trace_inv n s.2 →
  match fh with
  | in_fh => dg = err_seek_input
  | out_fh => dg = err_seek_output ∧
              (addressable n → ∃ o, 0 ≤ o < volume n ∧ fp = 8 * o)
  end →
  post (λ _ s', trace_inv n s'.2 ∧ (fh = out_fh → pending_out_seek s'.2 = Some fp))
       (trace_exit rt n) (seek_or_exit cbl rtl fh fp dg s).
Proof.
  destruct s as [w log]. intros [Hs Ho] Hfh.
  unfold seek_or_exit, bind, seek. simpl.
  destruct (io_seek d fh fp w) as [r w']. simpl.
  assert (Ho' : addressable n →
                out_calls_ok n (Logging.call_seek fh fp r :: log)).
  { intros Ha. split; [| auto]. destruct fh; [done | by apply Hfh]. }
  destruct (Z.ltb_spec r 0); simpl.
  - split; [done |]. right. eexists _, _. split; [reflexivity |].
    split; [done |]. destruct fh; simpl; intuition.
  - split; [split; [by constructor | done] |]. by intros ->.
Qed.

Lemma traced_read buf len (s : Logging.logged W) :
  trace_inv n s.2 →
  post (λ _ s', trace_inv n s'.2) (trace_exit rt n)
       (read_or_exit cbl rtl buf len s).
Proof.
  destruct s as [w log]. intros [Hs Ho].
  unfold read_or_exit, bind, read. simpl.
  destruct (io_read d in_fh buf len w) as [[r buf'] w']. simpl.
  assert (Ho' : addressable n →
                out_calls_ok n (Logging.call_read in_fh len r :: log)).
  { intros Ha. split; [done | auto]. }
  destruct (Z.leb_spec r 0); simpl.
  - destruct (Z.eqb_spec r 0); simpl.
    + split; [done |]. right. eexists _, _. split; [reflexivity |].
      split; [done |]. left. done.
    + split; [done |]. right. eexists _, _. split; [reflexivity |].
      split; [done |]. right. repeat split; lia.
  - split; [by constructor | done].
Qed.

Lemma traced_write buf len fp (s : Logging.logged W) :
  trace_inv n s.2 →
  pending_out_seek s.2 = Some fp →
  (addressable n → fp + len ≤ 8 * volume n) →
  post (λ _ s', trace_inv n s'.2) (trace_exit rt n)
       (write_or_exit cbl rtl buf len s).
Proof.
  destruct s as [w log]. intros [Hs Ho] Hp Hfit.
  unfold write_or_exit, bind, write. simpl.
  destruct (io_write d out_fh buf len w) as [r w']. simpl.
  assert (Ho' : addressable n →
                out_calls_ok n (Logging.call_write out_fh len r :: log)).
  { intros Ha. split; [| auto]. exists fp. auto. }
  destruct (Z.leb_spec r 0); simpl.
  - split; [done |]. right. eexists _, _. split; [reflexivity |].
    split; [done |]. done.
  - split; [by constructor | done].
Qed.

(** Seek on the output file, then write. *)
Lemma traced_put fp buf len (s : Logging.logged W) :
  trace_inv n s.2 →
  (addressable n → ∃ o, 0 ≤ o < volume n ∧ fp = 8 * o) →
  (addressable n → fp + len ≤ 8 * volume n) →
  post (λ _ s', trace_inv n s'.2) (trace_exit rt n)
       ((let* _ := seek_or_exit cbl rtl out_fh fp err_seek_output in
         write_or_exit cbl rtl buf len) s).
Proof.
  intros Hs Hfp Hlen.
  eapply post_bind; [by apply traced_seek |].
  intros ? s' [Hs' Hp]. by apply (traced_write buf len fp); auto.
Qed.

(** Seek on the input file, then read. *)
Lemma traced_get fp buf len (s : Logging.logged W) :
  trace_inv n s.2 →
  post (λ _ s', trace_inv n s'.2) (trace_exit rt n)
       ((let* _ := seek_or_exit cbl rtl in_fh fp err_seek_input in
         read_or_exit cbl rtl buf len) s).
Proof.
  intros Hs.
  eapply post_bind; [by apply traced_seek |].
  intros ? s' [Hs' _]. by apply traced_read.
Qed.

Lemma element_offset_ok i j k :
  in_cube n i j k → addressable n →
  ∃ o, 0 ≤ o < volume n ∧ byte_offset (offset_jik n i j k) = 8 * o.
Proof.
  intros Hc Ha. pose proof Ha as [Hpos _].
  pose proof (offset_jik_enumerates n Hpos (addressable_fits Ha)) as [Hr _].
  specialize (Hr i j k Hc).
  exists (offset_jik n i j k). split; [done |].
  by apply byte_offset_addressable.
Qed.

Lemma traced_copy_element i j k (s : Logging.logged W) :
  in_cube n i j k →
  trace_inv n s.2 →
  post (λ _ s', trace_inv n s'.2) (trace_exit rt n)
       (copy_element cbl rtl n i j k s).
Proof.
  intros Hc Hs. unfold copy_element.
  apply post_bind_assoc.
  eapply post_bind; [by apply traced_get |].
  intros v s' Hs'.
  apply traced_put; [done | by apply element_offset_ok |].
  intros Ha. destruct (element_offset_ok i j k Hc Ha) as (o & Ho & ->). lia.
Qed.

Local Abbreviation traced := (λ (_ : unit) (s : Logging.logged W), trace_inv n s.2).

Ltac unit_loop :=
  apply (post_for_ulong_const (λ (_ : unit) (s : Logging.logged W), trace_inv n s.2));
  [done |].

Lemma traced_convert_ijk_map (s : Logging.logged W) :
  trace_inv n s.2 →
  post traced (trace_exit rt n) (convert_ijk_map cbl rtl n s).
Proof.
  intros Hs. unfold convert_ijk_map.
  unit_loop. intros i [] s1 Hi H1.
  unit_loop. intros j [] s2 Hj H2.
  unit_loop. intros k [] s3 Hk H3.
  by apply traced_copy_element.
Qed.

Lemma traced_convert_jki_map (s : Logging.logged W) :
  trace_inv n s.2 →
  post traced (trace_exit rt n) (convert_jki_map cbl rtl n s).
Proof.
  intros Hs. unfold convert_jki_map.
  unit_loop. intros j [] s1 Hj H1.
  unit_loop. intros k [] s2 Hk H2.
  unit_loop. intros i [] s3 Hi H3.
  by apply traced_copy_element.
Qed.

Lemma traced_convert_jik_map (s : Logging.logged W) :
  trace_inv n s.2 →
  post traced (trace_exit rt n) (convert_jik_map cbl rtl n s).
Proof.
  intros Hs. unfold convert_jik_map.
  unit_loop. intros j [] s1 Hj H1.
  unit_loop. intros i [] s2 Hi H2.
  unit_loop. intros k [] s3 Hk H3.
  by apply traced_copy_element.
Qed.

(** The allocation either exits with [ENOMEM] or hands out a block. *)
Lemma traced_alloc {B} size (k : list byte → M (Logging.logged W) B)
    (P : B → Logging.logged W → Prop) (s : Logging.logged W) :
  trace_inv n s.2 →
  (∀ v, post P (trace_exit rt n) (k v s)) →
  post P (trace_exit rt n)
       ((let* v := alloc rtl size in
         match v with
         | None => exit err_alloc ENOMEM
         | Some v => k v
         end) s).
Proof.
  intros [Hs Ho] Hk. unfold bind, alloc.
  destruct (malloc rtl size s); simpl; [apply Hk |].
  split; [done |]. left. done.
Qed.

Local Abbreviation traced_buf :=
  (λ (_ : list byte) (s : Logging.logged W), trace_inv n s.2).

Ltac buf_loop :=
  apply (post_for_ulong_const
           (λ (_ : list byte) (s : Logging.logged W), trace_inv n s.2));
  [done |].

Lemma traced_convert_vector_input (s : Logging.logged W) :
  trace_inv n s.2 →
  post traced (trace_exit rt n) (convert_vector_input cbl rtl n s).
Proof.
  intros Hs. unfold convert_vector_input.
  apply traced_alloc; [done |]. intros v.
  apply (post_bind traced_buf); [| by intros].
  buf_loop. intros j v1 s1 Hj H1.
  buf_loop. intros k v2 s2 Hk H2.
  apply post_bind_assoc.
  eapply post_bind; [by apply traced_get |].
  intros v3 s3 H3.
  apply (post_bind traced); [| by intros].
  unit_loop. intros i [] s4 Hi H4.
  assert (Hc : in_cube n i j k) by done.
  apply traced_put; [done | by apply element_offset_ok |].
  intros Ha. destruct (element_offset_ok i j k Hc Ha) as (o & Ho & ->). lia.
Qed.

Lemma traced_convert_vector_output (s : Logging.logged W) :
  trace_inv n s.2 →
  post traced (trace_exit rt n) (convert_vector_output cbl rtl n s).
Proof.
  intros Hs. unfold convert_vector_output.
  apply traced_alloc; [done |]. intros v.
  apply (post_bind traced_buf); [| by intros].
  buf_loop. intros j v1 s1 Hj H1.
  buf_loop. intros i v2 s2 Hi H2.
  apply (post_bind traced_buf).
  - buf_loop. intros k v3 s3 Hk H3.
    apply post_bind_assoc.
    eapply post_bind; [by apply traced_get |].
    by intros.
  - intros v3 s3 H3.
    apply post_bind_assoc.
    apply (post_bind traced); [| by intros].
    assert (Hrow : addressable n →
              in_cube n i j 0 ∧ umul 8 (n2 n) = 8 * n2 n ∧
              8 * offset_jik n i j 0 + 8 * n2 n ≤ 8 * volume n).
    { intros Ha. pose proof Ha as [Hpos Hfit]. pose proof Hpos as (P0 & P1 & P2).
      pose proof (addressable_fits Ha) as Hv.
      pose proof (dims_le_volume n Hpos) as (V0 & V2 & V02).
      assert (Hcl : in_cube n i j (n2 n - 1)) by (unfold in_cube; lia).
      pose proof (offset_jik_enumerates n Hpos Hv) as [Hr _].
      pose proof (Hr _ _ _ Hcl) as R.
      rewrite (offset_jik_exact n Hv _ _ _ Hcl) in R.
      assert (Hc0 : in_cube n i j 0) by (unfold in_cube; lia).
      rewrite (offset_jik_exact n Hv _ _ _ Hc0).
      split; [done |]. split; [| lia].
      unfold umul. apply ulong_small. unfold OFF_MAX, ULONG_MOD in *. lia. }
    apply traced_put; [done | |].
    + intros Ha. destruct (Hrow Ha) as (Hc0 & _). by apply element_offset_ok.
    + intros Ha. destruct (Hrow Ha) as (Hc0 & -> & Hle).
      destruct (element_offset_ok i j 0 Hc0 Ha) as (o & Ho & E).
      rewrite byte_offset_addressable; [lia | done |].
      pose proof Ha as [Hpos _].
      by apply (offset_jik_enumerates n Hpos (addressable_fits Ha)).
Qed.

Lemma traced_convert_matrix (s : Logging.logged W) :
  trace_inv n s.2 →
  post traced (trace_exit rt n) (convert_matrix cbl rtl n s).
Proof.
  intros Hs. unfold convert_matrix.
  apply traced_alloc; [done |]. intros v.
  apply (post_bind traced_buf); [| by intros].
  buf_loop. intros j v1 s1 Hj H1.
  apply post_bind_assoc.
  eapply post_bind; [by apply traced_get |].
  intros v2 s2 H2.
  apply (post_bind traced_buf).
  - buf_loop. intros i v3 s3 Hi H3.
    buf_loop. intros k v4 s4 Hk H4.
    by apply post_ret.
  - intros v3 s3 H3.
    apply post_bind_assoc.
    apply (post_bind traced); [| by intros].
    assert (Hblk : addressable n →
              in_cube n 0 j 0 ∧
              umul (umul 8 (n0 n)) (n2 n) = 8 * (n0 n * n2 n) ∧
              8 * offset_jik n 0 j 0 + 8 * (n0 n * n2 n) ≤ 8 * volume n).
    { intros Ha. pose proof Ha as [Hpos Hfit]. pose proof Hpos as (P0 & P1 & P2).
      pose proof (addressable_fits Ha) as Hv.
      pose proof (dims_le_volume n Hpos) as (V0 & V2 & V02).
      assert (Hcl : in_cube n (n0 n - 1) j (n2 n - 1)) by (unfold in_cube; lia).
      pose proof (offset_jik_enumerates n Hpos Hv) as [Hr _].
      pose proof (Hr _ _ _ Hcl) as R.
      rewrite (offset_jik_exact n Hv _ _ _ Hcl) in R.
      assert (Hc0 : in_cube n 0 j 0) by (unfold in_cube; lia).
      rewrite (offset_jik_exact n Hv _ _ _ Hc0).
      split; [done |]. split; [| lia].
      unfold umul.
      rewrite (ulong_small (8 * n0 n)) by (unfold OFF_MAX, ULONG_MOD in *; lia).
      rewrite ulong_small by (unfold OFF_MAX, ULONG_MOD in *; lia). lia. }
    apply traced_put; [done | |].
    + intros Ha. destruct (Hblk Ha) as (Hc0 & _). by apply element_offset_ok.
    + intros Ha. destruct (Hblk Ha) as (Hc0 & -> & Hle).
      rewrite byte_offset_addressable; [lia | done |].
      pose proof Ha as [Hpos _].
      by apply (offset_jik_enumerates n Hpos (addressable_fits Ha)).
Qed.

Lemma traced_convert a (s : Logging.logged W) :
  trace_inv n s.2 →
  post traced (trace_exit rt n) (convert cbl rtl a n s).
Proof.
  destruct a; simpl;
    auto using traced_convert_ijk_map, traced_convert_jki_map,
      traced_convert_jik_map, traced_convert_vector_input,
      traced_convert_vector_output, traced_convert_matrix.
Qed.

(** The element-wise initialisations check their writes as well. *)
Lemma traced_init_element offset i j k (s : Logging.logged W) :
  trace_inv n s.2 →
  post traced (trace_exit rt n) (init_element cbl rtl offset n i j k s).
Proof.
  destruct s as [w log]. intros [Hs Ho].
  unfold init_element, bind, write. simpl.
  destruct (io_write d in_fh _ 8 w) as [r w']. simpl.
  assert (Ho' : addressable n →
                out_calls_ok n (Logging.call_write in_fh 8 r :: log)).
  { intros Ha. split; [done | auto]. }
  destruct (Z.leb_spec r 0); simpl.
  - split; [done |]. right. eexists _, _. split; [reflexivity |].
    split; [done |]. done.
  - split; [by constructor | done].
Qed.

Lemma traced_init_map a (s : Logging.logged W) :
  a = algorithm_ijk_map ∨ a = algorithm_jki_map ∨ a = algorithm_jik_map →
  trace_inv n s.2 →
  post traced (trace_exit rt n) (init_input cbl rtl a n s).
Proof.
  intros [-> | [-> | ->]] Hs; simpl;
    unfold init_ijk_map, init_jki_map, init_jik_map;
    (unit_loop; intros ? [] ? ? ?);
    (unit_loop; intros ? [] ? ? ?);
    (unit_loop; intros ? [] ? ? ?);
    by apply traced_init_element.
Qed.

End Traces.


(** * The layout model *)

(** C2, as amended.  For positive dimensions whose product does not
    exceed the range of [unsigned long], each of [offset_ijk],
    [offset_jki] and [offset_jik] maps the index cube one-to-one onto
    [[0, n0*n1*n2)]: every value of the range is the offset of exactly one
    index triple. *)
Theorem offsets_enumerate_once (n : dims) :
  dims_positive n → volume n ≤ ULONG_MOD →
  enumerates_once n (offset_ijk n) ∧
  enumerates_once n (offset_jki n) ∧
  enumerates_once n (offset_jik n).
Proof.
  intros Hpos Hfit.
  split; [| split].
  - by apply offset_ijk_enumerates.
  - by apply offset_jki_enumerates.
  - by apply offset_jik_enumerates.
Qed.

Lemma offsets_enumerate_once_witness :
  enumerates_once (Dims 2 3 4) (offset_ijk (Dims 2 3 4)) ∧
  enumerates_once (Dims 2 3 4) (offset_jki (Dims 2 3 4)) ∧
  enumerates_once (Dims 2 3 4) (offset_jik (Dims 2 3 4)).
Proof.
  apply (offsets_enumerate_once (Dims 2 3 4)).
  - unfold dims_positive, ULONG_MOD. simpl. lia.
  - unfold volume, ULONG_MOD. simpl. lia.
Defined.

(** C2 as stated fails once the products wrap around: with dimensions
    [(2^32, 2^32, 2)] the index triples [(0,0,0)] and [(2^31,0,0)] (for
    [offset_ijk]), respectively [(0,0,0)] and [(0,2^31,0)] (for
    [offset_jki] and [offset_jik]), both get offset [0]. *)
Lemma offsets_collide_after_wrap_around :
  let n := Dims (2 ^ 32) (2 ^ 32) 2 in
  dims_positive n ∧
  ¬ enumerates_once n (offset_ijk n) ∧
  ¬ enumerates_once n (offset_jki n) ∧
  ¬ enumerates_once n (offset_jik n).
Proof.
  intros n.
  assert (Hc0 : in_cube n 0 0 0) by (unfold in_cube, n; simpl; lia).
  assert (Hci : in_cube n (2 ^ 31) 0 0) by (unfold in_cube, n; simpl; lia).
  assert (Hcj : in_cube n 0 (2 ^ 31) 0) by (unfold in_cube, n; simpl; lia).
  assert (Hv : 0 ≤ 0 < volume n) by (unfold volume, n; simpl; lia).
  split; [unfold dims_positive, ULONG_MOD, n; simpl; lia |].
  split; [| split]; intros [_ Hs];
    destruct (Hs 0 Hv) as (i & j & k & _ & _ & Hu).
  - pose proof (Hu 0 0 0 Hc0 eq_refl) as (E0 & _).
    pose proof (Hu (2 ^ 31) 0 0 Hci eq_refl) as (E1 & _). lia.
  - pose proof (Hu 0 0 0 Hc0 eq_refl) as (_ & E0 & _).
    pose proof (Hu 0 (2 ^ 31) 0 Hcj eq_refl) as (_ & E1 & _). lia.
  - pose proof (Hu 0 0 0 Hc0 eq_refl) as (_ & E0 & _).
    pose proof (Hu 0 (2 ^ 31) 0 Hcj eq_refl) as (_ & E1 & _). lia.
Qed.

(** * The six conversion algorithms *)




(** * The initialisation *)

(** C3, as amended.  For positive dimensions whose [8*n0*n1*n2] bytes fit
    a file, and a variant whose writes the driver moves whole, a run that
    only initialises the input file returns with [exit(0)] and leaves in
    the file, for each step of the traversal of the chosen variant, the
    value stored at its coordinate [(i,j,k)]: [offset_ijk(i,j,k)] for
    [ijk_map], [offset_jik(i,j,k)] for [jik_map], and [offset_jki(i,j,k)]
    for [jki_map], [vector_input], [vector_output] and [matrix], each
    converted to [double]. *)
Theorem initialisation_seeds
    (drv : io_driver_t) (cast : Z → double) (junk : byte)
    (a : algorithm_t) (n : dims) (exact : bool) (input : string)
    (w : Posix.world) :
  dims_positive n →
  8 * volume n ≤ OFF_MAX →
  whole_transfers drv a n →
  ∃ w',
    main Posix.io_driver_callbacks (Posix.posix_libc cast junk)
         (Options (Some input) None drv exact a true n) w
    = Exit init_only 0 w' ∧
    Posix.fs w' !! input = Some (init_content cast a n).
Proof.
  intros Hpos Hfit Hlim. pose proof Hpos as (P0 & P1 & P2).
  rewrite main_init_only by lia.
  destruct (initialise_ok drv cast junk input (Posix.fs w) n Hpos Hfit a w
              Hlim eq_refl) as (w' & E & Hfs).
  rewrite E. exists w'. split; [reflexivity |].
  by rewrite Hfs, lookup_insert_eq.
Qed.

Lemma initialisation_seeds_witness :
  ∃ w',
    main Posix.io_driver_callbacks (Posix.posix_libc IEEE.double_of_ulong x00)
         (Options (Some "in"%string) None io_driver_fd false
                  algorithm_matrix true (Dims 2 3 2))
         (Posix.World ∅ 0 None None)
    = Exit init_only 0 w' ∧
    Posix.fs w' !! "in"%string
    = Some (init_content IEEE.double_of_ulong algorithm_matrix (Dims 2 3 2)).
Proof.
  apply (initialisation_seeds io_driver_fd IEEE.double_of_ulong x00
           algorithm_matrix (Dims 2 3 2) false "in" (Posix.World ∅ 0 None None)).
  - unfold dims_positive, ULONG_MOD. simpl. lia.
  - unfold volume, OFF_MAX. simpl. lia.
  - intros _. unfold transfer_size, Posix.MAX_RW_COUNT. simpl. lia.
Defined.

(** C3 as stated fails for [jik_map]: with dimensions [(2,2,2)] its
    initialisation stores [offset_jik] values, for instance [1.0] at the
    second step, [(i,j,k) = (0,0,1)], where [offset_jki(0,0,1)] is [2]. *)
Lemma init_jik_map_stores_offset_jik :
  let n := Dims 2 2 2 in
  let cast := IEEE.double_of_ulong in
  ∃ w' c,
    main Posix.io_driver_callbacks (Posix.posix_libc cast x00)
         (Options (Some "in"%string) None io_driver_fd false
                  algorithm_jik_map true n)
         (Posix.World ∅ 0 None None)
    = Exit init_only 0 w' ∧
    Posix.fs w' !! "in"%string = Some c ∧
    c ≠ init_content_spec cast algorithm_jik_map n ∧
    load_double c 1 = element cast (offset_jik n 0 0 1) ∧
    load_double c 1 ≠ element cast (offset_jki n 0 0 1).
Proof.
  intros n cast.
  set (r := main _ _ _ _).
  exists (Logging.final r), (Posix.content_of "in" (Logging.final r)).
  split; [vm_compute; reflexivity |].
  split; [vm_compute; reflexivity |].
  split; [vm_compute; discriminate |].
  split; [vm_compute; reflexivity | vm_compute; discriminate].
Qed.

(** * Initialising and converting *)

(** C8.  For positive dimensions, a run that initialises the input file
    and converts it, both with the default algorithm [jki_map], returns
    whenever [8*n0*n1*n2] bytes fit a file; and whenever it returns, the
    input file holds the value [p] at every element position [p], and the
    output element at [offset_jik(i,j,k)] is [offset_jki(i,j,k)] for every
    index triple of the cube (values as [double]s). *)
Theorem default_round_trip
    (drv : io_driver_t) (cast : Z → double) (junk : byte)
    (n : dims) (exact : bool) (input output : string) (w : Posix.world) :
  dims_positive n →
  input ≠ output →
  (drv = io_driver_stream → Posix.fs w !! output = None) →
  let r := main Posix.io_driver_callbacks (Posix.posix_libc cast junk)
             (Options (Some input) (Some output) drv exact algorithm_jki_map true n)
             w in
  (8 * volume n ≤ OFF_MAX → ∃ w', r = Ret tt w') ∧
  (∀ w', r = Ret tt w' →
     ∃ inp out,
       Posix.fs w' !! input = Some inp ∧
       Posix.fs w' !! output = Some out ∧
       (∀ p, 0 ≤ p < volume n → load_double inp p = element cast p) ∧
       (∀ i j k, in_cube n i j k →
          load_double out (offset_jik n i j k)
          = element cast (offset_jki n i j k))).
Proof.
  intros Hpos Hne Hfresh r. pose proof Hpos as (P0 & P1 & P2).
  split.
  - intros Hfit.
    destruct (round_trip_when_fits drv cast junk n exact input output w
                Hpos Hfit Hne Hfresh) as (w' & inp & out & E & _).
    eauto.
  - intros w' E.
    assert (Hfit : 8 * volume n ≤ OFF_MAX).
    { unfold r in E. rewrite main_after_init in E by lia.
      destruct (initialise _ _ algorithm_jki_map n input w) as [[] w1 | ? ? ?] eqn:Ei;
        [| done].
      by eapply initialise_jki_map_fits. }
    destruct (round_trip_when_fits drv cast junk n exact input output w
                Hpos Hfit Hne Hfresh) as (w2 & inp & out & E2 & H).
    fold r in E2. rewrite E in E2. injection E2 as <-.
    eauto.
Qed.

Lemma default_round_trip_witness :
  let n := Dims 3 2 2 in
  let r := main Posix.io_driver_callbacks
             (Posix.posix_libc IEEE.double_of_ulong x00)
             (Options (Some "in"%string) (Some "out"%string) io_driver_fd true
                      algorithm_jki_map true n)
             (Posix.World ∅ 0 None None) in
  (8 * volume n ≤ OFF_MAX → ∃ w', r = Ret tt w') ∧
  (∀ w', r = Ret tt w' →
     ∃ inp out,
       Posix.fs w' !! "in"%string = Some inp ∧
       Posix.fs w' !! "out"%string = Some out ∧
       (∀ p, 0 ≤ p < volume n → load_double inp p = element IEEE.double_of_ulong p) ∧
       (∀ i j k, in_cube n i j k →
          load_double out (offset_jik n i j k)
          = element IEEE.double_of_ulong (offset_jki n i j k))).
Proof.
  intros n.
  apply (default_round_trip io_driver_fd IEEE.double_of_ulong x00 n true
           "in" "out" (Posix.World ∅ 0 None None)).
  - unfold dims_positive, ULONG_MOD. simpl. lia.
  - discriminate.
  - discriminate.
Defined.

(** C7.  Dimensions [(2,2,2)]: a run that only initialises the input file
    with [jki_map] leaves the values [0,1,2,3,4,5,6,7] at element
    positions [0..7]; a run that then converts that file, with [ijk_map],
    [jki_map] or [jik_map] (indeed with any algorithm), leaves the
    sequence [0,2,1,3,4,6,5,7] in a new output file. *)
Theorem scenario_2_2_2
    (drv : io_driver_t) (cast : Z → double) (junk : byte)
    (exact : bool) (input output : string) (w : Posix.world) :
  input ≠ output →
  Posix.fs w !! output = None →
  ∃ w1,
    main Posix.io_driver_callbacks (Posix.posix_libc cast junk)
         (Options (Some input) None drv exact algorithm_jki_map true (Dims 2 2 2)) w
    = Exit init_only 0 w1 ∧
    Posix.fs w1 !! input = Some (flat_map (element cast) [0; 1; 2; 3; 4; 5; 6; 7]) ∧
    ∀ a, ∃ w2,
      main Posix.io_driver_callbacks (Posix.posix_libc cast junk)
           (Options (Some input) (Some output) drv exact a false (Dims 2 2 2)) w1
      = Ret tt w2 ∧
      Posix.fs w2 !! output
      = Some (flat_map (element cast) [0; 2; 1; 3; 4; 6; 5; 7]).
Proof.
  intros Hne Hfresh.
  assert (Hpos : dims_positive (Dims 2 2 2))
    by (unfold dims_positive, ULONG_MOD; simpl; lia).
  assert (Hfit : 8 * volume (Dims 2 2 2) ≤ OFF_MAX)
    by (unfold volume, OFF_MAX; simpl; lia).
  assert (Hlim : ∀ a, whole_transfers drv a (Dims 2 2 2))
    by (intros a _; destruct a; unfold Posix.MAX_RW_COUNT; simpl; lia).
  rewrite main_init_only by (simpl; lia).
  destruct (initialise_ok drv cast junk input (Posix.fs w) (Dims 2 2 2) Hpos Hfit
              algorithm_jki_map w (Hlim _) eq_refl) as (w1 & E1 & Hfs1).
  rewrite E1. exists w1. split; [reflexivity |].
  set (inp := flat_map (element cast) [0; 1; 2; 3; 4; 5; 6; 7]).
  assert (Hin1 : Posix.fs w1 !! input = Some inp)
    by (rewrite Hfs1, lookup_insert_eq; reflexivity).
  split; [exact Hin1 |].
  intros a.
  destruct (main_convert_result drv cast junk (Dims 2 2 2) exact input output inp a w1
              Hpos Hin1) as (w2 & E2 & Ho2 & _).
  - unfold volume, blen. simpl. lia.
  - unfold blen, OFF_MAX. simpl. lia.
  - intros _. reflexivity.
  - exact Hne.
  - intros _. by rewrite Hfs1, lookup_insert_ne.
  - apply Hlim.
  - exists w2. split; [exact E2 |].
    rewrite Ho2, Hfs1, lookup_insert_ne, Hfresh by done. reflexivity.
Qed.

Lemma scenario_2_2_2_witness :
  ∃ w1,
    main Posix.io_driver_callbacks (Posix.posix_libc IEEE.double_of_ulong x00)
         (Options (Some "in"%string) None io_driver_fd false
                  algorithm_jki_map true (Dims 2 2 2))
         (Posix.World ∅ 0 None None)
    = Exit init_only 0 w1 ∧
    Posix.fs w1 !! "in"%string
    = Some (flat_map (element IEEE.double_of_ulong) [0; 1; 2; 3; 4; 5; 6; 7]) ∧
    ∀ a, ∃ w2,
      main Posix.io_driver_callbacks (Posix.posix_libc IEEE.double_of_ulong x00)
           (Options (Some "in"%string) (Some "out"%string) io_driver_fd false
                    a false (Dims 2 2 2)) w1
      = Ret tt w2 ∧
      Posix.fs w2 !! "out"%string
      = Some (flat_map (element IEEE.double_of_ulong) [0; 2; 1; 3; 4; 6; 5; 7]).
Proof.
  apply (scenario_2_2_2 io_driver_fd IEEE.double_of_ulong x00 false
           "in" "out" (Posix.World ∅ 0 None None)).
  - discriminate.
  - reflexivity.
Defined.

(** * Failures of the i/o driver *)

(** C9.  In the conversion phase of every algorithm, and whatever the
    driver does: a read from the input file that returns [0] is the last
    call the process makes, and the process exits with the diagnostic
    "unexpected end-of-file" and status [EINVAL]; a read that returns a
    negative number is the last call too, and the process exits with the
    diagnostic "unable to read" and status [errno]. *)
Theorem read_failures_are_told_apart {W : Type}
    (d : file_handle_callbacks W) (rt : libc W)
    (a : algorithm_t) (n : dims) (w : W) (len res : Z) :
  let r := convert (Logging.callbacks d) (Logging.runtime rt) a n (w, []) in
  In (Logging.call_read in_fh len res) (Logging.final r).2 →
  (res = 0 →
   ∃ w' rest, r = Exit err_unexpected_eof EINVAL
                       (w', Logging.call_read in_fh len res :: rest)) ∧
  (res < 0 →
   ∃ w' rest, r = Exit err_read_input (errno rt w')
                       (w', Logging.call_read in_fh len res :: rest)).
Proof.
  intros r Hin.
  pose proof (traced_convert d rt n a (w, []) ltac:(by split)) as H.
  fold r in H.
  assert (Hok : ∀ log, Forall succeeded log →
            In (Logging.call_read in_fh len res) log → 0 < res).
  { intros log Hf Hi. rewrite Forall_forall in Hf.
    apply (Hf (Logging.call_read in_fh len res)). by apply list_elem_of_In. }
  destruct r as [[] [w' log] | dg st [w' log]];
    unfold trace_exit, trace_inv in H; simpl in *.
  - destruct H as [Hs _]. pose proof (Hok log Hs Hin). lia.
  - destruct H as [_ [(-> & -> & Hs) | (c & rest & -> & Hs & Hf)]].
    + pose proof (Hok log Hs Hin). lia.
    + destruct Hin as [-> | Hin]; [| pose proof (Hok rest Hs Hin); lia].
      simpl in Hf.
      destruct Hf as [(-> & -> & ->) | (Hneg & -> & ->)].
      * split; [eauto | lia].
      * split; [lia | eauto].
Qed.

Lemma read_failures_are_told_apart_witness :
  let w := Posix.World {[ "in"%string := [x01; x02; x03; x04; x05; x06; x07; x08];
                          "out"%string := [] ]} 0
             (Some (Posix.OpenFile "in" 0 false))
             (Some (Posix.OpenFile "out" 0 true)) in
  let rt := Posix.posix_libc IEEE.double_of_ulong x00 in
  let r := convert (Logging.callbacks Posix.file_handle_callbacks_stream)
                   (Logging.runtime rt) algorithm_jik_map (Dims 2 1 1) (w, []) in
  (0 = 0 →
   ∃ w' rest, r = Exit err_unexpected_eof EINVAL
                       (w', Logging.call_read in_fh 8 0 :: rest)) ∧
  (0 < 0 →
   ∃ w' rest, r = Exit err_read_input (errno rt w')
                       (w', Logging.call_read in_fh 8 0 :: rest)).
Proof.
  intros w rt.
  apply (read_failures_are_told_apart Posix.file_handle_callbacks_stream rt
           algorithm_jik_map (Dims 2 1 1) w 8 0).
  vm_compute. left. reflexivity.
Defined.

(** * Where the conversion writes *)

(** C10, as amended.  For positive dimensions with [8*n0*n1*n2] no larger
    than the largest [off_t], for every algorithm and whatever the driver
    does: every seek on the output file goes to [8*o] for an element
    index [o] in [[0, n0*n1*n2)], every write to it follows such a seek
    and ends at or before [8*n0*n1*n2] ([out_calls_ok]); and the two
    indices of the matrix transposition are in [[0, n0*n2)]. *)
Theorem conversion_stays_in_data_region {W : Type}
    (d : file_handle_callbacks W) (rt : libc W)
    (a : algorithm_t) (n : dims) (w : W) :
  dims_positive n →
  8 * volume n ≤ OFF_MAX →
  out_calls_ok n
    (Logging.final (convert (Logging.callbacks d) (Logging.runtime rt) a n (w, []))).2 ∧
  ∀ i k, 0 ≤ i < n0 n → 0 ≤ k < n2 n →
         0 ≤ transpose_dst n i k < n0 n * n2 n ∧
         0 ≤ transpose_src n i k < n0 n * n2 n.
Proof.
  intros Hpos Hfit. split.
  - pose proof (traced_convert d rt n a (w, []) ltac:(by split)) as H.
    destruct (convert (Logging.callbacks d) (Logging.runtime rt) a n (w, []))
      as [[] [w' log] | dg st [w' log]];
      unfold trace_exit, trace_inv in H; simpl in *.
    + destruct H as [_ Ho]. apply Ho. by split.
    + destruct H as [Ho _]. apply Ho. by split.
  - intros i k Hi Hk.
    pose proof (dims_le_volume n Hpos) as (V0 & V2 & V02).
    pose proof (pair_index_bound (n0 n) (n2 n) i k Hi Hk) as Rd.
    pose proof (pair_index_bound (n2 n) (n0 n) k i Hk Hi) as Rs.
    assert (0 ≤ i * n2 n) by nia. assert (0 ≤ k * n0 n) by nia.
    unfold transpose_dst, transpose_src, uadd, umul.
    rewrite (ulong_small (i * n2 n)) by (unfold ULONG_MOD, OFF_MAX in *; lia).
    rewrite (ulong_small (k * n0 n)) by (unfold ULONG_MOD, OFF_MAX in *; lia).
    rewrite !ulong_small by (unfold ULONG_MOD, OFF_MAX in *; lia).
    lia.
Qed.

Lemma conversion_stays_in_data_region_witness :
  let n := Dims 2 2 3 in
  let w := Posix.World {[ "in"%string := replicate 96 x01; "out"%string := [] ]} 0
             (Some (Posix.OpenFile "in" 0 false))
             (Some (Posix.OpenFile "out" 0 true)) in
  out_calls_ok n
    (Logging.final
       (convert (Logging.callbacks Posix.file_handle_callbacks_fd)
                (Logging.runtime (Posix.posix_libc IEEE.double_of_ulong x00))
                algorithm_matrix n (w, []))).2 ∧
  ∀ i k, 0 ≤ i < n0 n → 0 ≤ k < n2 n →
         0 ≤ transpose_dst n i k < n0 n * n2 n ∧
         0 ≤ transpose_src n i k < n0 n * n2 n.
Proof.
  intros n w.
  apply (conversion_stays_in_data_region Posix.file_handle_callbacks_fd
           (Posix.posix_libc IEEE.double_of_ulong x00) algorithm_matrix n w).
  - unfold dims_positive, ULONG_MOD. simpl. lia.
  - unfold volume, OFF_MAX. simpl. lia.
Defined.

(** C10 as stated fails when [8*n0*n1*n2] wraps around.  With dimensions
    [(2,1,2^60)] the expected size [l] is computed as [0], so a 16-byte
    input file passes the size check; the [jki_map] conversion then
    copies the element at [(0,0,0)] and, at [(1,0,0)], seeks on the output
    file to [sizeof(double) * offset_jik = 2^63], which as an [off_t] is
    [-2^63]. *)
Lemma output_seek_wraps_around :
  let n := Dims 2 1 (2 ^ 60) in
  let inp := [x01; x02; x03; x04; x05; x06; x07; x08;
              x11; x12; x13; x14; x15; x16; x17; x18] in
  let cbl := Logging.callbacks Posix.file_handle_callbacks_fd in
  let rtl := Logging.runtime (Posix.posix_libc IEEE.double_of_ulong x00) in
  let opened :=
    (let* l := open_input rtl cbl n false "in" in
     open_output rtl cbl n false l "out")%prog
      (Posix.World {[ "in"%string := inp ]} 0 None None, []) in
  let r := convert cbl rtl algorithm_jki_map n ((Logging.final opened).1, []) in
  dims_positive n ∧
  opened = Ret tt (Logging.final opened) ∧
  head (Logging.final r).2 = Some (Logging.call_seek out_fh (- 2 ^ 63) (-1)) ∧
  ¬ out_calls_ok n (Logging.final r).2.
Proof.
  intros n inp cbl rtl opened r.
  split; [unfold dims_positive, ULONG_MOD, n; simpl; lia |].
  split; [vm_compute; reflexivity |].
  set (s1 := ((Logging.final opened).1, [])) in r.
  set (inner := for_ulong (n0 n) (λ i _, copy_element cbl rtl n i 0 0) tt s1).
  assert (E : inner = Exit err_seek_output EINVAL (Logging.final inner))
    by (vm_compute; reflexivity).
  assert (Er : r = inner).
  { unfold r. simpl. unfold convert_jki_map.
    rewrite for_ulong_first by (simpl; lia).
    rewrite for_ulong_first by (simpl; lia).
    fold inner. rewrite E. reflexivity. }
  assert (El : (Logging.final inner).2 =
               [Logging.call_seek out_fh (- 2 ^ 63) (-1);
                Logging.call_read in_fh 8 8; Logging.call_seek in_fh 8 8;
                Logging.call_write out_fh 8 8; Logging.call_seek out_fh 0 0;
                Logging.call_read in_fh 8 8; Logging.call_seek in_fh 0 0])
    by (vm_compute; reflexivity).
  rewrite Er, El. split; [reflexivity |].
  intros [(o & Ho & Eo) _]. lia.
Qed.

(** X21.  Every seek, read or write that fails during a conversion, or during an
    element-wise initialisation, is the last call of the process, which
    exits with [errno] (with [EINVAL] at end of file). *)
Theorem checked_failures_are_fatal {W : Type}
    (d : file_handle_callbacks W) (rt : libc W)
    (a : algorithm_t) (n : dims) (w : W) (init : bool) (c : Logging.call) :
  let r := (if init then init_input else convert)
             (Logging.callbacks d) (Logging.runtime rt) a n (w, []) in
  (init = true →
   a = algorithm_ijk_map ∨ a = algorithm_jki_map ∨ a = algorithm_jik_map) →
  In c (Logging.final r).2 → ¬ succeeded c →
  ∃ dg st w' rest, r = Exit dg st (w', c :: rest) ∧ fatal (errno rt w') c dg st.
Proof.
  intros r Ha Hin Hc.
  assert (H : post (λ _ s, trace_inv n s.2) (trace_exit rt n) r).
  { unfold r. destruct init.
    - apply traced_init_map; [by apply Ha | by split].
    - apply traced_convert. by split. }
  assert (Hok : ∀ log, Forall succeeded log → ¬ In c log).
  { intros log Hf Hi. rewrite Forall_forall in Hf.
    apply Hc, Hf. by apply list_elem_of_In. }
  destruct r as [[] [w' log] | dg st [w' log]];
    unfold trace_exit, trace_inv in H; simpl in *.
  - destruct H as [Hs _]. by destruct (Hok log Hs).
  - destruct H as [_ [(-> & -> & Hs) | (c' & rest & -> & Hs & Hf)]].
    + by destruct (Hok log Hs).
    + destruct Hin as [-> | Hin]; [| by destruct (Hok rest Hs)].
      eauto 10.
Qed.

Lemma checked_failures_are_fatal_witness :
  let w := Posix.World {[ "in"%string := [x01; x02; x03; x04; x05; x06; x07; x08];
                          "out"%string := [] ]} 0
             (Some (Posix.OpenFile "in" 0 false))
             (Some (Posix.OpenFile "out" 0 false)) in
  let rt := Posix.posix_libc IEEE.double_of_ulong x00 in
  let c := Logging.call_write out_fh 8 (-1) in
  let r := convert (Logging.callbacks Posix.file_handle_callbacks_fd)
                   (Logging.runtime rt) algorithm_ijk_map (Dims 1 1 1) (w, []) in
  ∃ dg st w' rest, r = Exit dg st (w', c :: rest) ∧ fatal (errno rt w') c dg st.
Proof.
  intros w rt c.
  apply (checked_failures_are_fatal Posix.file_handle_callbacks_fd rt
           algorithm_ijk_map (Dims 1 1 1) w false c).
  - discriminate.
  - vm_compute. left. reflexivity.
  - simpl. lia.
Defined.

(** C6 fails for the buffered initialisations, which do not look at what
    [write] returns.  On a device without room, with dimensions [(1,1,1)]:
    the [jki_map] initialisation exits with [ENOSPC], while [vector_input],
    [vector_output] and [matrix] go on and the process ends with
    [exit(0)], the input file left empty. *)
Lemma buffered_init_ignores_write_failure :
  let run a :=
    main (λ d, Posix.no_space_left (Posix.io_driver_callbacks d))
         (Posix.posix_libc IEEE.double_of_ulong x00)
         (Options (Some "in"%string) None io_driver_fd false a true (Dims 1 1 1))
         (Posix.World ∅ 0 None None) in
  let full := Posix.World {[ "in"%string := [] ]} Posix.ENOSPC None None in
  run algorithm_jki_map
  = Exit err_init_write Posix.ENOSPC
         (Posix.World {[ "in"%string := [] ]} Posix.ENOSPC
            (Some (Posix.OpenFile "in" 0 true)) None) ∧
  run algorithm_vector_input = Exit init_only 0 full ∧
  run algorithm_vector_output = Exit init_only 0 full ∧
  run algorithm_matrix = Exit init_only 0 full.
Proof.
  intros run full. repeat split; vm_compute; reflexivity.
Qed.

(** * Opening a file that exists *)

(** C4 fails for the descriptor driver: asked to create a file that
    exists, it opens it and reports success, because [open] is called
    with [O_CREAT] and without [O_EXCL]; the stream driver refuses with
    [EEXIST]. *)
Lemma open_fd_succeeds_on_existing_file :
  let w := Posix.World {[ "out"%string := [x01] ]} 0 None None in
  io_open Posix.file_handle_callbacks_fd out_fh "out" false true false w
  = (true, Posix.set_fh out_fh (Some (Posix.OpenFile "out" 0 true)) w) ∧
  io_open Posix.file_handle_callbacks_stream out_fh "out" false true false w
  = (false, Posix.set_errno EEXIST w).
Proof.
  intros w. split; vm_compute; reflexivity.
Qed.

(** The stream driver does what C4 says: creating over an existing file
    fails with [EEXIST] and changes nothing else. *)
Lemma open_stream_refuses_existing_file fh path read_only should_trunc w c :
  Posix.fs w !! path = Some c →
  io_open Posix.file_handle_callbacks_stream fh path read_only true should_trunc w
  = (false, Posix.set_errno EEXIST w).
Proof.
  intros H. simpl. unfold Posix.file_handle_open_stream. rewrite H. reflexivity.
Qed.

(** The descriptor driver never does. *)
Lemma open_fd_never_refuses_to_create fh path read_only should_trunc w :
  (io_open Posix.file_handle_callbacks_fd fh path read_only true should_trunc w).1
  = true.
Proof.
  simpl. unfold Posix.file_handle_open_fd.
  destruct (Posix.fs w !! path); reflexivity.
Qed.

(** C5 fails with both drivers, dimensions [(2,2,2)] and a 64-byte input
    file.  Descriptor driver, output file of one byte: the creating
    [open] succeeds, the size is not looked at, and the run converts into
    the file.  Stream driver, output file of 64 bytes: the second [open]
    (["wb+"]) empties the file, whose size is then found too small. *)
Lemma existing_output_file_is_mishandled :
  let inp := replicate 64 x07 in
  let run drv out0 :=
    main Posix.io_driver_callbacks (Posix.posix_libc IEEE.double_of_ulong x00)
         (Options (Some "in"%string) (Some "out"%string) drv false
                  algorithm_jki_map false (Dims 2 2 2))
         (Posix.World {[ "in"%string := inp; "out"%string := out0 ]} 0 None None) in
  run io_driver_fd [x01]
  = Ret tt (Posix.World {[ "in"%string := inp; "out"%string := inp ]} 0 None None) ∧
  run io_driver_stream (replicate 64 x01)
  = Exit err_output_too_small EINVAL
         (Posix.World {[ "in"%string := inp; "out"%string := [] ]} EEXIST
            (Some (Posix.OpenFile "in" 0 false))
            (Some (Posix.OpenFile "out" 0 true))).
Proof.
  intros inp run. split; vm_compute; reflexivity.
Qed.

(** * The name tables and the option loop *)

Lemma char_code_inj c c' : char_code c = char_code c' → c = c'.
Proof.
  unfold char_code. intros H. apply N2Z.inj in H.
  rewrite <- (ascii_N_embedding c), <- (ascii_N_embedding c'). by rewrite H.
Qed.

Lemma char_code_range c : 0 ≤ char_code c < 256.
Proof.
  unfold char_code. pose proof (N_ascii_bounded c). lia.
Qed.

Lemma tolower_nul c : char_code (tolower c) = 0 ↔ char_code c = 0.
Proof.
  unfold tolower.
  pose proof (char_code_range c).
  destruct (Z.leb_spec 65 (char_code c)), (Z.leb_spec (char_code c) 90); simpl;
    try done.
  unfold char_code at 1. rewrite N_ascii_embedding by lia. lia.
Qed.

Lemma strcasecmp_0 s1 s2 :
  strcasecmp s1 s2 = 0 ↔ lower (c_str s1) = lower (c_str s2).
Proof.
  revert s2. induction s1 as [| c1 r1 IH]; intros [| c2 r2]; simpl.
  - done.
  - pose proof (char_code_range (tolower c2)).
    pose proof (tolower_nul c2).
    destruct (Z.eqb_spec (char_code c2) 0); simpl; [intuition lia |].
    split; [intuition lia | done].
  - pose proof (char_code_range (tolower c1)).
    pose proof (tolower_nul c1).
    destruct (Z.eqb_spec (char_code c1) 0); simpl; [intuition lia |].
    split; [intuition lia | done].
  - pose proof (tolower_nul c1) as N1. pose proof (tolower_nul c2) as N2.
    destruct (Z.eqb_spec (char_code (tolower c1)) (char_code (tolower c2))) as [E | E].
    + destruct (Z.eqb_spec (char_code (tolower c1)) 0) as [Z1 | Z1].
      * destruct (Z.eqb_spec (char_code c1) 0); [| intuition lia].
        destruct (Z.eqb_spec (char_code c2) 0); [done | intuition lia].
      * destruct (Z.eqb_spec (char_code c1) 0); [intuition lia |].
        destruct (Z.eqb_spec (char_code c2) 0); [intuition lia |]. simpl.
        apply char_code_inj in E. rewrite IH.
        split; [intros ->; by rewrite E | by intros [= _ ->]].
    + destruct (Z.eqb_spec (char_code c1) 0), (Z.eqb_spec (char_code c2) 0); simpl.
      * intuition lia.
      * split; [lia | done].
      * split; [lia | done].
      * split; [lia |]. intros [= H _]. by rewrite H in E.
Qed.

Ltac table_lookup s D :=
  unfold algorithm_names, io_driver_names; cbn [string_to_index];
  repeat match goal with
  | |- context [strcasecmp ?nm s =? 0] =>
      let E := fresh "E" in
      destruct (Z.eqb_spec (strcasecmp nm s) 0) as [E | E];
      rewrite strcasecmp_0 in E
  end;
  (split; intros H;
   [ vm_compute in H; first [discriminate H | injection H as <-; assumption]
   | match goal with |- ?l = _ => let v := eval vm_compute in l in change l with v end;
     first [ f_equal; apply D; rewrite H; assumption
           | exfalso;
             match goal with
             | a : algorithm_t |- _ => destruct a
             | d : io_driver_t |- _ => destruct d
             end;
             match goal with En : ¬ _ |- _ => apply En; exact H end ] ]).

(** X1.  A string is accepted as the algorithm whose name it spells, letter
    case apart, and as no other; every other string is invalid.  So each
    name of the table gives the algorithm printed under that name. *)
Theorem string_to_algorithm_accepts_its_names s a :
  (string_to_algorithm s = Some a ↔ strcasecmp (algorithm_name a) s = 0) ∧
  string_to_algorithm (algorithm_name a) = Some a.
Proof.
  split; [| by destruct a].
  assert (D : ∀ a b, lower (c_str (algorithm_name a)) = lower (c_str (algorithm_name b)) → a = b).
  { intros [] []; vm_compute; congruence. }
  unfold string_to_algorithm. rewrite strcasecmp_0.
  table_lookup s D.
Qed.

(** X2.  A string is accepted as the driver whose name it spells, letter case
    apart, and as no other; every other string is invalid.  So each name
    of the table gives the driver printed under that name. *)
Theorem string_to_io_driver_accepts_its_names s d :
  (string_to_io_driver s = Some d ↔ strcasecmp (io_driver_name d) s = 0) ∧
  string_to_io_driver (io_driver_name d) = Some d.
Proof.
  split; [| by destruct d].
  assert (D : ∀ a b, lower (c_str (io_driver_name a)) = lower (c_str (io_driver_name b)) → a = b).
  { intros [] []; vm_compute; congruence. }
  unfold string_to_io_driver. rewrite strcasecmp_0.
  table_lookup s D.
Qed.

Lemma process_option_kind strtoul g o :
  process_option strtoul g o
  = process_kind strtoul (option_kind_of (opt_char g)) (optarg g) o.
Proof.
  destruct g as [c arg]. simpl. unfold process_option. simpl.
  destruct c as [[] [] [] [] [] [] [] []]; reflexivity.
Qed.

Lemma option_kind_of_inv c :
  match option_kind_of c with
  | opt_help => c = "h" | opt_algorithm => c = "a" | opt_io_driver => c = "d"
  | opt_init_input => c = "I" | opt_exact_dims => c = "x"
  | opt_input => c = "i" | opt_output => c = "o"
  | opt_dimension index =>
      (index = 0 ∧ c = "1") ∨ (index = 1 ∧ c = "2") ∨ (index = 2 ∧ c = "3")
  | opt_none =>
      c ≠ "h" ∧ c ≠ "a" ∧ c ≠ "d" ∧ c ≠ "I" ∧ c ≠ "x" ∧ c ≠ "i" ∧ c ≠ "o" ∧
      c ≠ "1" ∧ c ≠ "2" ∧ c ≠ "3"
  end%char.
Proof.
  destruct c as [[] [] [] [] [] [] [] []]; simpl;
    first [reflexivity | repeat split; discriminate
          | left; split; reflexivity
          | right; left; split; reflexivity
          | right; right; split; reflexivity].
Qed.

Section OptionLoopFacts.

Variable strtoul : string → Z * Z.
Hypothesis strtoul_range : ∀ s, 0 ≤ (strtoul s).1 < ULONG_MOD.

Lemma process_option_dims g o o' :
  dims_in_range (opt_n o) →
  process_option strtoul g o = Parsed o' →
  dims_in_range (opt_n o') ∧
  (n0 (opt_n o') ≠ 0 ↔ n0 (opt_n o) ≠ 0 ∨ opt_char g = "1"%char) ∧
  (n1 (opt_n o') ≠ 0 ↔ n1 (opt_n o) ≠ 0 ∨ opt_char g = "2"%char) ∧
  (n2 (opt_n o') ≠ 0 ↔ n2 (opt_n o) ≠ 0 ∨ opt_char g = "3"%char).
Proof.
  intros Hr. rewrite process_option_kind.
  pose proof (option_kind_of_inv (opt_char g)) as Hk.
  assert (Hsame : ∀ o1, opt_n o1 = opt_n o →
     opt_char g ≠ "1"%char → opt_char g ≠ "2"%char → opt_char g ≠ "3"%char →
     dims_in_range (opt_n o1) ∧
     (n0 (opt_n o1) ≠ 0 ↔ n0 (opt_n o) ≠ 0 ∨ opt_char g = "1"%char) ∧
     (n1 (opt_n o1) ≠ 0 ↔ n1 (opt_n o) ≠ 0 ∨ opt_char g = "2"%char) ∧
     (n2 (opt_n o1) ≠ 0 ↔ n2 (opt_n o) ≠ 0 ∨ opt_char g = "3"%char)).
  { intros o1 -> ? ? ?. tauto. }
  destruct (option_kind_of (opt_char g)) as [| | | | | | | index |]; simpl.
  - done.
  - destruct (nonempty (optarg g)) as [s |]; [| done].
    destruct (string_to_algorithm s); [| done].
    intros [= <-]. apply Hsame; [done | by rewrite Hk ..].
  - destruct (nonempty (optarg g)) as [s |]; [| done].
    destruct (string_to_io_driver s); [| done].
    intros [= <-]. apply Hsame; [done | by rewrite Hk ..].
  - intros [= <-]. apply Hsame; [done | by rewrite Hk ..].
  - intros [= <-]. apply Hsame; [done | by rewrite Hk ..].
  - destruct (nonempty (optarg g)) as [s |]; [| done].
    intros [= <-]. apply Hsame; [done | by rewrite Hk ..].
  - destruct (nonempty (optarg g)) as [s |]; [| done].
    intros [= <-]. apply Hsame; [done | by rewrite Hk ..].
  - destruct (nonempty (optarg g)) as [s |]; [| done].
    pose proof (strtoul_range s) as Hv.
    destruct (strtoul s) as [v consumed]. simpl in Hv.
    destruct (Z.eqb_spec v 0); simpl; [done |].
    destruct (0 <? consumed); [| done].
    intros [= <-]. destruct Hr as (R0 & R1 & R2). unfold dims_in_range.
    destruct Hk as [[-> ->] | [[-> ->] | [-> ->]]]; simpl;
      intuition (try discriminate; try lia).
  - intros [= <-]. apply Hsame; [done | tauto ..].
Qed.

Lemma has_option_cons c g rest :
  has_option c (g :: rest) ↔ opt_char g = c ∨ has_option c rest.
Proof.
  unfold has_option. split.
  - intros (g' & [-> | Hg]%elem_of_cons & Hc); eauto.
  - intros [Hc | (g' & Hg & Hc)]; [exists g | exists g'];
      (split; [| done]); rewrite elem_of_cons; auto.
Qed.

Lemma has_option_nil c : ¬ has_option c [].
Proof. intros (g & Hg & _). by apply elem_of_nil in Hg. Qed.

Lemma option_loop_dims results : ∀ o o',
  dims_in_range (opt_n o) →
  option_loop strtoul results o = Parsed o' →
  dims_in_range (opt_n o') ∧
  (n0 (opt_n o') ≠ 0 ↔ n0 (opt_n o) ≠ 0 ∨ has_option "1" results) ∧
  (n1 (opt_n o') ≠ 0 ↔ n1 (opt_n o) ≠ 0 ∨ has_option "2" results) ∧
  (n2 (opt_n o') ≠ 0 ↔ n2 (opt_n o) ≠ 0 ∨ has_option "3" results).
Proof.
  induction results as [| g rest IH]; intros o o' Hr; simpl.
  - intros [= <-]. split; [done |].
    repeat split; try tauto; intros [H | H%has_option_nil]; done.
  - destruct (process_option strtoul g o) as [o1 |] eqn:E1; [| done].
    intros E.
    destruct (process_option_dims g o o1 Hr E1) as (Hr1 & A0 & A1 & A2).
    destruct (IH o1 o' Hr1 E) as (Hr' & B0 & B1 & B2).
    split; [done |]. rewrite !has_option_cons, B0, B1, B2, A0, A1, A2.
    clear. tauto.
Qed.


End OptionLoopFacts.


Section OptionLoopFlags.

Variable strtoul : string → Z * Z.

Lemma process_option_flags g o o' :
  process_option strtoul g o = Parsed o' →
  (opt_char g ≠ "a"%char → use_algorithm o' = use_algorithm o) ∧
  (opt_char g ≠ "d"%char → use_io_driver o' = use_io_driver o) ∧
  (should_use_exact_dims o' = true ↔
   should_use_exact_dims o = true ∨ opt_char g = "x"%char) ∧
  (should_init_input o' = true ↔
   should_init_input o = true ∨ opt_char g = "I"%char) ∧
  (is_Some (input_file o') ↔ is_Some (input_file o) ∨ opt_char g = "i"%char) ∧
  (is_Some (output_file o') ↔ is_Some (output_file o) ∨ opt_char g = "o"%char).
Proof.
  rewrite process_option_kind.
  pose proof (option_kind_of_inv (opt_char g)) as Hk.
  destruct (option_kind_of (opt_char g)) as [| | | | | | | index |]; simpl;
    try done;
    try (destruct (nonempty (optarg g)) as [s |]; [| done]);
    try (destruct (string_to_algorithm s); [| done]);
    try (destruct (string_to_io_driver s); [| done]);
    try (destruct (strtoul s) as [v consumed];
         destruct (negb (v =? 0) && (0 <? consumed)); [| done]);
    intros [= <-]; simpl;
    try (destruct Hk as [[_ Hk] | [[_ Hk] | [_ Hk]]]);
    try rewrite Hk;
    repeat split; try done; try tauto; eauto;
    try (intros [? | ?]; done); try (intros []; discriminate).
  all: destruct Hk as (? & ? & ? & ? & ? & ? & ? & ?); tauto.
Qed.

Lemma option_loop_flags results : ∀ o o',
  option_loop strtoul results o = Parsed o' →
  (¬ has_option "a" results → use_algorithm o' = use_algorithm o) ∧
  (¬ has_option "d" results → use_io_driver o' = use_io_driver o) ∧
  (should_use_exact_dims o' = true ↔
   should_use_exact_dims o = true ∨ has_option "x" results) ∧
  (should_init_input o' = true ↔
   should_init_input o = true ∨ has_option "I" results) ∧
  (is_Some (input_file o') ↔ is_Some (input_file o) ∨ has_option "i" results) ∧
  (is_Some (output_file o') ↔ is_Some (output_file o) ∨ has_option "o" results).
Proof.
  induction results as [| g rest IH]; intros o o'; simpl.
  - intros [= <-].
    repeat split; try tauto; intros [H | H%has_option_nil]; done.
  - destruct (process_option strtoul g o) as [o1 |] eqn:E1; [| done].
    intros E.
    destruct (process_option_flags g o o1 E1) as (A0 & A1 & A2 & A3 & A4 & A5).
    destruct (IH o1 o' E) as (B0 & B1 & B2 & B3 & B4 & B5).
    rewrite !has_option_cons, B2, B3, B4, B5, A2, A3, A4, A5.
    split; [| split].
    + intros H. rewrite B0, A0; tauto.
    + intros H. rewrite B1, A1; tauto.
    + clear. tauto.
Qed.


Lemma option_loop_app pre post o :
  option_loop strtoul (pre ++ post) o =
  match option_loop strtoul pre o with
  | Parsed o' => option_loop strtoul post o'
  | Stopped d status => Stopped d status
  end.
Proof.
  revert o. induction pre as [| g pre IH]; intros o; simpl; [reflexivity |].
  destruct (process_option strtoul g o); [apply IH | reflexivity].
Qed.

Lemma process_option_stopped g o d status :
  process_option strtoul g o = Stopped d status →
  (d = usage_shown ∧ status = 0 ∧ opt_char g = "h"%char) ∨
  (d ≠ usage_shown ∧ status = EINVAL).
Proof.
  rewrite process_option_kind.
  pose proof (option_kind_of_inv (opt_char g)) as Hk.
  destruct (option_kind_of (opt_char g)) as [| | | | | | | index |]; simpl;
    try (intros [= <- <-]; by left);
    try done;
    try (destruct (nonempty (optarg g)) as [s |]);
    try (destruct (string_to_algorithm s));
    try (destruct (string_to_io_driver s));
    try (destruct (strtoul s) as [v consumed];
         destruct (negb (v =? 0) && (0 <? consumed)));
    try done; intros [= <- <-]; by right.
Qed.


End OptionLoopFlags.

(** X3.  The dimensions [main] goes on with are those given by options: a run
    gets past the validation of the dimensions exactly when each of [-1],
    [-2] and [-3] was given, and then every dimension is a positive
    [unsigned long]; otherwise it ends with [EINVAL] before any file is
    touched. *)
Theorem dimensions_are_required {W : Type}
    (strtoul : string → Z * Z)
    (cbs : io_driver_t → file_handle_callbacks W) (rt : libc W)
    (results : list getopt_t) (o : options) (w : W) :
  (∀ s, 0 ≤ (strtoul s).1 < ULONG_MOD) →
  option_loop strtoul results initial_options = Parsed o →
  (dims_positive (opt_n o) ↔
   has_option "1" results ∧ has_option "2" results ∧ has_option "3" results) ∧
  (¬ dims_positive (opt_n o) → main cbs rt o w = Exit err_dimension EINVAL w).
Proof.
  intros Hrange E.
  destruct (option_loop_dims strtoul Hrange results initial_options o)
    as (Hr & A0 & A1 & A2);
    [unfold dims_in_range, ULONG_MOD; simpl; lia | done |].
  simpl in A0, A1, A2. destruct Hr as (R0 & R1 & R2).
  unfold dims_positive. split; [intuition lia |].
  intros Hn. unfold main.
  destruct (Z.eqb_spec (n0 (opt_n o)) 0); [done |].
  destruct (Z.eqb_spec (n1 (opt_n o)) 0); [done |].
  destruct (Z.eqb_spec (n2 (opt_n o)) 0); [done |]. lia.
Qed.

Lemma dimensions_are_required_witness :
  let strtoul := λ _ : string, (2, 1) in
  let results := [Getopt "1"%char (Some "2"%string); Getopt "2"%char (Some "2"%string);
                  Getopt "3"%char (Some "2"%string)] in
  let o := Options None None io_driver_fd false algorithm_jki_map false (Dims 2 2 2) in
  (dims_positive (opt_n o) ↔
   has_option "1"%char results ∧ has_option "2"%char results ∧ has_option "3"%char results) ∧
  (¬ dims_positive (opt_n o) →
   main Posix.io_driver_callbacks (Posix.posix_libc IEEE.double_of_ulong x00) o
        (Posix.World ∅ 0 None None)
   = Exit err_dimension EINVAL (Posix.World ∅ 0 None None)).
Proof.
  intros strtoul results o.
  apply (dimensions_are_required strtoul).
  - intros s. unfold ULONG_MOD. simpl. lia.
  - reflexivity.
Defined.

(** X4.  What no option sets keeps its initial value: the algorithm is
    [jki_map] and the driver [fd] unless [-a], [-d] say otherwise; the
    exact-dimensions and init-input flags are set exactly when [-x], [-I]
    are given, the file names exactly when [-i], [-o] are; and without an
    input file name the process ends with [EINVAL]. *)
Theorem options_keep_their_defaults {W : Type}
    (strtoul : string → Z * Z)
    (cbs : io_driver_t → file_handle_callbacks W) (rt : libc W)
    (results : list getopt_t) (o : options) (w : W) :
  option_loop strtoul results initial_options = Parsed o →
  (¬ has_option "a" results → use_algorithm o = algorithm_jki_map) ∧
  (¬ has_option "d" results → use_io_driver o = io_driver_fd) ∧
  (should_use_exact_dims o = true ↔ has_option "x" results) ∧
  (should_init_input o = true ↔ has_option "I" results) ∧
  (is_Some (input_file o) ↔ has_option "i" results) ∧
  (is_Some (output_file o) ↔ has_option "o" results) ∧
  (¬ has_option "i" results →
   ∃ d, main cbs rt o w = Exit d EINVAL w).
Proof.
  intros E.
  destruct (option_loop_flags strtoul results initial_options o E)
    as (A0 & A1 & A2 & A3 & A4 & A5).
  simpl in *.
  assert (N : ¬ is_Some (@None string)) by (intros [? [=]]).
  assert (F : false = true ↔ False) by (split; [discriminate | done]).
  assert (N' : is_Some (@None string) ↔ False) by (split; [exact N | done]).
  rewrite F in A2, A3. rewrite N' in A4, A5.
  split; [exact A0 |]. split; [exact A1 |].
  split; [rewrite A2; clear; tauto |]. split; [rewrite A3; clear; tauto |].
  split; [rewrite A4; clear; tauto |]. split; [rewrite A5; clear; tauto |].
  intros Hi. unfold main.
  destruct (_ || _); [by eexists |].
  destruct (input_file o) as [s |] eqn:Ei; [| by eexists].
  exfalso. destruct A4 as [A4 _]. destruct A4 as [[] | H]; eauto.
Qed.

Lemma options_keep_their_defaults_witness :
  let strtoul := λ _ : string, (2, 1) in
  let results := [Getopt "x"%char None; Getopt "1"%char (Some "2"%string)] in
  let o := Options None None io_driver_fd true algorithm_jki_map false (Dims 2 0 0) in
  let w := Posix.World ∅ 0 None None in
  (¬ has_option "a"%char results → use_algorithm o = algorithm_jki_map) ∧
  (¬ has_option "d"%char results → use_io_driver o = io_driver_fd) ∧
  (should_use_exact_dims o = true ↔ has_option "x"%char results) ∧
  (should_init_input o = true ↔ has_option "I"%char results) ∧
  (is_Some (input_file o) ↔ has_option "i"%char results) ∧
  (is_Some (output_file o) ↔ has_option "o"%char results) ∧
  (¬ has_option "i"%char results →
   ∃ d, main Posix.io_driver_callbacks (Posix.posix_libc IEEE.double_of_ulong x00) o w
        = Exit d EINVAL w).
Proof.
  intros strtoul results o w.
  apply (options_keep_their_defaults strtoul).
  reflexivity.
Defined.

(** X5.  Results that are none of the option characters of the [switch], such
    as the ['?'] that [getopt_long] returns for an option it does not
    know, change nothing: the loop goes on as if they were not there. *)
Theorem unrecognised_options_are_skipped
    (strtoul : string → Z * Z) (results : list getopt_t) (o : options) :
  option_loop strtoul (filter recognised results) o
  = option_loop strtoul results o.
Proof.
  revert o. induction results as [| g rest IH]; intros o; [reflexivity |].
  rewrite filter_cons. simpl.
  destruct (decide (recognised g)) as [Hr | Hr]; simpl.
  - destruct (process_option strtoul g o); [apply IH | reflexivity].
  - rewrite process_option_kind. unfold recognised in Hr.
    destruct (option_kind_of (opt_char g)); simpl in *;
      try (exfalso; by apply Hr). apply IH.
Qed.

(** X6.  The option loop ends the process with status [0] only for [-h], and
    with [EINVAL] for every argument it refuses; [-h] ends it whatever
    follows, once the options before it were accepted. *)
Theorem option_loop_exit_status
    (strtoul : string → Z * Z) (results : list getopt_t) (o : options) :
  (∀ d status, option_loop strtoul results o = Stopped d status →
     (d = usage_shown ∧ status = 0 ∧ has_option "h" results) ∨
     (d ≠ usage_shown ∧ status = EINVAL)) ∧
  (∀ pre g post o', results = pre ++ g :: post →
     option_loop strtoul pre o = Parsed o' → opt_char g = "h"%char →
     option_loop strtoul results o = Stopped usage_shown 0).
Proof.
  split.
  - revert o. induction results as [| g rest IH]; intros o d status; simpl;
      [done |].
    destruct (process_option strtoul g o) as [o1 |] eqn:E1.
    + intros E. destruct (IH o1 d status E) as [(-> & -> & Hh) | H]; [| by right].
      left. rewrite has_option_cons. auto.
    + intros [= <- <-].
      destruct (process_option_stopped strtoul g o _ _ E1) as [(-> & -> & Hh) | H];
        [| by right].
      left. rewrite has_option_cons. auto.
  - intros pre g post o' -> Epre Hg.
    rewrite option_loop_app, Epre. simpl.
    rewrite process_option_kind, Hg. reflexivity.
Qed.

(** * More about the contents of the files *)

Section Elements.

(** Two files of [N] elements with the same bytes in every element. *)
Lemma elements_ext (N : Z) (l l' : list byte) :
  0 ≤ N → blen l = 8 * N → blen l' = 8 * N →
  (∀ p r, 0 ≤ p < N → 0 ≤ r < 8 →
     byte_at l (8 * p + r) = byte_at l' (8 * p + r)) →
  l = l'.
Proof.
  intros HN Hl Hl' H. apply byte_at_ext. intros q Hq.
  destruct (Z.lt_ge_cases q (8 * N)) as [Hlt | Hge].
  - pose proof (Z.div_mod q 8 ltac:(lia)) as E.
    pose proof (Z.mod_pos_bound q 8 ltac:(lia)) as R.
    rewrite E. apply H; [| done].
    split; [apply Z.div_pos; lia | apply Z.div_lt_upper_bound; lia].
  - rewrite !byte_at_None; [done | lia | lia].
Qed.

Lemma blen_element cast p : blen (element cast p) = 8.
Proof. apply blen_double_bytes. Qed.

Lemma blen_counting cast N : 0 ≤ N → blen (counting cast N) = 8 * N.
Proof.
  intros HN. unfold counting.
  rewrite (blen_flat_map_range _ 8) by (done || intros; apply blen_element). lia.
Qed.

Lemma byte_at_counting cast N p r :
  0 ≤ p < N → 0 ≤ r < 8 →
  byte_at (counting cast N) (8 * p + r) = byte_at (element cast p) r.
Proof.
  intros Hp Hr. unfold counting.
  replace (8 * p + r) with (p * 8 + r) by lia.
  apply byte_at_flat_map_range; [done | done |].
  intros; apply blen_element.
Qed.

Lemma load_double_counting cast N p :
  0 ≤ p < N → load_double (counting cast N) p = element cast p.
Proof.
  intros Hp. apply load_double_is; [lia | apply blen_element |].
  intros t Ht. by apply byte_at_counting.
Qed.

(** A traversal that stores at each step the number of the step. *)
Lemma traversal_counting cast (A B C : Z) (f : Z → Z → Z → Z) :
  0 < A → 0 < B → 0 < C →
  (∀ a b c, 0 ≤ a < A → 0 ≤ b < B → 0 ≤ c < C →
     f a b c = a * B * C + b * C + c) →
  traversal A B C (λ a b c, element cast (f a b c)) = counting cast (A * B * C).
Proof.
  intros HA HB HC Hf.
  assert (0 < A * B * C) by nia.
  apply (elements_ext (A * B * C)); [lia | | by apply blen_counting; lia |].
  - rewrite blen_traversal; [lia | lia | lia | lia |].
    intros; apply blen_element.
  - intros p r Hp Hr.
    destruct (radix_surj A B C p) as (a & b & c & Ha & Hb & Hc & <-); [done ..|].
    rewrite byte_at_traversal by (done || intros; apply blen_element).
    rewrite byte_at_counting by done. by rewrite Hf.
Qed.

End Elements.

Section InitialContents.

Variable cast : Z → double.
Variable n : dims.
Hypothesis Hpos : dims_positive n.
Hypothesis Hfit : volume n ≤ ULONG_MOD.

(** Four of the six initialisations number the elements in the order in
    which they write them. *)
Lemma init_content_counting a :
  a ≠ algorithm_jik_map → a ≠ algorithm_vector_output →
  init_content cast a n = counting cast (volume n).
Proof.
  intros Hjik Hvo. destruct Hpos as (P0 & P1 & P2).
  assert (Ejki :
    traversal (n1 n) (n2 n) (n0 n) (λ j k i, element cast (offset_jki n i j k))
    = counting cast (volume n)).
  { replace (volume n) with (n1 n * n2 n * n0 n) by (unfold volume; lia).
    apply (traversal_counting cast _ _ _ (λ j k i, offset_jki n i j k));
      [lia .. |].
    intros j k i Hj Hk Hi. by apply offset_jki_exact. }
  destruct a; simpl; try done.
  unfold volume.
  apply (traversal_counting cast _ _ _ (λ i j k, offset_ijk n i j k));
    [lia .. |].
  intros i j k Hi Hj Hk. by apply offset_ijk_exact.
Qed.

(** The [vector_output] initialisation writes the elements in JIK order:
    its file is the conversion of the file the others write. *)
Lemma init_content_vector_output :
  init_content cast algorithm_vector_output n
  = converted n (counting cast (volume n)) [].
Proof.
  destruct Hpos as (P0 & P1 & P2).
  unfold converted. rewrite drop_nil, app_nil_r. simpl.
  assert (0 < volume n) by (unfold volume; nia).
  apply (elements_ext (volume n)); [lia | | |].
  - unfold volume. rewrite blen_traversal; [lia | lia | lia | lia |].
    intros; apply blen_element.
  - unfold volume. rewrite blen_traversal; [lia | lia | lia | lia |].
    intros j i k Hj Hi Hk.
    rewrite load_double_counting; [apply blen_element |].
    by apply (offset_jki_enumerates n Hpos Hfit).
  - intros p r Hp Hr. unfold volume in Hp.
    destruct (radix_surj (n1 n) (n0 n) (n2 n) p) as (j & i & k & Hj & Hi & Hk & <-);
      [lia | lia | lia |].
    assert (G : ∀ j' i' k', 0 ≤ j' < n1 n → 0 ≤ i' < n0 n → 0 ≤ k' < n2 n →
              load_double (counting cast (n0 n * n1 n * n2 n)) (offset_jki n i' j' k')
              = element cast (offset_jki n i' j' k')).
    { intros j' i' k' Hj' Hi' Hk'. rewrite load_double_counting; [done |].
      by apply (offset_jki_enumerates n Hpos Hfit). }
    rewrite (byte_at_traversal _ _ _ (λ j i k, element cast (offset_jki n i j k)))
      by (done || intros; apply blen_element).
    rewrite (byte_at_traversal _ _ _
               (λ j i k, load_double (counting cast (n0 n * n1 n * n2 n))
                           (offset_jki n i j k)))
      by (done || intros; rewrite G by done; apply blen_element).
    by rewrite G.
Qed.

End InitialContents.

Section Conversions.

Variable n : dims.
Variables inp out0 : list byte.
Hypothesis Hpos : dims_positive n.
Hypothesis Hinp : 8 * volume n ≤ blen inp.
Hypothesis Hmax : blen inp ≤ OFF_MAX.

Lemma blen_converted_data :
  blen (traversal (n1 n) (n0 n) (n2 n)
          (λ j i k, load_double inp (offset_jki n i j k))) = 8 * volume n.
Proof.
  destruct Hpos as (P0 & P1 & P2).
  unfold volume. rewrite blen_traversal; [lia | lia | lia | lia |].
  intros j i k Hj Hi Hk.
  assert (Hc : in_cube n i j k) by done.
  pose proof (offset_jki_range n inp Hpos Hinp Hmax i j k Hc).
  apply blen_load_double; lia.
Qed.

Lemma blen_converted_fresh : blen (converted n inp []) = 8 * volume n.
Proof.
  unfold converted. rewrite drop_nil, app_nil_r.
  by apply blen_converted_data.
Qed.

(** The bytes of the converted data, element by element. *)
Lemma byte_at_converted i j k r :
  in_cube n i j k → 0 ≤ r < 8 →
  byte_at (converted n inp out0) (8 * offset_jik n i j k + r)
  = byte_at inp (8 * offset_jki n i j k + r).
Proof.
  intros Hc Hr.
  destruct (converted_copied n inp out0 Hpos Hinp Hmax) as (_ & _ & H).
  by apply H.
Qed.

(** When [n[0]] or [n[2]] is [1] the two layouts are the same, and the
    conversion copies the data. *)
Lemma converted_degenerate :
  n0 n = 1 ∨ n2 n = 1 →
  converted n inp out0
  = take (Z.to_nat (8 * volume n)) inp ++ drop (Z.to_nat (8 * volume n)) out0.
Proof.
  intros Hd. pose proof Hpos as (P0 & P1 & P2).
  pose proof (volume_fits n inp Hinp Hmax) as Hv.
  assert (0 < volume n) by (unfold volume; nia).
  unfold converted. f_equal.
  apply (elements_ext (volume n)); [lia | apply blen_converted_data | |].
  - rewrite blen_take by lia. lia.
  - intros p r Hp Hr.
    destruct (offset_jik_enumerates n Hpos Hv) as [_ Hs].
    destruct (Hs p Hp) as (i & j & k & Hc & E & _).
    assert (E' : offset_jki n i j k = p).
    { rewrite <- E, (offset_jik_exact n Hv i j k Hc), (offset_jki_exact n Hv i j k Hc).
      destruct Hc as (Hi & Hj & Hk). destruct Hd as [Hd | Hd]; rewrite Hd in *.
      - assert (i = 0) by lia. subst i. lia.
      - assert (k = 0) by lia. subst k. lia. }
    pose proof (byte_at_converted i j k r Hc Hr) as Hb.
    unfold converted in Hb. rewrite byte_at_app, blen_converted_data in Hb.
    rewrite E, E' in Hb.
    destruct (Z.ltb_spec (8 * p + r) (8 * volume n)); [| lia].
    rewrite Hb, byte_at_take.
    destruct (Z.ltb_spec (8 * p + r) (8 * volume n)); [done | lia].
Qed.

End Conversions.

Section Reversal.

Variable n : dims.
Variable inp : list byte.
Hypothesis Hpos : dims_positive n.
Hypothesis Hinp : 8 * volume n ≤ blen inp.
Hypothesis Hmax : blen inp ≤ OFF_MAX.

Lemma reversed_positive : dims_positive (reversed n).
Proof. destruct Hpos as (P0 & P1 & P2). unfold dims_positive. simpl. lia. Qed.

Lemma volume_reversed : volume (reversed n) = volume n.
Proof. unfold volume, reversed. simpl. lia. Qed.

(** JIK order for [n] is JKI order for the reversed dimensions, so that
    converting twice, the second time with the dimensions reversed, gives
    the data back. *)
Lemma converted_twice :
  converted (reversed n) (converted n inp []) []
  = take (Z.to_nat (8 * volume n)) inp.
Proof.
  pose proof Hpos as (P0 & P1 & P2).
  pose proof reversed_positive as Hpos'.
  pose proof (volume_fits n inp Hinp Hmax) as Hv.
  pose proof (blen_converted_fresh n inp Hpos Hinp Hmax) as Hmid.
  assert (Hv' : volume (reversed n) ≤ ULONG_MOD) by by rewrite volume_reversed.
  assert (0 < volume n) by (unfold volume; nia).
  assert (Hinp' : 8 * volume (reversed n) ≤ blen (converted n inp []))
    by (rewrite volume_reversed; lia).
  assert (Hmax' : blen (converted n inp []) ≤ OFF_MAX) by lia.
  apply (elements_ext (volume n)); [lia | | |].
  - rewrite <- volume_reversed. by apply blen_converted_fresh.
  - rewrite blen_take by lia. lia.
  - intros p r Hp Hr.
    destruct (offset_jki_enumerates n Hpos Hv) as [_ Hs].
    destruct (Hs p Hp) as (i & j & k & Hc & E & _).
    pose proof Hc as (Hi & Hj & Hk).
    assert (Hc' : in_cube (reversed n) k j i) by done.
    assert (E1 : offset_jik (reversed n) k j i = p).
    { rewrite <- E, (offset_jik_exact _ Hv' k j i Hc'),
        (offset_jki_exact n Hv i j k Hc). simpl. lia. }
    assert (E2 : offset_jki (reversed n) k j i = offset_jik n i j k).
    { rewrite (offset_jki_exact _ Hv' k j i Hc'),
        (offset_jik_exact n Hv i j k Hc). simpl. lia. }
    rewrite <- E1 at 1.
    rewrite (byte_at_converted (reversed n) (converted n inp []) []
               Hpos' Hinp' Hmax' k j i r Hc' Hr).
    rewrite E2, (byte_at_converted n inp [] Hpos Hinp Hmax i j k r Hc Hr), E.
    rewrite byte_at_take.
    destruct (Z.ltb_spec (8 * p + r) (8 * volume n)); [done | lia].
Qed.

End Reversal.

(** * What a run keeps *)

Section Keeps.

Context {W : Type}.
Variable d : file_handle_callbacks W.
Variable rt : libc W.
Variable I : W → Prop.

Local Abbreviation keeps A := (post (λ (_ : A) (w : W), I w) (at_exit I)).

Section Conversion.

Hypothesis Hseek : ∀ fh fp w, I w → I (io_seek d fh fp w).2.
Hypothesis Hread : ∀ buf len w, I w → I (io_read d in_fh buf len w).2.
Hypothesis Hwrite : ∀ buf len w, I w → I (io_write d out_fh buf len w).2.

Lemma seek_or_exit_keeps fh fp dg w :
  I w → keeps unit (seek_or_exit d rt fh fp dg w).
Proof.
  intros Hw. unfold seek_or_exit, bind, seek.
  pose proof (Hseek fh fp w Hw) as H.
  destruct (io_seek d fh fp w) as [r w']. simpl in *.
  destruct (r <? 0); exact H.
Qed.

Lemma read_or_exit_keeps buf len w :
  I w → keeps (list byte) (read_or_exit d rt buf len w).
Proof.
  intros Hw. unfold read_or_exit, bind, read.
  pose proof (Hread buf len w Hw) as H.
  destruct (io_read d in_fh buf len w) as [[r buf'] w']. simpl in *.
  destruct (r <=? 0); [destruct (r =? 0) |]; exact H.
Qed.

Lemma write_or_exit_keeps buf len w :
  I w → keeps unit (write_or_exit d rt buf len w).
Proof.
  intros Hw. unfold write_or_exit, bind, write.
  pose proof (Hwrite buf len w Hw) as H.
  destruct (io_write d out_fh buf len w) as [r w']. simpl in *.
  destruct (r <=? 0); exact H.
Qed.

Lemma get_keeps fp buf len w :
  I w →
  keeps (list byte)
    ((let* _ := seek_or_exit d rt in_fh fp err_seek_input in
      read_or_exit d rt buf len) w).
Proof.
  intros Hw. eapply post_bind; [by apply seek_or_exit_keeps |].
  intros ? w' Hw'. by apply read_or_exit_keeps.
Qed.

Lemma put_keeps fp buf len w :
  I w →
  keeps unit
    ((let* _ := seek_or_exit d rt out_fh fp err_seek_output in
      write_or_exit d rt buf len) w).
Proof.
  intros Hw. eapply post_bind; [by apply seek_or_exit_keeps |].
  intros ? w' Hw'. by apply write_or_exit_keeps.
Qed.

Lemma copy_element_keeps n i j k w :
  I w → keeps unit (copy_element d rt n i j k w).
Proof.
  intros Hw. unfold copy_element.
  apply post_bind_assoc.
  eapply post_bind; [by apply get_keeps |].
  intros v w' Hw'. by apply put_keeps.
Qed.

Lemma alloc_keeps {B} size (k : list byte → M W B) w :
  I w →
  (∀ v, keeps B (k v w)) →
  keeps B
    ((let* v := alloc rt size in
      match v with
      | None => exit err_alloc ENOMEM
      | Some v => k v
      end) w).
Proof.
  intros Hw Hk. unfold bind, alloc.
  destruct (malloc rt size w); simpl; [apply Hk | exact Hw].
Qed.

Ltac loop A :=
  apply (post_for_ulong_const (λ (_ : A) (w : W), I w)); [done |].

Lemma convert_keeps a n w : I w → keeps unit (convert d rt a n w).
Proof.
  intros Hw. destruct a; simpl.
  - unfold convert_ijk_map.
    loop unit. intros i [] w1 Hi H1.
    loop unit. intros j [] w2 Hj H2.
    loop unit. intros k [] w3 Hk H3.
    by apply copy_element_keeps.
  - unfold convert_jki_map.
    loop unit. intros i [] w1 Hi H1.
    loop unit. intros j [] w2 Hj H2.
    loop unit. intros k [] w3 Hk H3.
    by apply copy_element_keeps.
  - unfold convert_jik_map.
    loop unit. intros i [] w1 Hi H1.
    loop unit. intros j [] w2 Hj H2.
    loop unit. intros k [] w3 Hk H3.
    by apply copy_element_keeps.
  - unfold convert_vector_input.
    apply alloc_keeps; [done |]. intros v.
    apply (post_bind (λ (_ : list byte) (w : W), I w)); [| by intros].
    loop (list byte). intros j v1 w1 Hj H1.
    loop (list byte). intros k v2 w2 Hk H2.
    apply post_bind_assoc.
    eapply post_bind; [by apply get_keeps |].
    intros v3 w3 H3.
    apply (post_bind (λ (_ : unit) (w : W), I w)); [| by intros].
    loop unit. intros i [] w4 Hi H4.
    by apply put_keeps.
  - unfold convert_vector_output.
    apply alloc_keeps; [done |]. intros v.
    apply (post_bind (λ (_ : list byte) (w : W), I w)); [| by intros].
    loop (list byte). intros j v1 w1 Hj H1.
    loop (list byte). intros i v2 w2 Hi H2.
    apply (post_bind (λ (_ : list byte) (w : W), I w)).
    + loop (list byte). intros k v3 w3 Hk H3.
      apply post_bind_assoc.
      eapply post_bind; [by apply get_keeps |].
      by intros.
    + intros v3 w3 H3.
      apply post_bind_assoc.
      apply (post_bind (λ (_ : unit) (w : W), I w)); [| by intros].
      by apply put_keeps.
  - unfold convert_matrix.
    apply alloc_keeps; [done |]. intros v.
    apply (post_bind (λ (_ : list byte) (w : W), I w)); [| by intros].
    loop (list byte). intros j v1 w1 Hj H1.
    apply post_bind_assoc.
    eapply post_bind; [by apply get_keeps |].
    intros v2 w2 H2.
    apply (post_bind (λ (_ : list byte) (w : W), I w)).
    + loop (list byte). intros i v3 w3 Hi H3.
      loop (list byte). intros k v4 w4 Hk H4.
      by apply post_ret.
    + intros v3 w3 H3.
      apply post_bind_assoc.
      apply (post_bind (λ (_ : unit) (w : W), I w)); [| by intros].
      by apply put_keeps.
Qed.

End Conversion.

Section Initialisation.

Hypothesis Hwrite : ∀ buf len w, I w → I (io_write d in_fh buf len w).2.

Lemma init_element_keeps offset n i j k w :
  I w → keeps unit (init_element d rt offset n i j k w).
Proof.
  intros Hw. unfold init_element, bind, write.
  pose proof (Hwrite (double_bytes (double_of_ulong rt (offset n i j k))) 8 w Hw) as H.
  destruct (io_write d in_fh _ 8 w) as [r w']. simpl in *.
  destruct (r <=? 0); exact H.
Qed.

Lemma unchecked_write_keeps (v : list byte) len w :
  I w →
  keeps (list byte) ((let* n_bytes := write d in_fh v len in ret v) w).
Proof.
  intros Hw. unfold bind, write.
  pose proof (Hwrite v len w Hw) as H.
  destruct (io_write d in_fh v len w) as [r w']. exact H.
Qed.

Lemma fill_keeps bound (f : Z → list byte → list byte) v w :
  I w →
  keeps (list byte) (for_ulong bound (λ i v, ret (f i v)) v w).
Proof.
  intros Hw.
  apply (post_for_ulong_const (λ (_ : list byte) (w : W), I w)); [done |].
  intros t v' w' _ Hw'. exact Hw'.
Qed.

Ltac loop A :=
  apply (post_for_ulong_const (λ (_ : A) (w : W), I w)); [done |].

Lemma init_input_keeps a n w : I w → keeps unit (init_input d rt a n w).
Proof.
  intros Hw. destruct a; simpl.
  - unfold init_ijk_map.
    loop unit. intros i [] w1 Hi H1.
    loop unit. intros j [] w2 Hj H2.
    loop unit. intros k [] w3 Hk H3.
    by apply init_element_keeps.
  - unfold init_jki_map.
    loop unit. intros i [] w1 Hi H1.
    loop unit. intros j [] w2 Hj H2.
    loop unit. intros k [] w3 Hk H3.
    by apply init_element_keeps.
  - unfold init_jik_map.
    loop unit. intros i [] w1 Hi H1.
    loop unit. intros j [] w2 Hj H2.
    loop unit. intros k [] w3 Hk H3.
    by apply init_element_keeps.
  - unfold init_vector_input, bind at 1, alloc.
    destruct (malloc rt _ w); simpl; [| exact Hw].
    apply (post_bind (λ (_ : list byte) (w : W), I w)); [| by intros].
    loop (list byte). intros j v1 w1 Hj H1.
    loop (list byte). intros k v2 w2 Hk H2.
    apply (post_bind (λ (_ : list byte) (w : W), I w)).
    + by apply fill_keeps.
    + intros v3 w3 H3. by apply unchecked_write_keeps.
  - unfold init_vector_output, bind at 1, alloc.
    destruct (malloc rt _ w); simpl; [| exact Hw].
    apply (post_bind (λ (_ : list byte) (w : W), I w)); [| by intros].
    loop (list byte). intros j v1 w1 Hj H1.
    loop (list byte). intros i v2 w2 Hi H2.
    apply (post_bind (λ (_ : list byte) (w : W), I w)).
    + by apply fill_keeps.
    + intros v3 w3 H3. by apply unchecked_write_keeps.
  - unfold init_matrix, bind at 1, alloc.
    destruct (malloc rt _ w); simpl; [| exact Hw].
    apply (post_bind (λ (_ : list byte) (w : W), I w)); [| by intros].
    loop (list byte). intros j v1 w1 Hj H1.
    apply (post_bind (λ (_ : list byte) (w : W), I w)).
    + loop (list byte). intros k v2 w2 Hk H2.
      by apply fill_keeps.
    + intros v3 w3 H3. by apply unchecked_write_keeps.
Qed.

End Initialisation.

End Keeps.

Section Untouched.

Import Posix.

Variable drv : io_driver_t.
Variable rt : libc world.
Variable p : string.
Variable c : option (list byte).

Local Abbreviation cb := (io_driver_callbacks drv).
Local Abbreviation kept := (λ w : world, fs w !! p = c).

Lemma untouched_set_errno fh e w :
  untouched p c fh w → untouched p c fh (set_errno e w).
Proof. intros [Hf Hh]. split; [done |]. by destruct fh. Qed.

Lemma untouched_set_fh fh fh' f f' w :
  get_fh fh' w = Some f → of_path f' = of_path f →
  untouched p c fh w → untouched p c fh (set_fh fh' (Some f') w).
Proof.
  intros E Ep [Hf Hh]. split; [by destruct fh' |].
  intros f0. destruct fh, fh'; simpl in *; try apply Hh.
  all: intros [= <-]; rewrite Ep; by apply Hh.
Qed.

Lemma seek_untouched fh fh' fp w :
  untouched p c fh w → untouched p c fh (io_seek cb fh' fp w).2.
Proof.
  intros Hu.
  assert (H : untouched p c fh (file_handle_seek_fd fh' fp w).2).
  { unfold file_handle_seek_fd.
    destruct (get_fh fh' w) as [f' |] eqn:E; simpl;
      [| by apply untouched_set_errno].
    destruct (fp <? 0); simpl; [by apply untouched_set_errno |].
    by apply (untouched_set_fh fh fh' f'). }
  by destruct drv.
Qed.

Lemma read_untouched fh fh' buf len w :
  untouched p c fh w → untouched p c fh (io_read cb fh' buf len w).2.
Proof.
  intros Hu.
  assert (Ha : ∀ f' by_, get_fh fh' w = Some f' →
            untouched p c fh (advance fh' f' by_ w)).
  { intros f' by_ E. by apply (untouched_set_fh fh fh' f'). }
  destruct drv; simpl;
    unfold file_handle_read_fd, file_handle_read_stream;
    destruct (get_fh fh' w) as [f' |] eqn:E; simpl;
    try (by apply untouched_set_errno); auto.
  destruct (len <=? 0); [done |]. destruct (_ =? len); simpl; auto.
Qed.

Lemma do_write_untouched fh f data w :
  get_fh fh w = Some f →
  untouched p c fh w → untouched p c fh (do_write fh f data w).2.
Proof.
  intros E Hu. unfold do_write.
  destruct (negb (of_writable f)); simpl; [by apply untouched_set_errno |].
  destruct (OFF_MAX <? _); simpl; [by apply untouched_set_errno |].
  destruct Hu as [Hf Hh]. pose proof (Hh f E) as Hne. split.
  - destruct fh; simpl; by rewrite lookup_insert_ne.
  - intros f'. destruct fh; simpl; intros [= <-]; done.
Qed.

Lemma write_untouched fh buf len w :
  untouched p c fh w → untouched p c fh (io_write cb fh buf len w).2.
Proof.
  intros Hu.
  destruct drv; simpl;
    unfold file_handle_write_fd, file_handle_write_stream;
    destruct (get_fh fh w) as [f |] eqn:E; simpl;
    try (by apply untouched_set_errno);
    destruct (decide (take _ buf = [])); try done.
  - by apply do_write_untouched.
  - pose proof (do_write_untouched fh f (take (Z.to_nat len) buf) w E Hu) as H.
    destruct (do_write fh f _ w) as [r w']. simpl in *.
    by destruct (r =? len).
Qed.

(** Opening another file. *)
Lemma open_untouched fh path read_only should_create should_trunc w :
  path ≠ p → kept w →
  kept (io_open cb fh path read_only should_create should_trunc w).2 ∧
  ((io_open cb fh path read_only should_create should_trunc w).1 = true →
   untouched p c fh (io_open cb fh path read_only should_create should_trunc w).2).
Proof.
  intros Hne Hf.
  assert (Hs : ∀ w', kept w' → kept (set_file path [] w')).
  { intros w' H. simpl. by rewrite lookup_insert_ne. }
  assert (Hg : ∀ w' wr, kept w' →
            untouched p c fh (set_fh fh (Some (OpenFile path 0 wr)) w')).
  { intros w' wr H. split; [by destruct fh |].
    intros f. destruct fh; simpl; intros [= <-]; done. }
  destruct drv; simpl; unfold file_handle_open_fd, file_handle_open_stream.
  - destruct (fs w !! path) eqn:E.
    + destruct should_trunc; simpl; split; try (intros _; apply Hg);
        try (destruct fh; simpl; apply Hs); auto; by destruct fh.
    + destruct should_create; simpl; split; try (intros _; apply Hg);
        try done; try (destruct fh; simpl; apply Hs); auto; by destruct fh.
  - assert (He : kept (set_errno ENOENT w)) by done.
    destruct should_create; simpl.
    + destruct (fs w !! path) eqn:E; simpl; [done |].
      split; [| intros _; by apply Hg, Hs].
      destruct fh; simpl; by apply Hs.
    + destruct read_only; simpl.
      * destruct (fs w !! path) eqn:E; simpl;
          (split; [by destruct fh | try done; intros _; by apply Hg]).
      * split; [| intros _; by apply Hg, Hs].
        destruct fh; simpl; by apply Hs.
Qed.

(** Opening any file for reading only. *)
Lemma open_read_only_kept fh path w :
  kept w → kept (io_open cb fh path true false false w).2.
Proof.
  intros Hf.
  destruct drv; simpl; unfold file_handle_open_fd, file_handle_open_stream;
    simpl; destruct (fs w !! path); simpl; by destruct fh.
Qed.

Lemma stat_kept fh w : kept w → kept (io_stat cb fh w).2.
Proof.
  intros Hf.
  destruct drv; simpl; unfold file_handle_stat_stream, file_handle_stat_fd;
    destruct (get_fh fh w); done.
Qed.

Lemma close_kept fh w : kept w → kept (io_close cb fh w).
Proof. intros Hf. destruct drv, fh; done. Qed.

Lemma check_size_kept st_size l exact small large (w : world) :
  kept w →
  post (λ _ w', kept w') (at_exit kept) (check_size st_size l exact small large w).
Proof.
  intros Hf. unfold check_size.
  destruct (_ <? l); [done |]. destruct (_ && exact); done.
Qed.

Lemma initialise_kept a n ip w :
  ip ≠ p → kept w →
  post (λ _ w', kept w') (at_exit kept) (initialise rt cb a n ip w).
Proof.
  intros Hne Hf. unfold initialise.
  apply (post_bind (λ (ok : bool) w',
                      kept w' ∧ (ok = true → untouched p c in_fh w'))).
  { unfold open.
    pose proof (open_untouched in_fh ip false true true w Hne Hf) as H.
    by destruct (io_open cb in_fh ip false true true w). }
  intros ok w1 [Hk Hu].
  apply (post_bind (λ _ w', untouched p c in_fh w')).
  { destruct ok; [by apply Hu |].
    destruct (errno rt w1 =? EEXIST); [| done].
    unfold bind, open.
    pose proof (open_untouched in_fh ip false false true w1 Hne Hk) as [Hk2 Hu2].
    destruct (io_open cb in_fh ip false false true w1) as [[] w2]; simpl in *;
      [by apply Hu2 | done]. }
  intros _ w2 Hu2.
  apply (post_bind (λ _ w', untouched p c in_fh w')).
  - eapply post_weaken.
    + apply (init_input_keeps cb rt (untouched p c in_fh)); [| exact Hu2].
      intros. by apply write_untouched.
    + done.
    + by intros ? ? ? [? _].
  - intros _ w3 [Hf3 _]. unfold close. by apply close_kept.
Qed.

Lemma open_input_kept n exact ip w :
  kept w →
  post (λ _ w', kept w') (at_exit kept) (open_input rt cb n exact ip w).
Proof.
  intros Hf. unfold open_input, bind, open, stat.
  pose proof (open_read_only_kept in_fh ip w Hf) as H1.
  destruct (io_open cb in_fh ip true false false w) as [[] w1]; simpl in *;
    [| done].
  pose proof (stat_kept in_fh w1 H1) as H2.
  destruct (io_stat cb in_fh w1) as [[st_size |] w2]; simpl in *; [| done].
  pose proof (check_size_kept st_size
                (umul (umul (umul 8 (n0 n)) (n1 n)) (n2 n)) exact
                err_input_too_small err_input_too_large w2 H2) as H3.
  destruct (check_size _ _ _ _ _ w2); done.
Qed.

Lemma open_output_kept n exact l op w :
  op ≠ p → kept w →
  post (λ _ w', untouched p c out_fh w') (at_exit kept)
       (open_output rt cb n exact l op w).
Proof.
  intros Hne Hf. unfold open_output.
  apply (post_bind (λ (ok : bool) w',
                      kept w' ∧ (ok = true → untouched p c out_fh w'))).
  { unfold open.
    pose proof (open_untouched out_fh op false true false w Hne Hf) as H.
    by destruct (io_open cb out_fh op false true false w). }
  intros ok w1 [Hk Hu].
  destruct ok; [by apply Hu |].
  destruct (errno rt w1 =? EEXIST); [| done].
  apply (post_bind (λ (ok : bool) w',
                      kept w' ∧ (ok = true → untouched p c out_fh w'))).
  { unfold open.
    pose proof (open_untouched out_fh op false false false w1 Hne Hk) as H.
    by destruct (io_open cb out_fh op false false false w1). }
  intros ok w2 [Hk2 Hu2].
  destruct ok; simpl; [| done]. specialize (Hu2 eq_refl).
  unfold bind, stat.
  assert (Hst : untouched p c out_fh (io_stat cb out_fh w2).2).
  { destruct drv; simpl; unfold file_handle_stat_stream, file_handle_stat_fd;
      destruct (get_fh out_fh w2); simpl; try done;
      by apply untouched_set_errno. }
  destruct (io_stat cb out_fh w2) as [[st_size |] w3]; simpl in *;
    [| by destruct Hst].
  unfold check_size.
  destruct (_ <? l); [by destruct Hst |].
  destruct (_ && exact); [by destruct Hst | done].
Qed.

Lemma convert_kept a n w :
  untouched p c out_fh w →
  post (λ _ w', kept w') (at_exit kept) (convert cb rt a n w).
Proof.
  intros Hu. eapply post_weaken.
  - apply (convert_keeps cb rt (untouched p c out_fh)); [| | | exact Hu].
    + intros. by apply seek_untouched.
    + intros. by apply read_untouched.
    + intros. by apply write_untouched.
  - by intros ? ? [? _].
  - by intros ? ? ? [? _].
Qed.

Lemma main_kept o w :
  use_io_driver o = drv →
  output_file o ≠ Some p →
  (should_init_input o = true → input_file o ≠ Some p) →
  kept w →
  post (λ _ w', kept w') (at_exit kept) (main io_driver_callbacks rt o w).
Proof.
  intros Hdrv Hout Hin Hf. unfold main. rewrite Hdrv.
  destruct (_ || _); [done |].
  destruct (input_file o) as [ip |]; [| done].
  apply (post_bind (λ _ w', kept w')).
  - destruct (should_init_input o); [| done].
    apply (post_bind (λ _ w', kept w')).
    + apply initialise_kept; [| done]. intros ->. by apply Hin.
    + intros _ w1 H1. by destruct (output_file o).
  - intros _ w1 H1.
    destruct (output_file o) as [op |]; [| done].
    apply (post_bind (λ _ w', kept w')); [by apply open_input_kept |].
    intros l w2 H2.
    apply (post_bind (λ _ w', untouched p c out_fh w')).
    { apply open_output_kept; [| done]. intros ->. by apply Hout. }
    intros _ w3 H3.
    apply (post_bind (λ _ w', kept w')); [by apply convert_kept |].
    intros _ w4 H4.
    unfold bind, close. simpl. by apply close_kept, close_kept.
Qed.

End Untouched.

(** * The calls of a whole run *)

Section MainCalls.

Context {W : Type}.
Variable cbs : io_driver_t → file_handle_callbacks W.
Variable rt : libc W.
Variable o : options.

Local Abbreviation d := (Logging.callbacks (cbs (use_io_driver o))).
Local Abbreviation rtl := (Logging.runtime rt).
Local Abbreviation fine := (λ s : Logging.logged W, Forall (main_call o) s.2).
Local Abbreviation keeps A := (post (λ (_ : A) s, fine s) (at_exit fine)).

Lemma open_fine fh path read_only should_create should_trunc s :
  (∀ r, main_call o
          (Logging.call_open fh path read_only should_create should_trunc r)) →
  fine s →
  post (λ (_ : bool) s', fine s') (at_exit fine)
       (open d fh path read_only should_create should_trunc s).
Proof.
  intros Hc Hs. unfold open. destruct s as [w log]. simpl.
  destruct (io_open _ fh path read_only should_create should_trunc w) as [r w'].
  simpl. by constructor.
Qed.

Lemma stat_fine fh s : fine s → keeps (option Z) (stat d fh s).
Proof.
  intros Hs. unfold stat. destruct s as [w log]. simpl.
  destruct (io_stat _ fh w) as [r w']. simpl. by constructor.
Qed.

Lemma close_fine fh s : fine s → keeps unit (close d fh s).
Proof.
  intros Hs. unfold close. destruct s as [w log]. simpl. by constructor.
Qed.

Lemma check_size_fine st_size l exact small large (s : Logging.logged W) :
  fine s → keeps unit (check_size st_size l exact small large s).
Proof.
  intros Hs. unfold check_size.
  destruct (_ <? l); [done |]. destruct (_ && exact); done.
Qed.

Lemma convert_fine a n s : fine s → keeps unit (convert d rtl a n s).
Proof.
  intros Hs.
  apply (convert_keeps d rtl (λ s, Forall (main_call o) s.2)); [| | | done].
  - intros fh fp [w log] Hl. simpl in *.
    destruct (io_seek _ fh fp w). simpl. by constructor.
  - intros buf len [w log] Hl. simpl in *.
    destruct (io_read _ in_fh buf len w). simpl. by constructor.
  - intros buf len [w log] Hl. simpl in *.
    destruct (io_write _ out_fh buf len w). simpl. by constructor.
Qed.

Lemma init_input_fine a n s :
  should_init_input o = true → fine s → keeps unit (init_input d rtl a n s).
Proof.
  intros Hinit Hs.
  apply (init_input_keeps d rtl (λ s, Forall (main_call o) s.2)); [| done].
  intros buf len [w log] Hl. simpl in *.
  destruct (io_write _ in_fh buf len w). simpl. by constructor.
Qed.

Lemma initialise_fine a n ip s :
  input_file o = Some ip → should_init_input o = true →
  fine s → keeps unit (initialise rtl d a n ip s).
Proof.
  intros Hip Hinit Hs. unfold initialise.
  apply (post_bind (λ _ s', fine s')); [by apply open_fine |].
  intros ok s1 H1.
  apply (post_bind (λ _ s', fine s')).
  { destruct ok; [done |].
    destruct (errno rtl s1 =? EEXIST); [| done].
    apply (post_bind (λ _ s', fine s')); [by apply open_fine |].
    intros ok2 s2 H2. by destruct ok2. }
  intros _ s2 H2.
  apply (post_bind (λ _ s', fine s')); [by apply init_input_fine |].
  intros _ s3 H3. by apply close_fine.
Qed.

Lemma open_input_fine n exact ip s :
  input_file o = Some ip →
  fine s → keeps Z (open_input rtl d n exact ip s).
Proof.
  intros Hip Hs. unfold open_input.
  apply (post_bind (λ _ s', fine s')); [by apply open_fine |].
  intros ok s1 H1. destruct ok; simpl; [| done].
  apply (post_bind (λ _ s', fine s')); [by apply stat_fine |].
  intros [st_size |] s2 H2; [| done].
  apply (post_bind (λ _ s', fine s')); [by apply check_size_fine |].
  by intros.
Qed.

Lemma open_output_fine n exact l op s :
  output_file o = Some op →
  fine s → keeps unit (open_output rtl d n exact l op s).
Proof.
  intros Hop Hs. unfold open_output.
  apply (post_bind (λ _ s', fine s')); [by apply open_fine |].
  intros ok s1 H1. destruct ok; [done |].
  destruct (errno rtl s1 =? EEXIST); [| done].
  apply (post_bind (λ _ s', fine s')); [by apply open_fine |].
  intros ok2 s2 H2. destruct ok2; simpl; [| done].
  apply (post_bind (λ _ s', fine s')); [by apply stat_fine |].
  intros [st_size |] s3 H3; [| done].
  by apply check_size_fine.
Qed.

Lemma main_fine s :
  fine s →
  keeps unit (main (λ drv, Logging.callbacks (cbs drv)) rtl o s).
Proof.
  intros Hs. unfold main.
  destruct (_ || _); [done |].
  destruct (input_file o) as [ip |] eqn:Hip; [| done].
  apply (post_bind (λ _ s', fine s')).
  - destruct (should_init_input o) eqn:Hinit; [| done].
    apply (post_bind (λ _ s', fine s')); [by apply initialise_fine |].
    intros _ s1 H1. by destruct (output_file o).
  - intros _ s1 H1.
    destruct (output_file o) as [op |] eqn:Hop; [| done].
    apply (post_bind (λ _ s', fine s')); [by apply open_input_fine |].
    intros l s2 H2.
    apply (post_bind (λ _ s', fine s')); [by apply open_output_fine |].
    intros _ s3 H3.
    apply (post_bind (λ _ s', fine s')); [by apply convert_fine |].
    intros _ s4 H4.
    apply (post_bind (λ _ s', fine s')); [by apply close_fine |].
    intros _ s5 H5. by apply close_fine.
Qed.

End MainCalls.

(** X7.  Whatever the driver does and however the process ends, [main]
    opens no file but the two it was given, each under its own name and
    through its own handle: the input file for writing only when it is to
    be initialised, the output file never with the request to empty it;
    it writes to the input file only to initialise it, and never reads
    the output file. *)
Theorem main_opens_only_its_two_files {W : Type}
    (cbs : io_driver_t → file_handle_callbacks W) (rt : libc W)
    (o : options) (w : W) :
  Forall (main_call o)
    (Logging.final
       (main (λ drv, Logging.callbacks (cbs drv)) (Logging.runtime rt) o (w, []))).2.
Proof.
  pose proof (main_fine cbs rt o (w, []) ltac:(by constructor)) as H.
  by destruct (main _ (Logging.runtime rt) o (w, [])).
Qed.

(** * How many calls a run makes *)

Section Totals.

Context {W : Type}.
Variable d : file_handle_callbacks W.
Variable rt : libc W.
Variable wt : Logging.call → Z.

Local Abbreviation cbl := (Logging.callbacks d).
Local Abbreviation rtl := (Logging.runtime rt).
Local Abbreviation adds_or Q A s c :=
  (post (λ (_ : A) (s' : Logging.logged W), total wt s'.2 = total wt s.2 + c) Q).
Local Abbreviation adds A s c := (adds_or anyhow A s c).

Lemma for_ulong_adds {A} Q bound (body : Z → A → M (Logging.logged W) A) c a s :
  0 ≤ bound →
  (∀ t a' s', 0 ≤ t < bound → adds_or Q A s' c (body t a' s')) →
  adds_or Q A s (bound * c) (for_ulong bound body a s).
Proof.
  intros Hb Hbody.
  apply (post_for_ulong (λ t (_ : A) (s' : Logging.logged W),
                           total wt s'.2 = total wt s.2 + t * c)); [done | lia |].
  intros t a' s' Ht Hs'.
  eapply post_weaken; [by apply Hbody | | done].
  intros ? s'' E. simpl in *. lia.
Qed.

Lemma bind_adds {A B} Q (m : M (Logging.logged W) A)
    (k : A → M (Logging.logged W) B) c1 c2 s :
  adds_or Q A s c1 (m s) →
  (∀ a s', adds_or Q B s' c2 (k a s')) →
  adds_or Q B s (c1 + c2) (bind m k s).
Proof.
  intros Hm Hk.
  apply (post_bind (λ (_ : A) (s' : Logging.logged W),
                      total wt s'.2 = total wt s.2 + c1)); [done |].
  intros a s' E.
  eapply post_weaken; [apply Hk | | done].
  intros ? s'' E'. simpl in *. lia.
Qed.

Lemma ret_adds {A} Q (a : A) (s : Logging.logged W) : adds_or Q A s 0 (ret a s).
Proof. simpl. lia. Qed.

Variables seek_in read_in seek_out write_out write_in : Z.
Hypothesis Hseek_in : ∀ fp r, wt (Logging.call_seek in_fh fp r) = seek_in.
Hypothesis Hseek_out : ∀ fp r, wt (Logging.call_seek out_fh fp r) = seek_out.
Hypothesis Hread : ∀ len r, wt (Logging.call_read in_fh len r) = read_in.
Hypothesis Hwrite : ∀ len r, wt (Logging.call_write out_fh len r) = write_out.
Hypothesis Hwrite_in : ∀ len r, wt (Logging.call_write in_fh len r) = write_in.

Lemma seek_adds fh fp dg s :
  adds unit s (match fh with in_fh => seek_in | out_fh => seek_out end)
       (seek_or_exit cbl rtl fh fp dg s).
Proof.
  destruct s as [w log]. unfold seek_or_exit, bind, seek. simpl.
  destruct (io_seek d fh fp w) as [r w']. simpl.
  destruct (r <? 0); simpl; [done |].
  destruct fh; rewrite ?Hseek_in, ?Hseek_out; lia.
Qed.

Lemma read_adds buf len s :
  adds (list byte) s read_in (read_or_exit cbl rtl buf len s).
Proof.
  destruct s as [w log]. unfold read_or_exit, bind, read. simpl.
  destruct (io_read d in_fh buf len w) as [[r buf'] w']. simpl.
  destruct (r <=? 0); [by destruct (r =? 0) |]. simpl.
  rewrite Hread. lia.
Qed.

Lemma write_adds buf len s :
  adds unit s write_out (write_or_exit cbl rtl buf len s).
Proof.
  destruct s as [w log]. unfold write_or_exit, bind, write. simpl.
  destruct (io_write d out_fh buf len w) as [r w']. simpl.
  destruct (r <=? 0); [done |]. simpl.
  rewrite Hwrite. lia.
Qed.

Lemma get_adds fp buf len s :
  adds (list byte) s (seek_in + read_in)
    ((let* _ := seek_or_exit cbl rtl in_fh fp err_seek_input in
      read_or_exit cbl rtl buf len) s).
Proof.
  apply bind_adds; [apply (seek_adds in_fh) |]. intros. apply read_adds.
Qed.

Lemma put_adds fp buf len s :
  adds unit s (seek_out + write_out)
    ((let* _ := seek_or_exit cbl rtl out_fh fp err_seek_output in
      write_or_exit cbl rtl buf len) s).
Proof.
  apply bind_adds; [apply (seek_adds out_fh) |]. intros. apply write_adds.
Qed.

Lemma copy_element_adds n i j k s :
  adds unit s (seek_in + read_in + (seek_out + write_out))
       (copy_element cbl rtl n i j k s).
Proof.
  unfold copy_element. apply post_bind_assoc.
  apply bind_adds; [apply get_adds |]. intros. apply put_adds.
Qed.

Lemma adds_eq {A} Q (s : Logging.logged W) c c' (r : outcome (Logging.logged W) A) :
  c = c' → adds_or Q A s c r → adds_or Q A s c' r.
Proof. by intros ->. Qed.

Lemma alloc_adds {B} size (k : list byte → M (Logging.logged W) B) c s :
  (∀ v, adds B s c (k v s)) →
  adds B s c
    ((let* v := alloc rtl size in
      match v with
      | None => exit err_alloc ENOMEM
      | Some v => k v
      end) s).
Proof.
  intros Hk. unfold bind, alloc.
  destruct (malloc rtl size s); simpl; [apply Hk | done].
Qed.

Section Dims.

Variable n : dims.
Hypothesis Hpos : dims_positive n.

Lemma convert_adds a s :
  adds unit s
    ((seek_in + read_in) * conversion_reads a n
     + (seek_out + write_out) * conversion_writes a n)
    (convert cbl rtl a n s).
Proof.
  destruct Hpos as (P0 & P1 & P2).
  set (c4 := seek_in + read_in + (seek_out + write_out)).
  destruct a; simpl; unfold volume.
  - unfold convert_ijk_map.
    apply (adds_eq _ _ (n0 n * (n1 n * (n2 n * c4)))); [unfold c4; lia |].
    apply for_ulong_adds; [lia |]. intros i [] s1 Hi.
    apply for_ulong_adds; [lia |]. intros j [] s2 Hj.
    apply for_ulong_adds; [lia |]. intros k [] s3 Hk.
    apply copy_element_adds.
  - unfold convert_jki_map.
    apply (adds_eq _ _ (n1 n * (n2 n * (n0 n * c4)))); [unfold c4; lia |].
    apply for_ulong_adds; [lia |]. intros j [] s1 Hj.
    apply for_ulong_adds; [lia |]. intros k [] s2 Hk.
    apply for_ulong_adds; [lia |]. intros i [] s3 Hi.
    apply copy_element_adds.
  - unfold convert_jik_map.
    apply (adds_eq _ _ (n1 n * (n0 n * (n2 n * c4)))); [unfold c4; lia |].
    apply for_ulong_adds; [lia |]. intros j [] s1 Hj.
    apply for_ulong_adds; [lia |]. intros i [] s2 Hi.
    apply for_ulong_adds; [lia |]. intros k [] s3 Hk.
    apply copy_element_adds.
  - unfold convert_vector_input.
    apply alloc_adds. intros v.
    apply (adds_eq _ _ (n1 n * (n2 n * ((seek_in + read_in)
                        + (n0 n * (seek_out + write_out) + 0))) + 0)); [lia |].
    apply bind_adds; [| intros; apply ret_adds].
    apply for_ulong_adds; [lia |]. intros j v1 s1 Hj.
    apply for_ulong_adds; [lia |]. intros k v2 s2 Hk.
    apply post_bind_assoc.
    apply bind_adds; [apply get_adds |]. intros v3 s3.
    apply bind_adds; [| intros; apply ret_adds].
    apply for_ulong_adds; [lia |]. intros i [] s4 Hi.
    apply put_adds.
  - unfold convert_vector_output.
    apply alloc_adds. intros v.
    apply (adds_eq _ _ (n1 n * (n0 n * (n2 n * (seek_in + read_in + 0)
                        + ((seek_out + write_out) + 0))) + 0)); [lia |].
    apply bind_adds; [| intros; apply ret_adds].
    apply for_ulong_adds; [lia |]. intros j v1 s1 Hj.
    apply for_ulong_adds; [lia |]. intros i v2 s2 Hi.
    apply bind_adds.
    + apply for_ulong_adds; [lia |]. intros k v3 s3 Hk.
      apply post_bind_assoc.
      apply bind_adds; [apply get_adds |]. intros; apply ret_adds.
    + intros v3 s3.
      apply post_bind_assoc.
      apply bind_adds; [apply put_adds |]. intros; apply ret_adds.
  - unfold convert_matrix.
    apply alloc_adds. intros v.
    apply (adds_eq _ _ (n1 n * ((seek_in + read_in)
                        + (n0 n * (n2 n * 0) + ((seek_out + write_out) + 0))) + 0));
      [lia |].
    apply bind_adds; [| intros; apply ret_adds].
    apply for_ulong_adds; [lia |]. intros j v1 s1 Hj.
    apply post_bind_assoc.
    apply bind_adds; [apply get_adds |]. intros v2 s2.
    apply bind_adds.
    + apply for_ulong_adds; [lia |]. intros i v3 s3 Hi.
      apply for_ulong_adds; [lia |]. intros k v4 s4 Hk.
      apply ret_adds.
    + intros v3 s3.
      apply post_bind_assoc.
      apply bind_adds; [apply put_adds |]. intros; apply ret_adds.
Qed.

(** A write whose result is not looked at. *)
Lemma unchecked_write_adds Q (v : list byte) len s :
  adds_or Q (list byte) s write_in
    ((let* n_bytes := write cbl in_fh v len in ret v) s).
Proof.
  destruct s as [w log]. unfold bind, write. simpl.
  destruct (io_write d in_fh v len w) as [r w']. simpl.
  rewrite Hwrite_in. lia.
Qed.

Lemma fill_adds Q bound (f : Z → list byte → list byte) v s :
  adds_or Q (list byte) s 0 (for_ulong bound (λ i v, ret (f i v)) v s).
Proof.
  apply (post_for_ulong_const
           (λ (_ : list byte) (s' : Logging.logged W),
              total wt s'.2 = total wt s.2 + 0)); [lia |].
  intros t v' s' _ E. exact E.
Qed.

Lemma init_element_adds offset i j k s :
  adds unit s write_in (init_element cbl rtl offset n i j k s).
Proof.
  destruct s as [w log]. unfold init_element, bind, write. simpl.
  destruct (io_write d in_fh _ 8 w) as [r w']. simpl.
  destruct (r <=? 0); [done |]. simpl.
  rewrite Hwrite_in. lia.
Qed.

Lemma init_input_adds a s :
  adds unit s (write_in * initialisation_writes a n) (init_input cbl rtl a n s).
Proof.
  destruct Hpos as (P0 & P1 & P2).
  destruct a; simpl; unfold volume.
  - unfold init_ijk_map.
    apply (adds_eq _ _ (n0 n * (n1 n * (n2 n * write_in)))); [lia |].
    apply for_ulong_adds; [lia |]. intros i [] s1 Hi.
    apply for_ulong_adds; [lia |]. intros j [] s2 Hj.
    apply for_ulong_adds; [lia |]. intros k [] s3 Hk.
    apply init_element_adds.
  - unfold init_jki_map.
    apply (adds_eq _ _ (n1 n * (n2 n * (n0 n * write_in)))); [lia |].
    apply for_ulong_adds; [lia |]. intros j [] s1 Hj.
    apply for_ulong_adds; [lia |]. intros k [] s2 Hk.
    apply for_ulong_adds; [lia |]. intros i [] s3 Hi.
    apply init_element_adds.
  - unfold init_jik_map.
    apply (adds_eq _ _ (n0 n * (n1 n * (n2 n * write_in)))); [lia |].
    apply for_ulong_adds; [lia |]. intros i [] s1 Hi.
    apply for_ulong_adds; [lia |]. intros j [] s2 Hj.
    apply for_ulong_adds; [lia |]. intros k [] s3 Hk.
    apply init_element_adds.
  - unfold init_vector_input. apply alloc_adds. intros v.
    apply (adds_eq _ _ (n1 n * (n2 n * (0 + write_in)) + 0)); [lia |].
    apply bind_adds; [| intros; apply ret_adds].
    apply for_ulong_adds; [lia |]. intros j v1 s1 Hj.
    apply for_ulong_adds; [lia |]. intros k v2 s2 Hk.
    apply bind_adds; [apply fill_adds |]. intros. apply unchecked_write_adds.
  - unfold init_vector_output. apply alloc_adds. intros v.
    apply (adds_eq _ _ (n1 n * (n0 n * (0 + write_in)) + 0)); [lia |].
    apply bind_adds; [| intros; apply ret_adds].
    apply for_ulong_adds; [lia |]. intros j v1 s1 Hj.
    apply for_ulong_adds; [lia |]. intros i v2 s2 Hi.
    apply bind_adds; [apply fill_adds |]. intros. apply unchecked_write_adds.
  - unfold init_matrix. apply alloc_adds. intros v.
    apply (adds_eq _ _ (n1 n * (n2 n * 0 + write_in) + 0)); [lia |].
    apply bind_adds; [| intros; apply ret_adds].
    apply for_ulong_adds; [lia |]. intros j v1 s1 Hj.
    apply bind_adds.
    + apply for_ulong_adds; [lia |]. intros k v2 s2 Hk. apply fill_adds.
    + intros. apply unchecked_write_adds.
Qed.

(** Once they have their buffer, the buffered initialisations do not
    exit. *)
Lemma buffered_init_returns a s :
  a = algorithm_vector_input ∨ a = algorithm_vector_output ∨ a = algorithm_matrix →
  post (λ _ _, True) (λ dg st s', dg = err_alloc ∧ st = ENOMEM ∧ s' = s)
       (init_input cbl rtl a n s).
Proof.
  destruct Hpos as (P0 & P1 & P2).
  assert (Hw : ∀ bound (body : Z → list byte → M (Logging.logged W) (list byte)) v s0,
            (∀ t v' s', post (λ _ _, True) never (body t v' s')) →
            post (λ _ _, True) never (for_ulong bound body v s0)).
  { intros bound body v s0 Hb.
    apply (post_for_ulong_const (λ _ _, True)); [done |].
    intros. apply Hb. }
  assert (Hu : ∀ (v : list byte) len s0,
            post (λ _ _, True) never
              ((let* n_bytes := write cbl in_fh v len in ret v) s0)).
  { intros v len [w log]. unfold bind, write. simpl.
    by destruct (io_write d in_fh v len w). }
  assert (Hf : ∀ bound (f : Z → list byte → list byte) v s0,
            post (λ (_ : list byte) (_ : Logging.logged W), True) never
              (for_ulong bound (λ i v, ret (f i v)) v s0)).
  { intros. apply Hw. by intros. }
  intros [-> | [-> | ->]]; simpl.
  - unfold init_vector_input, bind at 1, alloc.
    destruct (malloc rtl _ s); simpl; [| done].
    apply (post_weaken (λ _ _, True) _ never); [| done | by intros].
    apply (post_bind (λ _ _, True)); [| by intros].
    apply Hw. intros j v1 s1. apply Hw. intros k v2 s2.
    apply (post_bind (λ _ _, True)); [apply Hf |]. intros. apply Hu.
  - unfold init_vector_output, bind at 1, alloc.
    destruct (malloc rtl _ s); simpl; [| done].
    apply (post_weaken (λ _ _, True) _ never); [| done | by intros].
    apply (post_bind (λ _ _, True)); [| by intros].
    apply Hw. intros j v1 s1. apply Hw. intros i v2 s2.
    apply (post_bind (λ _ _, True)); [apply Hf |]. intros. apply Hu.
  - unfold init_matrix, bind at 1, alloc.
    destruct (malloc rtl _ s); simpl; [| done].
    apply (post_weaken (λ _ _, True) _ never); [| done | by intros].
    apply (post_bind (λ _ _, True)); [| by intros].
    apply Hw. intros j v1 s1.
    apply (post_bind (λ _ _, True)).
    + apply Hw. intros k v2 s2. apply Hf.
    + intros. apply Hu.
Qed.

End Dims.

End Totals.

Section Counts.

Context {W : Type}.
Variable d : file_handle_callbacks W.
Variable rt : libc W.

(** Counting is weighing with the weights [1] and [0]. *)
Lemma total_count (P : Logging.call → bool) log :
  total (λ c, if P c then 1 else 0) log = count_calls P log.
Proof.
  unfold count_calls. induction log as [| c log IH]; [reflexivity |].
  simpl. rewrite filter_cons.
  destruct (decide (P c)) as [H | H]; destruct (P c); simpl in *; try done; lia.
Qed.

Lemma only_conversion_calls a n s :
  Forall conversion_call s.2 →
  Forall conversion_call
    (Logging.final (convert (Logging.callbacks d) (Logging.runtime rt) a n s)).2.
Proof.
  intros Hs.
  pose proof (convert_keeps (Logging.callbacks d) (Logging.runtime rt)
                (λ s, Forall conversion_call s.2)) as H.
  specialize (H ltac:(intros fh fp [w log] Hl; simpl in *;
                       destruct (io_seek d fh fp w); simpl; by constructor)
                ltac:(intros buf len [w log] Hl; simpl in *;
                       destruct (io_read d in_fh buf len w); simpl; by constructor)
                ltac:(intros buf len [w log] Hl; simpl in *;
                       destruct (io_write d out_fh buf len w); simpl; by constructor)
                a n s Hs).
  by destruct (convert (Logging.callbacks d) (Logging.runtime rt) a n s).
Qed.

Lemma only_initialisation_calls a n s :
  Forall initialisation_call s.2 →
  Forall initialisation_call
    (Logging.final (init_input (Logging.callbacks d) (Logging.runtime rt) a n s)).2.
Proof.
  intros Hs.
  pose proof (init_input_keeps (Logging.callbacks d) (Logging.runtime rt)
                (λ s, Forall initialisation_call s.2)) as H.
  specialize (H ltac:(intros buf len [w log] Hl; simpl in *;
                       destruct (io_write d in_fh buf len w); simpl; by constructor)
                a n s Hs).
  by destruct (init_input (Logging.callbacks d) (Logging.runtime rt) a n s).
Qed.

End Counts.

(** X8.  A conversion, with any algorithm and whatever the driver does, makes
    no call but [seek] and [read] on the input file and [seek] and [write]
    on the output file: it never reads what it wrote, writes to its input,
    or opens, stats or closes a file. *)
Theorem conversion_makes_no_other_call {W : Type}
    (d : file_handle_callbacks W) (rt : libc W)
    (a : algorithm_t) (n : dims) (w : W) :
  Forall conversion_call
    (Logging.final
       (convert (Logging.callbacks d) (Logging.runtime rt) a n (w, []))).2.
Proof. by apply only_conversion_calls. Qed.

(** X9.  A conversion that returns has made, for positive dimensions,
    [n0*n1*n2] calls of [read] and as many of [write], except that
    [vector_input] reads [n1*n2] times, [vector_output] writes [n1*n0]
    times, and [matrix] reads and writes [n1] times; each was preceded by
    one [seek]. *)
Theorem conversion_call_counts {W : Type}
    (d : file_handle_callbacks W) (rt : libc W)
    (a : algorithm_t) (n : dims) (w : W) (s' : Logging.logged W) :
  dims_positive n →
  convert (Logging.callbacks d) (Logging.runtime rt) a n (w, []) = Ret tt s' →
  count_calls is_read s'.2 = conversion_reads a n ∧
  count_calls is_write s'.2 = conversion_writes a n ∧
  count_calls is_seek s'.2 = conversion_reads a n + conversion_writes a n.
Proof.
  intros Hpos E.
  assert (H : ∀ (P : Logging.call → bool) si ri so wo,
    (∀ fp r, (if P (Logging.call_seek in_fh fp r) then 1 else 0) = si) →
    (∀ fp r, (if P (Logging.call_seek out_fh fp r) then 1 else 0) = so) →
    (∀ len r, (if P (Logging.call_read in_fh len r) then 1 else 0) = ri) →
    (∀ len r, (if P (Logging.call_write out_fh len r) then 1 else 0) = wo) →
    count_calls P s'.2
    = (si + ri) * conversion_reads a n + (so + wo) * conversion_writes a n).
  { intros P si ri so wo H1 H2 H3 H4.
    pose proof (convert_adds d rt (λ c, if P c then 1 else 0)
                  si ri so wo H1 H2 H3 H4 n Hpos a (w, [])) as H.
    rewrite E in H. simpl in H. by rewrite total_count in H. }
  split; [| split].
  - rewrite (H is_read 0 1 0 0) by done. lia.
  - rewrite (H is_write 0 0 0 1) by done. lia.
  - rewrite (H is_seek 1 0 1 0) by done. lia.
Qed.

Lemma conversion_call_counts_witness :
  let n := Dims 2 2 3 in
  let w := Posix.World {[ "in"%string := replicate 96 x01; "out"%string := [] ]} 0
             (Some (Posix.OpenFile "in" 0 false))
             (Some (Posix.OpenFile "out" 0 true)) in
  let r := convert (Logging.callbacks Posix.file_handle_callbacks_fd)
             (Logging.runtime (Posix.posix_libc IEEE.double_of_ulong x00))
             algorithm_vector_input n (w, []) in
  count_calls is_read (Logging.final r).2 = conversion_reads algorithm_vector_input n ∧
  count_calls is_write (Logging.final r).2 = conversion_writes algorithm_vector_input n ∧
  count_calls is_seek (Logging.final r).2
  = conversion_reads algorithm_vector_input n
    + conversion_writes algorithm_vector_input n.
Proof.
  intros n w r.
  apply (conversion_call_counts Posix.file_handle_callbacks_fd
           (Posix.posix_libc IEEE.double_of_ulong x00) algorithm_vector_input n w).
  - unfold dims_positive, ULONG_MOD. simpl. lia.
  - vm_compute. reflexivity.
Defined.

(** X10.  An initialisation, whatever the driver does, makes no call but
    [write] on the input file: it relies on the file position alone and
    never seeks; when it returns, for positive dimensions, it has written
    [n0*n1*n2] times, except that [vector_input] has written [n1*n2]
    times, [vector_output] [n1*n0] times and [matrix] [n1] times. *)
Theorem initialisation_only_writes {W : Type}
    (d : file_handle_callbacks W) (rt : libc W)
    (a : algorithm_t) (n : dims) (w : W) :
  let r := init_input (Logging.callbacks d) (Logging.runtime rt) a n (w, []) in
  Forall initialisation_call (Logging.final r).2 ∧
  (dims_positive n → ∀ s', r = Ret tt s' →
     Z.of_nat (length s'.2) = initialisation_writes a n).
Proof.
  intros r. split; [by apply only_initialisation_calls |].
  intros Hpos s' E.
  pose proof (init_input_adds d rt (λ _, 1) 1 ltac:(done) n Hpos a (w, [])) as H.
  fold r in H. rewrite E in H. simpl in H.
  assert (Hl : ∀ log, total (λ _, 1) log = Z.of_nat (length log)).
  { induction log as [| c log IH]; simpl; [done | lia]. }
  rewrite Hl in H. lia.
Qed.

Section BufferedInit.

Context {W : Type}.
Variable d : file_handle_callbacks W.
Variable rt : libc W.

Local Abbreviation cbl := (Logging.callbacks d).
Local Abbreviation rtl := (Logging.runtime rt).
Local Abbreviation asks L := (λ s : Logging.logged W, Forall (write_of L) s.2).

Lemma unchecked_write_asks L (v : list byte) s :
  asks L s →
  post (λ (_ : list byte) s', asks L s') (at_exit (asks L))
       ((let* n_bytes := write cbl in_fh v L in ret v) s).
Proof.
  intros Hs. unfold bind, write. destruct s as [w log]. simpl.
  destruct (io_write d in_fh v L w) as [r w']. simpl.
  constructor; [by exists r | done].
Qed.

Lemma fill_asks L bound (f : Z → list byte → list byte) v s :
  asks L s →
  post (λ (_ : list byte) s', asks L s') (at_exit (asks L))
       (for_ulong bound (λ i v, ret (f i v)) v s).
Proof.
  intros Hs.
  apply (post_for_ulong_const (λ (_ : list byte) s', asks L s')); [done |].
  intros t v' s' _ Hs'. exact Hs'.
Qed.

Ltac loop :=
  match goal with
  | |- post (λ _ s', Forall (write_of ?L) s'.2) _ _ =>
      apply (post_for_ulong_const (λ (_ : list byte) s', asks L s')); [done |]
  end.

Lemma buffered_init_asks a n s :
  dims_positive n →
  transfer_size a n < ULONG_MOD →
  a = algorithm_vector_input ∨ a = algorithm_vector_output ∨ a = algorithm_matrix →
  asks (transfer_size a n) s →
  post (λ _ s', asks (transfer_size a n) s') (at_exit (asks (transfer_size a n)))
       (init_input cbl rtl a n s).
Proof.
  intros (P0 & P1 & P2) Hsize Ha Hs.
  destruct Ha as [-> | [-> | ->]]; simpl in *.
  - unfold init_vector_input, bind at 1, alloc.
    destruct (malloc rtl _ s); simpl; [| exact Hs].
    unfold umul. rewrite ulong_small by lia.
    apply (post_bind (λ (_ : list byte) s', asks (8 * n0 n) s')); [| by intros].
    loop. intros j v1 s1 Hj H1.
    loop. intros k v2 s2 Hk H2.
    apply (post_bind (λ (_ : list byte) s', asks (8 * n0 n) s')).
    + by apply fill_asks.
    + intros v3 s3 H3. by apply unchecked_write_asks.
  - unfold init_vector_output, bind at 1, alloc.
    destruct (malloc rtl _ s); simpl; [| exact Hs].
    unfold umul. rewrite ulong_small by lia.
    apply (post_bind (λ (_ : list byte) s', asks (8 * n2 n) s')); [| by intros].
    loop. intros j v1 s1 Hj H1.
    loop. intros i v2 s2 Hi H2.
    apply (post_bind (λ (_ : list byte) s', asks (8 * n2 n) s')).
    + by apply fill_asks.
    + intros v3 s3 H3. by apply unchecked_write_asks.
  - unfold init_matrix, bind at 1, alloc.
    destruct (malloc rtl _ s); simpl; [| exact Hs].
    assert (E : umul (umul 8 (n0 n)) (n2 n) = 8 * (n0 n * n2 n)).
    { unfold umul. rewrite (ulong_small (8 * n0 n)) by nia.
      rewrite ulong_small by lia. lia. }
    rewrite E.
    apply (post_bind (λ (_ : list byte) s', asks (8 * (n0 n * n2 n)) s'));
      [| by intros].
    loop. intros j v1 s1 Hj H1.
    apply (post_bind (λ (_ : list byte) s', asks (8 * (n0 n * n2 n)) s')).
    + loop. intros k v2 s2 Hk H2. by apply fill_asks.
    + intros v3 s3 H3. by apply unchecked_write_asks.
Qed.

End BufferedInit.

(** X11.  The buffered initialisations cannot fail once they have their
    buffer.  When the size of the buffer does not wrap around, so that
    every store is inside the block: whatever [write] returns, they
    return, after as many calls of [write] as they have buffers to write,
    each asking for the whole buffer; unless [malloc] failed, in which
    case the process exits with [ENOMEM] before any call. *)
Theorem buffered_initialisation_always_returns {W : Type}
    (d : file_handle_callbacks W) (rt : libc W)
    (a : algorithm_t) (n : dims) (w : W) :
  dims_positive n →
  transfer_size a n < ULONG_MOD →
  a = algorithm_vector_input ∨ a = algorithm_vector_output ∨ a = algorithm_matrix →
  let r := init_input (Logging.callbacks d) (Logging.runtime rt) a n (w, []) in
  (∃ s', r = Ret tt s' ∧
         Z.of_nat (length s'.2) = initialisation_writes a n ∧
         Forall (write_of (transfer_size a n)) s'.2) ∨
  r = Exit err_alloc ENOMEM (w, []).
Proof.
  intros Hpos Hsize Ha r.
  pose proof (buffered_init_returns d rt n Hpos a (w, []) Ha) as H.
  pose proof (init_input_adds d rt (λ _, 1) 1 ltac:(done) n Hpos a (w, [])) as Hc.
  pose proof (buffered_init_asks d rt a n (w, []) Hpos Hsize Ha
                ltac:(by constructor)) as Hk.
  fold r in H, Hc, Hk.
  assert (Hl : ∀ log, total (λ _, 1) log = Z.of_nat (length log)).
  { induction log as [| c log IH]; simpl; [done | lia]. }
  destruct r as [[] s' | dg st s'']; simpl in *.
  - left. exists s'. split; [done |]. split; [| done]. rewrite Hl in Hc. lia.
  - right. by destruct H as (-> & -> & ->).
Qed.

Lemma buffered_initialisation_always_returns_witness :
  let n := Dims 2 3 2 in
  let w := Posix.World ∅ 0 None None in
  let r := init_input (Logging.callbacks Posix.file_handle_callbacks_fd)
             (Logging.runtime (Posix.posix_libc IEEE.double_of_ulong x00))
             algorithm_matrix n (w, []) in
  (∃ s', r = Ret tt s' ∧
         Z.of_nat (length s'.2) = initialisation_writes algorithm_matrix n ∧
         Forall (write_of (transfer_size algorithm_matrix n)) s'.2) ∨
  r = Exit err_alloc ENOMEM (w, []).
Proof.
  intros n w.
  apply (buffered_initialisation_always_returns Posix.file_handle_callbacks_fd
           (Posix.posix_libc IEEE.double_of_ulong x00) algorithm_matrix n w).
  - unfold dims_positive, ULONG_MOD. simpl. lia.
  - unfold transfer_size, ULONG_MOD. simpl. lia.
  - right. right. reflexivity.
Defined.

(** * More about whole runs *)

Section Runs.

Import Posix.

Variable drv : io_driver_t.
Variable cast : Z → double.
Variable junk : byte.

Local Abbreviation rt := (posix_libc cast junk).

Lemma main_converts n exact input output l a (w w1 w2 : world) :
  dims_positive n →
  open_input rt (io_driver_callbacks drv) n exact input w = Ret l w1 →
  open_output rt (io_driver_callbacks drv) n exact l output w1 = Ret tt w2 →
  ∀ rt' : libc world, errno rt' = last_errno →
  main io_driver_callbacks rt' (Options (Some input) (Some output) drv exact a false n) w
  = (let* _ := convert (io_driver_callbacks drv) rt' a n in
     let* _ := close (io_driver_callbacks drv) out_fh in
     close (io_driver_callbacks drv) in_fh) w2.
Proof.
  intros (P0 & P1 & P2) E1 E2 rt' Hrt. unfold main. simpl.
  destruct (Z.eqb_spec (n0 n) 0); [lia |].
  destruct (Z.eqb_spec (n1 n) 0); [lia |].
  destruct (Z.eqb_spec (n2 n) 0); [lia |]. simpl.
  unfold bind at 1. unfold ret at 1.
  assert (E1' : open_input rt' (io_driver_callbacks drv) n exact input w = Ret l w1).
  { rewrite <- E1. unfold open_input, exit_errno. by rewrite Hrt. }
  assert (E2' : open_output rt' (io_driver_callbacks drv) n exact l output w1
                = Ret tt w2).
  { rewrite <- E2. unfold open_output, exit_errno. by rewrite Hrt. }
  unfold bind at 1. rewrite E1'. unfold bind at 1. by rewrite E2'.
Qed.

Lemma init_only_result a n exact input w :
  dims_positive n → 8 * volume n ≤ OFF_MAX →
  whole_transfers drv a n →
  ∃ w', main io_driver_callbacks rt (Options (Some input) None drv exact a true n) w
        = Exit init_only 0 w' ∧
        fs w' = <[input := init_content cast a n]> (fs w).
Proof.
  intros Hpos Hfit Hlim. pose proof Hpos as (P0 & P1 & P2).
  rewrite main_init_only by lia.
  destruct (initialise_ok drv cast junk input (fs w) n Hpos Hfit a w Hlim eq_refl)
    as (w' & E & Hfs).
  rewrite E. by exists w'.
Qed.

Lemma small_fits n : 8 * volume n ≤ OFF_MAX → volume n ≤ ULONG_MOD.
Proof. unfold OFF_MAX, ULONG_MOD. lia. Qed.

End Runs.

(** X12.  The [ijk_map], [jki_map], [vector_input] and [matrix] initialisations
    all leave the same file: the one that holds the value [p] at element
    position [p], for [p] from [0] to [n0*n1*n2 - 1]; this when the data
    fits a file and the driver moves the writes of the variant whole. *)
Theorem four_initialisations_number_the_elements
    (drv : io_driver_t) (cast : Z → double) (junk : byte)
    (a : algorithm_t) (n : dims) (exact : bool) (input : string)
    (w : Posix.world) :
  dims_positive n → 8 * volume n ≤ OFF_MAX →
  whole_transfers drv a n →
  a ≠ algorithm_jik_map → a ≠ algorithm_vector_output →
  ∃ w',
    main Posix.io_driver_callbacks (Posix.posix_libc cast junk)
         (Options (Some input) None drv exact a true n) w
    = Exit init_only 0 w' ∧
    Posix.fs w' !! input = Some (counting cast (volume n)).
Proof.
  intros Hpos Hfit Hlim Hjik Hvo.
  destruct (init_only_result drv cast junk a n exact input w Hpos Hfit Hlim)
    as (w' & E & Hfs).
  exists w'. split; [exact E |].
  rewrite Hfs, lookup_insert_eq.
  by rewrite (init_content_counting cast n Hpos (small_fits n Hfit) a).
Qed.

Lemma four_initialisations_number_the_elements_witness :
  ∃ w',
    main Posix.io_driver_callbacks (Posix.posix_libc IEEE.double_of_ulong x00)
         (Options (Some "in"%string) None io_driver_fd false
                  algorithm_vector_input true (Dims 2 3 2))
         (Posix.World ∅ 0 None None)
    = Exit init_only 0 w' ∧
    Posix.fs w' !! "in"%string
    = Some (counting IEEE.double_of_ulong (volume (Dims 2 3 2))).
Proof.
  apply (four_initialisations_number_the_elements io_driver_fd
           IEEE.double_of_ulong x00 algorithm_vector_input (Dims 2 3 2) false "in"
           (Posix.World ∅ 0 None None)).
  - unfold dims_positive, ULONG_MOD. simpl. lia.
  - unfold volume, OFF_MAX. simpl. lia.
  - intros _. unfold transfer_size, Posix.MAX_RW_COUNT. simpl. lia.
  - discriminate.
  - discriminate.
Defined.

(** X13.  The [vector_output] initialisation writes its values in another
    order: it leaves the file that a conversion of the file of the other
    initialisations gives, with [offset_jki(i,j,k)] at element position
    [offset_jik(i,j,k)]; this when the data fits a file and the driver
    moves a write of [8*n2] bytes whole. *)
Theorem vector_output_initialisation_is_in_output_order
    (drv : io_driver_t) (cast : Z → double) (junk : byte)
    (n : dims) (exact : bool) (input : string) (w : Posix.world) :
  dims_positive n → 8 * volume n ≤ OFF_MAX →
  whole_transfers drv algorithm_vector_output n →
  ∃ w',
    main Posix.io_driver_callbacks (Posix.posix_libc cast junk)
         (Options (Some input) None drv exact algorithm_vector_output true n) w
    = Exit init_only 0 w' ∧
    Posix.fs w' !! input = Some (converted n (counting cast (volume n)) []) ∧
    ∀ i j k, in_cube n i j k →
      load_double (converted n (counting cast (volume n)) []) (offset_jik n i j k)
      = element cast (offset_jki n i j k).
Proof.
  intros Hpos Hfit Hlim. pose proof Hpos as (P0 & P1 & P2).
  pose proof (small_fits n Hfit) as Hv.
  assert (0 < volume n) by (unfold volume; nia).
  destruct (init_only_result drv cast junk algorithm_vector_output n exact input w
              Hpos Hfit Hlim) as (w' & E & Hfs).
  exists w'. split; [exact E |]. split.
  - rewrite Hfs, lookup_insert_eq.
    by rewrite (init_content_vector_output cast n Hpos Hv).
  - intros i j k Hc.
    pose proof (blen_counting cast (volume n) ltac:(lia)) as Hl.
    destruct (offset_jik_enumerates n Hpos Hv) as [Hr _].
    destruct (offset_jki_enumerates n Hpos Hv) as [Hr' _].
    specialize (Hr i j k Hc). specialize (Hr' i j k Hc).
    apply load_double_is; [lia | apply blen_element |].
    intros t Ht.
    rewrite (byte_at_converted n (counting cast (volume n)) [] Hpos
               ltac:(lia) ltac:(lia) i j k t Hc Ht).
    by apply byte_at_counting.
Qed.

Lemma vector_output_initialisation_is_in_output_order_witness :
  let n := Dims 2 3 2 in
  let cast := IEEE.double_of_ulong in
  ∃ w',
    main Posix.io_driver_callbacks (Posix.posix_libc cast x00)
         (Options (Some "in"%string) None io_driver_fd false
                  algorithm_vector_output true n)
         (Posix.World ∅ 0 None None)
    = Exit init_only 0 w' ∧
    Posix.fs w' !! "in"%string = Some (converted n (counting cast (volume n)) []) ∧
    ∀ i j k, in_cube n i j k →
      load_double (converted n (counting cast (volume n)) []) (offset_jik n i j k)
      = element cast (offset_jki n i j k).
Proof.
  intros n cast.
  apply (vector_output_initialisation_is_in_output_order io_driver_fd cast x00
           n false "in" (Posix.World ∅ 0 None None)).
  - unfold dims_positive, ULONG_MOD. simpl. lia.
  - unfold volume, OFF_MAX. simpl. lia.
  - intros _. unfold transfer_size, Posix.MAX_RW_COUNT. simpl. lia.
Defined.

(** X14.  When [n0] or [n2] is [1] the two layouts coincide, and a conversion,
    with any algorithm whose transfers the driver moves whole, copies the
    data region of the input file as it is. *)
Theorem conversion_of_a_flat_cube_is_a_copy
    (drv : io_driver_t) (cast : Z → double) (junk : byte)
    (a : algorithm_t) (n : dims) (exact : bool) (input output : string)
    (inp : list byte) (w : Posix.world) :
  dims_positive n →
  n0 n = 1 ∨ n2 n = 1 →
  Posix.fs w !! input = Some inp →
  8 * volume n ≤ blen inp → blen inp ≤ OFF_MAX →
  (exact = true → blen inp = 8 * volume n) →
  input ≠ output →
  Posix.fs w !! output = None →
  whole_transfers drv a n →
  ∃ w',
    main Posix.io_driver_callbacks (Posix.posix_libc cast junk)
         (Options (Some input) (Some output) drv exact a false n) w
    = Ret tt w' ∧
    Posix.fs w' !! output = Some (take (Z.to_nat (8 * volume n)) inp).
Proof.
  intros Hpos Hflat Hin Hsz Hmax Hex Hne Hfresh Hlim.
  destruct (main_convert_result drv cast junk n exact input output inp a w
              Hpos Hin Hsz Hmax Hex Hne ltac:(done) Hlim) as (w' & E & Ho & _).
  exists w'. split; [exact E |].
  rewrite Ho, Hfresh. simpl.
  rewrite (converted_degenerate n inp [] Hpos Hsz Hmax Hflat).
  by rewrite drop_nil, app_nil_r.
Qed.

Lemma conversion_of_a_flat_cube_is_a_copy_witness :
  let n := Dims 1 2 3 in
  let inp := replicate 48 x07 ++ [x01; x02] in
  let w := Posix.World {[ "in"%string := inp ]} 0 None None in
  ∃ w',
    main Posix.io_driver_callbacks (Posix.posix_libc IEEE.double_of_ulong x00)
         (Options (Some "in"%string) (Some "out"%string) io_driver_fd false
                  algorithm_matrix false n) w
    = Ret tt w' ∧
    Posix.fs w' !! "out"%string = Some (take (Z.to_nat (8 * volume n)) inp).
Proof.
  intros n inp w.
  apply (conversion_of_a_flat_cube_is_a_copy io_driver_fd IEEE.double_of_ulong
           x00 algorithm_matrix n false "in" "out" inp w).
  - unfold dims_positive, ULONG_MOD. simpl. lia.
  - left. reflexivity.
  - reflexivity.
  - unfold volume, blen. simpl. lia.
  - unfold blen, OFF_MAX. simpl. lia.
  - discriminate.
  - discriminate.
  - reflexivity.
  - intros _. unfold transfer_size, Posix.MAX_RW_COUNT. simpl. lia.
Defined.

(** X15.  Converting twice, the second time with the dimensions in reverse
    order [(n2,n1,n0)], gives the data back: the JIK order of a cube is
    the JKI order of the reversed cube.  Each of the two algorithms is
    one whose transfers the driver moves whole. *)
Theorem converting_back_with_reversed_dimensions
    (drv : io_driver_t) (cast : Z → double) (junk : byte)
    (a a' : algorithm_t) (n : dims) (exact exact' : bool)
    (input middle back : string) (inp : list byte) (w : Posix.world) :
  dims_positive n →
  Posix.fs w !! input = Some inp →
  8 * volume n ≤ blen inp → blen inp ≤ OFF_MAX →
  (exact = true → blen inp = 8 * volume n) →
  input ≠ middle → middle ≠ back →
  Posix.fs w !! middle = None → Posix.fs w !! back = None →
  whole_transfers drv a n → whole_transfers drv a' (reversed n) →
  ∃ w1 w2,
    main Posix.io_driver_callbacks (Posix.posix_libc cast junk)
         (Options (Some input) (Some middle) drv exact a false n) w
    = Ret tt w1 ∧
    main Posix.io_driver_callbacks (Posix.posix_libc cast junk)
         (Options (Some middle) (Some back) drv exact' a' false (reversed n)) w1
    = Ret tt w2 ∧
    Posix.fs w2 !! back = Some (take (Z.to_nat (8 * volume n)) inp).
Proof.
  intros Hpos Hin Hsz Hmax Hex Hne Hne' Hmid Hback Hlim Hlim'.
  destruct (main_convert_result drv cast junk n exact input middle inp a w
              Hpos Hin Hsz Hmax Hex Hne ltac:(done) Hlim) as (w1 & E1 & Ho1 & _).
  rewrite Hmid in Ho1. simpl in Ho1.
  assert (Hback1 : Posix.fs w1 !! back = None).
  { pose proof (main_kept drv (Posix.posix_libc cast junk) back (Posix.fs w !! back)
                  (Options (Some input) (Some middle) drv exact a false n) w
                  eq_refl ltac:(simpl; congruence) ltac:(done) eq_refl) as H.
    rewrite E1 in H. simpl in H. by rewrite H. }
  pose proof (blen_converted_fresh n inp Hpos Hsz Hmax) as Hl.
  destruct (main_convert_result drv cast junk (reversed n) exact' middle back
              (converted n inp []) a' w1 (reversed_positive n Hpos) Ho1)
    as (w2 & E2 & Ho2 & _).
  - rewrite volume_reversed. lia.
  - lia.
  - intros _. by rewrite volume_reversed.
  - done.
  - done.
  - done.
  - exists w1, w2. split; [exact E1 |]. split; [exact E2 |].
    rewrite Ho2, Hback1. simpl.
    by rewrite (converted_twice n inp Hpos Hsz Hmax).
Qed.

Lemma converting_back_with_reversed_dimensions_witness :
  let n := Dims 2 1 3 in
  let inp := [x01; x02; x03; x04; x05; x06; x07; x08] ++ replicate 40 x09 in
  let w := Posix.World {[ "a"%string := inp ]} 0 None None in
  ∃ w1 w2,
    main Posix.io_driver_callbacks (Posix.posix_libc IEEE.double_of_ulong x00)
         (Options (Some "a"%string) (Some "b"%string) io_driver_fd true
                  algorithm_jki_map false n) w
    = Ret tt w1 ∧
    main Posix.io_driver_callbacks (Posix.posix_libc IEEE.double_of_ulong x00)
         (Options (Some "b"%string) (Some "c"%string) io_driver_fd true
                  algorithm_matrix false (reversed n)) w1
    = Ret tt w2 ∧
    Posix.fs w2 !! "c"%string = Some (take (Z.to_nat (8 * volume n)) inp).
Proof.
  intros n inp w.
  apply (converting_back_with_reversed_dimensions io_driver_fd
           IEEE.double_of_ulong x00 algorithm_jki_map algorithm_matrix n true true
           "a" "b" "c" inp w).
  - unfold dims_positive, ULONG_MOD. simpl. lia.
  - reflexivity.
  - unfold volume, blen. simpl. lia.
  - unfold blen, OFF_MAX. simpl. lia.
  - intros _. reflexivity.
  - discriminate.
  - discriminate.
  - reflexivity.
  - reflexivity.
  - intros _. unfold transfer_size, Posix.MAX_RW_COUNT. simpl. lia.
  - intros _. unfold transfer_size, Posix.MAX_RW_COUNT. simpl. lia.
Defined.



(** X17.  An input file of the wrong size stops the run with [EINVAL] before
    the output file is created: one that is too small for the dimensions
    always, one that is too large when exact dimensions are asked for. *)
Theorem input_size_is_checked_before_the_output_is_created
    (drv : io_driver_t) (cast : Z → double) (junk : byte)
    (a : algorithm_t) (n : dims) (exact : bool) (input output : string)
    (inp : list byte) (w : Posix.world) :
  dims_positive n → 8 * volume n ≤ OFF_MAX →
  Posix.fs w !! input = Some inp → blen inp ≤ OFF_MAX →
  blen inp < 8 * volume n ∨ (exact = true ∧ 8 * volume n < blen inp) →
  ∃ w',
    main Posix.io_driver_callbacks (Posix.posix_libc cast junk)
         (Options (Some input) (Some output) drv exact a false n) w
    = Exit (if blen inp <? 8 * volume n
            then err_input_too_small else err_input_too_large) EINVAL w' ∧
    Posix.fs w' = Posix.fs w.
Proof.
  intros Hpos Hfit Hin Hmax Hsize. pose proof Hpos as (P0 & P1 & P2).
  pose proof (blen_nonneg inp) as Hn.
  assert (El : umul (umul (umul 8 (n0 n)) (n1 n)) (n2 n) = 8 * volume n).
  { apply (data_size_exact n (replicate (Z.to_nat (8 * volume n)) x00) Hpos);
      rewrite blen_replicate; unfold volume in *; nia. }
  unfold main. simpl.
  destruct (Z.eqb_spec (n0 n) 0); [lia |].
  destruct (Z.eqb_spec (n1 n) 0); [lia |].
  destruct (Z.eqb_spec (n2 n) 0); [lia |]. simpl.
  unfold bind at 1. unfold ret at 1. unfold bind at 1.
  unfold open_input, bind, open, stat. rewrite El.
  assert (E : ∀ w0, Posix.fs w0 = Posix.fs w →
    Posix.in_handle w0 = Some (Posix.OpenFile input 0 false) →
    ∃ w', check_size (blen inp) (8 * volume n) exact err_input_too_small
            err_input_too_large w0
          = Exit (if blen inp <? 8 * volume n
                  then err_input_too_small else err_input_too_large) EINVAL w' ∧
          Posix.fs w' = Posix.fs w).
  { intros w0 Hfs Hh. unfold check_size.
    rewrite ulong_small by (unfold ULONG_MOD, OFF_MAX in *; lia).
    destruct (Z.ltb_spec (blen inp) (8 * volume n)); [by eexists |].
    destruct Hsize as [? | [-> Hlarge]]; [lia |].
    destruct (Z.ltb_spec (8 * volume n) (blen inp)); [| lia]. by eexists. }
  destruct drv; simpl;
    unfold Posix.file_handle_open_fd, Posix.file_handle_open_stream;
    rewrite Hin; simpl;
    unfold Posix.file_handle_stat_stream, Posix.file_handle_stat_fd; simpl;
    unfold Posix.content_of; simpl; rewrite Hin; simpl;
    fold (blen inp);
    match goal with
    | |- context [check_size _ _ _ _ _ ?w0] =>
        destruct (E w0) as (w' & -> & Hfs'); [done | done |]
    end; by exists w'.
Qed.

Lemma input_size_is_checked_before_the_output_is_created_witness :
  let n := Dims 2 2 2 in
  let inp := replicate 63 x07 in
  let w := Posix.World {[ "in"%string := inp ]} 0 None None in
  ∃ w',
    main Posix.io_driver_callbacks (Posix.posix_libc IEEE.double_of_ulong x00)
         (Options (Some "in"%string) (Some "out"%string) io_driver_fd false
                  algorithm_jki_map false n) w
    = Exit (if blen inp <? 8 * volume n
            then err_input_too_small else err_input_too_large) EINVAL w' ∧
    Posix.fs w' = Posix.fs w.
Proof.
  intros n inp w.
  apply (input_size_is_checked_before_the_output_is_created io_driver_fd
           IEEE.double_of_ulong x00 algorithm_jki_map n false "in" "out" inp w).
  - unfold dims_positive, ULONG_MOD. simpl. lia.
  - unfold volume, OFF_MAX. simpl. lia.
  - reflexivity.
  - unfold blen, OFF_MAX. simpl. lia.
  - left. unfold volume, blen. simpl. lia.
Defined.

(** X18.  When [malloc] fails, the three buffered algorithms end the process
    with [ENOMEM] after the output file has been created, which is left
    empty; the three element-wise algorithms do not allocate, and convert
    as they do otherwise. *)
Theorem allocation_failure
    (drv : io_driver_t) (cast : Z → double) (junk : byte)
    (a : algorithm_t) (n : dims) (exact : bool) (input output : string)
    (inp : list byte) (w : Posix.world) :
  dims_positive n →
  Posix.fs w !! input = Some inp →
  8 * volume n ≤ blen inp → blen inp ≤ OFF_MAX →
  (exact = true → blen inp = 8 * volume n) →
  input ≠ output →
  Posix.fs w !! output = None →
  let r := main Posix.io_driver_callbacks (out_of_memory cast junk)
             (Options (Some input) (Some output) drv exact a false n) w in
  match a with
  | algorithm_vector_input | algorithm_vector_output | algorithm_matrix =>
      ∃ w', r = Exit err_alloc ENOMEM w' ∧
            Posix.fs w' = <[output := []]> (Posix.fs w)
  | _ =>
      r = main Posix.io_driver_callbacks (Posix.posix_libc cast junk)
            (Options (Some input) (Some output) drv exact a false n) w
  end.
Proof.
  intros Hpos Hin Hsz Hmax Hex Hne Hfresh r.
  pose proof (open_input_ok drv cast junk input n inp Hpos Hsz Hmax exact w Hin Hex)
    as E1.
  destruct (open_output_ok drv cast junk output n exact (8 * volume n)
              (Posix.set_fh in_fh (Some (Posix.OpenFile input 0 false)) w))
    as (w2 & E2 & Hfs2 & _); [by destruct drv |].
  assert (Hfs : Posix.fs w2 = <[output := []]> (Posix.fs w)).
  { rewrite Hfs2. simpl. by rewrite Hfresh. }
  unfold r.
  rewrite (main_converts drv cast junk n exact input output _ a w _ w2 Hpos E1 E2
             (out_of_memory cast junk) eq_refl).
  destruct a;
    try (rewrite (main_converts drv cast junk n exact input output _ _ w _ w2
                    Hpos E1 E2 (Posix.posix_libc cast junk) eq_refl);
         reflexivity);
    (exists w2; split; [reflexivity | exact Hfs]).
Qed.

Lemma allocation_failure_witness :
  let n := Dims 2 2 2 in
  let inp := replicate 64 x07 in
  let w := Posix.World {[ "in"%string := inp ]} 0 None None in
  ∃ w',
    main Posix.io_driver_callbacks (out_of_memory IEEE.double_of_ulong x00)
         (Options (Some "in"%string) (Some "out"%string) io_driver_fd false
                  algorithm_matrix false n) w
    = Exit err_alloc ENOMEM w' ∧
    Posix.fs w' = <[ "out"%string := [] ]> (Posix.fs w).
Proof.
  intros n inp w.
  apply (allocation_failure io_driver_fd IEEE.double_of_ulong x00
           algorithm_matrix n false "in" "out" inp w).
  - unfold dims_positive, ULONG_MOD. simpl. lia.
  - reflexivity.
  - unfold volume, blen. simpl. lia.
  - unfold blen, OFF_MAX. simpl. lia.
  - discriminate.
  - discriminate.
  - reflexivity.
Defined.

(** X19.  A run that initialises the input file and converts it uses one
    algorithm for both.  With [ijk_map], [jki_map], [vector_input] or
    [matrix], when the data fits a file and the driver moves the
    transfers of the algorithm whole, the input file holds the value [p]
    at position [p], and the output element at [offset_jik(i,j,k)] is
    [offset_jki(i,j,k)]. *)
Theorem initialising_then_converting
    (drv : io_driver_t) (cast : Z → double) (junk : byte)
    (a : algorithm_t) (n : dims) (exact : bool) (input output : string)
    (w : Posix.world) :
  dims_positive n → 8 * volume n ≤ OFF_MAX →
  whole_transfers drv a n →
  a ≠ algorithm_jik_map → a ≠ algorithm_vector_output →
  input ≠ output →
  (drv = io_driver_stream → Posix.fs w !! output = None) →
  ∃ w' out,
    main Posix.io_driver_callbacks (Posix.posix_libc cast junk)
         (Options (Some input) (Some output) drv exact a true n) w
    = Ret tt w' ∧
    Posix.fs w' !! input = Some (counting cast (volume n)) ∧
    Posix.fs w' !! output = Some out ∧
    ∀ i j k, in_cube n i j k →
      load_double out (offset_jik n i j k) = element cast (offset_jki n i j k).
Proof.
  intros Hpos Hfit Hlim Hjik Hvo Hne Hfresh. pose proof Hpos as (P0 & P1 & P2).
  pose proof (small_fits n Hfit) as Hv.
  assert (0 < volume n) by (unfold volume; nia).
  rewrite main_after_init by lia.
  destruct (initialise_ok drv cast junk input (Posix.fs w) n Hpos Hfit a w
              Hlim eq_refl) as (w1 & E1 & Hfs1).
  rewrite E1.
  rewrite (init_content_counting cast n Hpos Hv a Hjik Hvo) in Hfs1.
  pose proof (blen_counting cast (volume n) ltac:(lia)) as Hl.
  destruct (main_convert_result drv cast junk n exact input output
              (counting cast (volume n)) a w1 Hpos)
    as (w2 & E2 & Ho2 & Hi2); [| lia | lia | done | done | | done |].
  - by rewrite Hfs1, lookup_insert_eq.
  - intros Hd. rewrite Hfs1, lookup_insert_ne by done. by apply Hfresh.
  - exists w2, (converted n (counting cast (volume n))
                  (default [] (Posix.fs w1 !! output))).
    split; [exact E2 |]. split; [exact Hi2 |]. split; [exact Ho2 |].
    intros i j k Hc.
    destruct (offset_jik_enumerates n Hpos Hv) as [Hr _].
    destruct (offset_jki_enumerates n Hpos Hv) as [Hr' _].
    specialize (Hr i j k Hc). specialize (Hr' i j k Hc).
    apply load_double_is; [lia | apply blen_element |].
    intros t Ht.
    rewrite (byte_at_converted n (counting cast (volume n)) _ Hpos
               ltac:(lia) ltac:(lia) i j k t Hc Ht).
    by apply byte_at_counting.
Qed.

Lemma initialising_then_converting_witness :
  ∃ w' out,
    main Posix.io_driver_callbacks (Posix.posix_libc IEEE.double_of_ulong x00)
         (Options (Some "in"%string) (Some "out"%string) io_driver_fd true
                  algorithm_matrix true (Dims 2 3 2))
         (Posix.World ∅ 0 None None)
    = Ret tt w' ∧
    Posix.fs w' !! "in"%string
    = Some (counting IEEE.double_of_ulong (volume (Dims 2 3 2))) ∧
    Posix.fs w' !! "out"%string = Some out ∧
    ∀ i j k, in_cube (Dims 2 3 2) i j k →
      load_double out (offset_jik (Dims 2 3 2) i j k)
      = element IEEE.double_of_ulong (offset_jki (Dims 2 3 2) i j k).
Proof.
  apply (initialising_then_converting io_driver_fd IEEE.double_of_ulong x00
           algorithm_matrix (Dims 2 3 2) true "in" "out"
           (Posix.World ∅ 0 None None)).
  - unfold dims_positive, ULONG_MOD. simpl. lia.
  - unfold volume, OFF_MAX. simpl. lia.
  - intros _. unfold transfer_size, Posix.MAX_RW_COUNT. simpl. lia.
  - discriminate.
  - discriminate.
  - discriminate.
  - discriminate.
Defined.

Lemma bind_returns {W A B} (m : M W A) (k : A → M W B) w b w' :
  bind m k w = Ret b w' → ∃ a w1, m w = Ret a w1 ∧ k a w1 = Ret b w'.
Proof. unfold bind. destruct (m w) as [a w1 |]; [eauto | done]. Qed.

(** [main] returns only after it has closed both files. *)
Lemma main_returns_closed (rt : libc Posix.world) o w w' :
  main Posix.io_driver_callbacks rt o w = Ret tt w' →
  Posix.in_handle w' = None ∧ Posix.out_handle w' = None.
Proof.
  unfold main. destruct (_ || _); [done |].
  destruct (input_file o); [| done].
  intros (_ & w1 & _ & H)%bind_returns.
  destruct (output_file o); [| done].
  apply bind_returns in H as (l & w2 & _ & H).
  apply bind_returns in H as (_ & w3 & _ & H).
  apply bind_returns in H as (_ & w4 & _ & H).
  unfold bind, close in H. injection H as <-.
  by destruct (use_io_driver o).
Qed.

(** X20.  A conversion into a new file, with an algorithm whose transfers
    the driver moves whole, leaves that file, the converted data, beside
    the files that were there, which are unchanged, and both files
    closed; so the two drivers, and such algorithms, leave the same
    files. *)
Theorem conversion_adds_one_file
    (drv : io_driver_t) (cast : Z → double) (junk : byte)
    (a : algorithm_t) (n : dims) (exact : bool) (input output : string)
    (inp : list byte) (w : Posix.world) :
  dims_positive n →
  Posix.fs w !! input = Some inp →
  8 * volume n ≤ blen inp → blen inp ≤ OFF_MAX →
  (exact = true → blen inp = 8 * volume n) →
  Posix.fs w !! output = None →
  whole_transfers drv a n →
  ∃ w',
    main Posix.io_driver_callbacks (Posix.posix_libc cast junk)
         (Options (Some input) (Some output) drv exact a false n) w
    = Ret tt w' ∧
    Posix.fs w' = <[output := converted n inp []]> (Posix.fs w) ∧
    Posix.in_handle w' = None ∧ Posix.out_handle w' = None.
Proof.
  intros Hpos Hin Hsz Hmax Hex Hfresh Hlim.
  assert (Hne : input ≠ output) by (intros ->; congruence).
  destruct (main_convert_result drv cast junk n exact input output inp a w
              Hpos Hin Hsz Hmax Hex Hne ltac:(done) Hlim) as (w' & E & Ho & _).
  exists w'. split; [exact E |]. split.
  - apply map_eq. intros p.
    destruct (decide (p = output)) as [-> | Hp].
    + by rewrite lookup_insert_eq, Ho, Hfresh.
    + rewrite lookup_insert_ne by done.
      pose proof (main_kept drv (Posix.posix_libc cast junk) p (Posix.fs w !! p)
                    (Options (Some input) (Some output) drv exact a false n) w
                    eq_refl ltac:(simpl; congruence) ltac:(done) eq_refl) as H.
      by rewrite E in H.
  - by apply (main_returns_closed _ _ _ _ E).
Qed.

Lemma conversion_adds_one_file_witness :
  let n := Dims 2 1 2 in
  let inp := replicate 32 x07 in
  let w := Posix.World {[ "in"%string := inp ]} 0 None None in
  ∃ w',
    main Posix.io_driver_callbacks (Posix.posix_libc IEEE.double_of_ulong x00)
         (Options (Some "in"%string) (Some "out"%string) io_driver_fd true
                  algorithm_vector_output false n) w
    = Ret tt w' ∧
    Posix.fs w' = <[ "out"%string := converted n inp [] ]> (Posix.fs w) ∧
    Posix.in_handle w' = None ∧ Posix.out_handle w' = None.
Proof.
  intros n inp w.
  apply (conversion_adds_one_file io_driver_fd IEEE.double_of_ulong x00
           algorithm_vector_output n true "in" "out" inp w).
  - unfold dims_positive, ULONG_MOD. simpl. lia.
  - reflexivity.
  - unfold volume, blen. simpl. lia.
  - unfold blen, OFF_MAX. simpl. lia.
  - intros _. reflexivity.
  - reflexivity.
  - intros _. unfold transfer_size, Posix.MAX_RW_COUNT. simpl. lia.
Defined.
